(** * COALESCE cache-replacement simulator: a shallow embedding

    The development follows [src/simulations/coalesce_sim.cpp]: the
    perceptron brain, the three replacement policies (LRU, SRRIP, COALESCE)
    behind the [ReplacementPolicy] interface, and the set-associative
    [Simulator] that drives them.

    Conventions.
    - A C++ [int] or [uint64_t] is a [Z]; where the source relies on a
      width (the hash) the wrap-around is written out.  Ranks, re-reference
      values, weights and votes are kept small by the invariants proved
      below, so their [int] arithmetic is plain [Z] arithmetic.  The three
      statistics counters grow by at most one per access and their [++] is
      [+ 1]: model and source agree on every run of at most [INT_MAX]
      accesses, and the statements that sum, bound or order the counters
      after a trace of any length carry that bound.  The [int] sum of
      [print_stats] is written with its wrap-around.
    - A [std::vector] is a [list]; [v[i]] is [at_ v i] and [v[i] = x] is
      [set_at v i x].  Both are checked in the model: indexing outside the
      vector yields [OutOfBounds], because C++ gives such an access no
      meaning at all (the source itself checks nothing).
    - [while(true)] needs fuel; a function that runs out of it yields
      [OutOfFuel]. *)

From Stdlib Require Import ZArith Lia Bool String Floats Uint63.
From stdpp Require Import base tactics option list numbers.

Local Open Scope Z_scope.

(** ** Outcomes of running a piece of the program *)

Inductive outcome (A : Type) : Type :=
| Ret (a : A)      (* ran to its end and produced [a] *)
| OutOfFuel        (* still inside a [while(true)] when the fuel ran out *)
| OutOfBounds      (* read or wrote a vector outside its bounds *)
| Rejected.        (* an explicit refusal; only the guarded simulator of
                      the specification produces it, the source never does *)

Arguments Ret {A} a.
Arguments OutOfFuel {A}.
Arguments OutOfBounds {A}.
Arguments Rejected {A}.

#[global] Instance outcome_ret : MRet outcome := λ A a, Ret a.

#[global] Instance outcome_bind : MBind outcome := λ A B k m,
  match m with
  | Ret a => k a
  | OutOfFuel => OutOfFuel
  | OutOfBounds => OutOfBounds
  | Rejected => Rejected
  end.

(** ** Vectors *)

Definition at_ {A} (v : list A) (i : Z) : outcome A :=
  if 0 <=? i then
    match v !! Z.to_nat i with
    | Some a => Ret a
    | None => OutOfBounds
    end
  else OutOfBounds.

Definition set_at {A} (v : list A) (i : Z) (a : A) : outcome (list A) :=
  if (0 <=? i) && (i <? Z.of_nat (length v))
  then Ret (<[Z.to_nat i := a]> v)
  else OutOfBounds.

(** [m[i][j]] and [m[i][j] = a] on a vector of vectors. *)
Definition at2 {A} (m : list (list A)) (i j : Z) : outcome A :=
  row ← at_ m i; at_ row j.

Definition set_at2 {A} (m : list (list A)) (i j : Z) (a : A)
  : outcome (list (list A)) :=
  row ← at_ m i; row' ← set_at row j a; set_at m i row'.

(** ** Configuration constants *)

Definition NUM_SETS : Z := 64.
Definition WAYS : Z := 8.
Definition PERCEPTRON_TABLE_SIZE : Z := 4096.
Definition SAMPLER_SIZE : Z := 8.
Definition SAMPLING_RATE : Z := 32.

Arguments NUM_SETS : simpl never.
Arguments WAYS : simpl never.
Arguments PERCEPTRON_TABLE_SIZE : simpl never.
Arguments SAMPLER_SIZE : simpl never.
Arguments SAMPLING_RATE : simpl never.

(** ** Data model *)

Inductive MESI_State := INVALID | SHARED | EXCLUSIVE | MODIFIED.

Definition MESI_value (s : MESI_State) : Z :=
  match s with INVALID => 0 | SHARED => 1 | EXCLUSIVE => 2 | MODIFIED => 3 end.

Definition is_MODIFIED (s : MESI_State) : bool :=
  match s with MODIFIED => true | _ => false end.

Record CacheLine := mkCacheLine {
  valid : bool;
  tag : Z;
  pc : Z;
  sharers : Z;
  state : MESI_State;
  lru_stack : Z;
  rrpv : Z
}.

(** A default-constructed [CacheLine]. *)
Definition CacheLine_default : CacheLine :=
  mkCacheLine false 0 0 0 INVALID 0 3.

Record SamplerEntry := mkSamplerEntry {
  se_valid : bool;
  se_partial_tag : Z;
  se_pc : Z;
  se_sharers : Z;
  se_state : MESI_State;
  se_last_prediction : Z
}.

Definition SamplerEntry_default : SamplerEntry :=
  mkSamplerEntry false 0 0 0 INVALID 0.

(** ** Fixed-width conversions used by the hash *)

Definition to_u64 (x : Z) : Z := x mod 2 ^ 64.

(** Two's-complement value of the low 32 bits, the result type of [<<] on
    an [int]. *)
Definition wrap_i32 (x : Z) : Z := (x + 2 ^ 31) mod 2 ^ 32 - 2 ^ 31.

(** The largest [int], and [a + b] on two [int]s. *)
Definition INT_MAX : Z := 2 ^ 31 - 1.

Definition int_add (a b : Z) : Z := wrap_i32 (a + b).

(** ** PerceptronBrain *)

Record PerceptronBrain := mkBrain { weights : list Z }.

Definition PerceptronBrain_init : PerceptronBrain :=
  mkBrain (replicate (Z.to_nat PERCEPTRON_TABLE_SIZE) 0).

Definition get_hash (pc : Z) (sharers : Z) (state : MESI_State) : Z :=
  let h := to_u64 pc in
  let h := Z.lxor h (to_u64 (wrap_i32 (Z.shiftl sharers 4))) in
  let h := Z.lxor h (to_u64 (wrap_i32 (Z.shiftl (MESI_value state) 8))) in
  (Z.lxor h 0x9e3779b9) mod PERCEPTRON_TABLE_SIZE.

Definition predict (b : PerceptronBrain) (pc sharers : Z) (state : MESI_State)
  : outcome Z :=
  at_ (weights b) (get_hash pc sharers state).

Definition train (b : PerceptronBrain) (pc sharers : Z) (state : MESI_State)
    (positive : bool) : outcome PerceptronBrain :=
  let idx := get_hash pc sharers state in
  w ← at_ (weights b) idx;
  if positive then
    if w <? 127 then
      ws ← set_at (weights b) idx (w + 1); Ret (mkBrain ws)
    else Ret b
  else
    if w >? -128 then
      ws ← set_at (weights b) idx (w - 1); Ret (mkBrain ws)
    else Ret b.

(** A training call as data, and a whole sequence of them. *)
Record train_call := mkTrain {
  tc_pc : Z; tc_sharers : Z; tc_state : MESI_State; tc_positive : bool
}.

Fixpoint train_all (b : PerceptronBrain) (calls : list train_call)
  : outcome PerceptronBrain :=
  match calls with
  | [] => Ret b
  | c :: calls' =>
      b' ← train b (tc_pc c) (tc_sharers c) (tc_state c) (tc_positive c);
      train_all b' calls'
  end.

(** The weight-table invariant: the table keeps its size and every weight
    fits a signed byte. *)
Definition brain_ok (b : PerceptronBrain) : Prop :=
  length (weights b) = Z.to_nat PERCEPTRON_TABLE_SIZE ∧
  Forall (λ w, -128 ≤ w ≤ 127) (weights b).


(** ** ReplacementPolicy: the abstract base class

    A policy object is a value of type [P]; a method that mutates the
    object returns the new one.  [find_victim] takes the fuel for the one
    policy whose search is a [while(true)]. *)

Class ReplacementPolicy (P : Type) := {
  update_on_hit : P → Z → Z → CacheLine → outcome P;
  update_on_miss : P → Z → Z → outcome P;
  find_victim :
    nat → P → Z → list CacheLine → Z → Z → MESI_State → outcome (Z * P);
  name : P → string
}.

(** The loop that both baseline policies run over the ways of one set,
    [for (w ...) if (v[set_idx][w] < bound) v[set_idx][w]++;], with [n]
    iterations left and starting at way [w]. *)
Fixpoint bump_below (bound : Z) (n : nat) (w : Z) (v : list (list Z))
    (set_idx : Z) : outcome (list (list Z)) :=
  match n with
  | O => Ret v
  | S n' =>
      r ← at2 v set_idx w;
      v' ← (if r <? bound then set_at2 v set_idx w (r + 1) else Ret v);
      bump_below bound n' (w + 1) v' set_idx
  end.

(** The victim scan that both baseline policies run,
    [for (w ...) { if (!set[w].valid) return w;
                   if (v[set_idx][w] == target) return w; }],
    with [n] iterations left and starting at way [w]; [None] when the loop
    ends without a [return]. *)
Fixpoint scan_for (target : Z) (n : nat) (w : Z) (v : list (list Z))
    (set_idx : Z) (set : list CacheLine) : outcome (option Z) :=
  match n with
  | O => Ret None
  | S n' =>
      line ← at_ set w;
      if negb (valid line) then Ret (Some w) else
      r ← at2 v set_idx w;
      if r =? target then Ret (Some w)
      else scan_for target n' (w + 1) v set_idx set
  end.

(** ** LRU_Policy *)

Record LRU_Policy := mkLRU { lru_stacks : list (list Z) }.

Definition LRU_Policy_init : LRU_Policy :=
  mkLRU (replicate (Z.to_nat NUM_SETS) (seqZ 0 WAYS)).

(** [for(int w=0; w<WAYS; w++) if (lru_stacks[set_idx][w] < old_pos)
    lru_stacks[set_idx][w]++;] with [n] iterations left, starting at [w]. *)
Definition lru_shift (n : nat) (w : Z) (old_pos : Z) (stacks : list (list Z))
    (set_idx : Z) : outcome (list (list Z)) :=
  bump_below old_pos n w stacks set_idx.

Definition LRU_update_on_hit (p : LRU_Policy) (set_idx way : Z)
    (line : CacheLine) : outcome LRU_Policy :=
  old_pos ← at2 (lru_stacks p) set_idx way;
  stacks ← lru_shift (Z.to_nat WAYS) 0 old_pos (lru_stacks p) set_idx;
  stacks ← set_at2 stacks set_idx way 0;
  Ret (mkLRU stacks).

Definition LRU_update_on_miss (p : LRU_Policy) (set_idx way : Z)
  : outcome LRU_Policy :=
  old_pos ← at2 (lru_stacks p) set_idx way;
  stacks ← lru_shift (Z.to_nat WAYS) 0 old_pos (lru_stacks p) set_idx;
  stacks ← set_at2 stacks set_idx way 0;
  Ret (mkLRU stacks).

(** The scan of [LRU_Policy::find_victim]; [None] when the loop falls
    through to [return 0]. *)
Definition lru_scan (n : nat) (w : Z) (stacks : list (list Z)) (set_idx : Z)
    (set : list CacheLine) : outcome (option Z) :=
  scan_for (WAYS - 1) n w stacks set_idx set.

Definition LRU_find_victim (p : LRU_Policy) (set_idx : Z)
    (set : list CacheLine) (pc sh : Z) (st : MESI_State)
  : outcome (Z * LRU_Policy) :=
  found ← lru_scan (Z.to_nat WAYS) 0 (lru_stacks p) set_idx set;
  match found with
  | Some w => Ret (w, p)
  | None => Ret (0, p)
  end.

#[global] Instance LRU_ReplacementPolicy : ReplacementPolicy LRU_Policy := {
  update_on_hit := LRU_update_on_hit;
  update_on_miss := LRU_update_on_miss;
  find_victim := λ _, LRU_find_victim;
  name := λ _, "LRU"%string
}.

(** ** SRRIP_Policy *)

Record SRRIP_Policy := mkSRRIP { rrpv_bits : list (list Z) }.

Definition SRRIP_Policy_init : SRRIP_Policy :=
  mkSRRIP (replicate (Z.to_nat NUM_SETS) (replicate (Z.to_nat WAYS) 3)).

Definition SRRIP_update_on_hit (p : SRRIP_Policy) (set_idx way : Z)
    (line : CacheLine) : outcome SRRIP_Policy :=
  bits ← set_at2 (rrpv_bits p) set_idx way 0;
  Ret (mkSRRIP bits).

Definition SRRIP_update_on_miss (p : SRRIP_Policy) (set_idx way : Z)
  : outcome SRRIP_Policy :=
  bits ← set_at2 (rrpv_bits p) set_idx way 2;
  Ret (mkSRRIP bits).

(** The first [for] of the [while(true)] body, over [n] ways from [w]:
    [Some w] when it returns [w], [None] when it falls through. *)
Definition srrip_scan (n : nat) (w : Z) (bits : list (list Z)) (set_idx : Z)
    (set : list CacheLine) : outcome (option Z) :=
  scan_for 3 n w bits set_idx set.

(** The second [for]: one aging round,
    [if (rrpv_bits[set_idx][w] < 3) rrpv_bits[set_idx][w]++;] at each way. *)
Definition srrip_age (n : nat) (w : Z) (bits : list (list Z)) (set_idx : Z)
  : outcome (list (list Z)) :=
  bump_below 3 n w bits set_idx.

(** The [while(true)] for a set of [ways] ways: each unit of fuel pays for
    one scan, so fuel [k + 1] allows [k] aging rounds. *)
Fixpoint srrip_loop (ways : nat) (fuel : nat) (bits : list (list Z))
    (set_idx : Z) (set : list CacheLine) : outcome (Z * list (list Z)) :=
  match fuel with
  | O => OutOfFuel
  | S fuel' =>
      found ← srrip_scan ways 0 bits set_idx set;
      match found with
      | Some w => Ret (w, bits)
      | None =>
          bits' ← srrip_age ways 0 bits set_idx;
          srrip_loop ways fuel' bits' set_idx set
      end
  end.

Definition SRRIP_find_victim (fuel : nat) (p : SRRIP_Policy) (set_idx : Z)
    (set : list CacheLine) (pc sh : Z) (st : MESI_State)
  : outcome (Z * SRRIP_Policy) :=
  '(w, bits) ← srrip_loop (Z.to_nat WAYS) fuel (rrpv_bits p) set_idx set;
  Ret (w, mkSRRIP bits).

#[global] Instance SRRIP_ReplacementPolicy : ReplacementPolicy SRRIP_Policy := {
  update_on_hit := SRRIP_update_on_hit;
  update_on_miss := SRRIP_update_on_miss;
  find_victim := SRRIP_find_victim;
  name := λ _, "SRRIP"%string
}.

(** ** COALESCE_Policy *)

(** The policy holds a pointer to the brain; no one else touches that brain
    while the policy runs, so the policy value carries it. *)
Record COALESCE_Policy := mkCOALESCE {
  brain : PerceptronBrain;
  samplers : list (list SamplerEntry);
  is_sampled : list bool
}.

Definition COALESCE_Policy_init (b : PerceptronBrain) : COALESCE_Policy :=
  mkCOALESCE b
    (replicate (Z.to_nat NUM_SETS)
       (replicate (Z.to_nat SAMPLER_SIZE) SamplerEntry_default))
    ((λ i, i mod SAMPLING_RATE =? 0) <$> seqZ 0 NUM_SETS).

Definition COALESCE_update_on_hit (p : COALESCE_Policy) (set_idx way : Z)
    (line : CacheLine) : outcome COALESCE_Policy :=
  s ← at_ (is_sampled p) set_idx;
  if s : bool then
    b ← train (brain p) (pc line) (sharers line) (state line) true;
    Ret (mkCOALESCE b (samplers p) (is_sampled p))
  else Ret p.

Definition COALESCE_update_on_miss (p : COALESCE_Policy) (set_idx way : Z)
  : outcome COALESCE_Policy :=
  Ret p.

(** The vote a line gets: the brain's prediction plus the two coherence
    bonuses. *)
Definition adjusted_vote (b : PerceptronBrain) (line : CacheLine) : outcome Z :=
  vote ← predict b (pc line) (sharers line) (state line);
  let vote := if is_MODIFIED (state line) then vote + 60 else vote in
  let vote := if sharers line >? 2 then vote + 30 else vote in
  Ret vote.

(** What the voting loop ends with: an early [return w] at an invalid way,
    or the loop's [victim] and [min_vote]. *)
Inductive scan_result :=
| Empty (w : Z)
| Chosen (victim min_vote : Z).

Fixpoint coalesce_scan (n : nat) (w : Z) (b : PerceptronBrain)
    (set : list CacheLine) (victim min_vote : Z) : outcome scan_result :=
  match n with
  | O => Ret (Chosen victim min_vote)
  | S n' =>
      line ← at_ set w;
      if negb (valid line) then Ret (Empty w) else
      vote ← adjusted_vote b line;
      if vote <? min_vote then coalesce_scan n' (w + 1) b set w vote
      else coalesce_scan n' (w + 1) b set victim min_vote
  end.

Definition COALESCE_find_victim (p : COALESCE_Policy) (set_idx : Z)
    (set : list CacheLine) (current_pc current_sharers : Z)
    (current_state : MESI_State) : outcome (Z * COALESCE_Policy) :=
  r ← coalesce_scan (Z.to_nat WAYS) 0 (brain p) set (-1) 99999;
  match r with
  | Empty w => Ret (w, p)
  | Chosen victim min_vote =>
      s ← at_ (is_sampled p) set_idx;
      if s : bool then
        victim_line ← at_ set victim;
        ring ← at_ (samplers p) set_idx;
        smp ← set_at (samplers p) set_idx
                (ring ++ [mkSamplerEntry true (tag victim_line)
                            (pc victim_line) (sharers victim_line)
                            (state victim_line) min_vote]);
        b ← train (brain p) (pc victim_line) (sharers victim_line)
              (state victim_line) false;
        Ret (victim, mkCOALESCE b smp (is_sampled p))
      else Ret (victim, p)
  end.

#[global] Instance COALESCE_ReplacementPolicy
  : ReplacementPolicy COALESCE_Policy := {
  update_on_hit := COALESCE_update_on_hit;
  update_on_miss := COALESCE_update_on_miss;
  find_victim := λ _, COALESCE_find_victim;
  name := λ _, "COALESCE"%string
}.

(** ** Simulator *)

Record Simulator (P : Type) := mkSim {
  policy : P;
  cache : list (list CacheLine);
  hits : Z;
  misses : Z;
  coherence_traffic_saved : Z
}.

Arguments mkSim {P}.
Arguments policy {P}.
Arguments cache {P}.
Arguments hits {P}.
Arguments misses {P}.
Arguments coherence_traffic_saved {P}.

Definition Simulator_init {P} (p : P) : Simulator P :=
  mkSim p
    (replicate (Z.to_nat NUM_SETS) (replicate (Z.to_nat WAYS) CacheLine_default))
    0 0 0.

(** The line installed on a miss. *)
Definition fresh_line (tg pc sh : Z) (st : MESI_State) : CacheLine :=
  mkCacheLine true tg pc sh st 0 3.

Section Simulator.
Context {P : Type} `{ReplacementPolicy P}.

(** Step 1 of [access], the hit check over [n] ways from [w]:
    [Some sim'] when a way hits and [access] returns there. *)
Fixpoint check_hit (n : nat) (w : Z) (sim : Simulator P) (set_idx tg : Z)
  : outcome (option (Simulator P)) :=
  match n with
  | O => Ret None
  | S n' =>
      line ← at2 (cache sim) set_idx w;
      if valid line && (tag line =? tg) then
        p' ← update_on_hit (policy sim) set_idx w line;
        Ret (Some
          (mkSim p' (cache sim) (hits sim + 1) (misses sim)
             (if is_MODIFIED (state line) || (sharers line >? 1)
              then coherence_traffic_saved sim + 1
              else coherence_traffic_saved sim)))
      else check_hit n' (w + 1) sim set_idx tg
  end.

Definition access (fuel : nat) (sim : Simulator P) (addr pc sharers : Z)
    (state : MESI_State) : outcome (Simulator P) :=
  let set_idx := (addr / 64) mod NUM_SETS in
  let tg := addr in
  h ← check_hit (Z.to_nat WAYS) 0 sim set_idx tg;
  match h with
  | Some sim' => Ret sim'
  | None =>
      set ← at_ (cache sim) set_idx;
      '(victim_way, p1) ←
        find_victim fuel (policy sim) set_idx set pc sharers state;
      cache' ← set_at2 (cache sim) set_idx victim_way
                 (fresh_line tg pc sharers state);
      p2 ← update_on_miss p1 set_idx victim_way;
      Ret (mkSim p2 cache' (hits sim) (misses sim + 1)
             (coherence_traffic_saved sim))
  end.

End Simulator.

(** One call of [access] as data, and a trace of them. *)
Record request := mkReq {
  r_addr : Z; r_pc : Z; r_sharers : Z; r_state : MESI_State
}.

Fixpoint run {P} `{ReplacementPolicy P} (fuel : nat) (sim : Simulator P)
    (trace : list request) : outcome (Simulator P) :=
  match trace with
  | [] => Ret sim
  | r :: trace' =>
      sim' ← access fuel sim (r_addr r) (r_pc r) (r_sharers r) (r_state r);
      run fuel sim' trace'
  end.

(** ** print_stats

    What the line printed by [print_stats] shows: the policy name, the hit
    rate as the [double] the expression [100.0 * hits / (hits + misses)]
    evaluates to ([hits + misses] is a sum of two [int]s, converted
    afterwards), and the coherence-win count. *)

Definition double_of_int (z : Z) : float :=
  if z <? 0 then PrimFloat.opp (PrimFloat.of_uint63 (Uint63.of_Z (- z)))
  else PrimFloat.of_uint63 (Uint63.of_Z z).

Record stats_line := mkStats {
  st_name : string;
  st_hit_rate : float;
  st_coherence_wins : Z
}.

Definition print_stats {P} `{ReplacementPolicy P} (sim : Simulator P)
  : stats_line :=
  mkStats (name (policy sim))
    (PrimFloat.div (PrimFloat.mul 100%float (double_of_int (hits sim)))
       (double_of_int (int_add (hits sim) (misses sim))))
    (coherence_traffic_saved sim).

(** ** Closed forms used by the proofs

    What one [train] call does to the weight it addresses. *)
Definition trained_weight (w : Z) (positive : bool) : Z :=
  if positive then (if w <? 127 then w + 1 else w)
  else (if w >? -128 then w - 1 else w).

(** What [bump_below] does to the row of one set, and what an LRU touch of
    [way] does to it. *)
Definition bumped (bound : Z) (row : list Z) : list Z :=
  (λ r, if r <? bound then r + 1 else r) <$> row.

Definition lru_touched (way : nat) (row : list Z) : list Z :=
  match row !! way with
  | Some old_pos => <[way := 0]> (bumped old_pos row)
  | None => row
  end.

(** Whether the victim scan for [target] returns at way [w]. *)
Definition stops (target : Z) (set : list CacheLine) (row : list Z) (w : nat)
  : bool :=
  match set !! w, row !! w with
  | Some line, Some r => negb (valid line) || (r =? target)
  | _, _ => false
  end.

(** The record that [find_victim] appends to a sampled set's ring. *)
Definition eviction_record (victim_line : CacheLine) (min_vote : Z)
  : SamplerEntry :=
  mkSamplerEntry true (tag victim_line) (pc victim_line)
    (sharers victim_line) (state victim_line) min_vote.

(** Whether a stored line is a hit for tag [tg], and the simulator state
    in which [access] returns after a hit on [line]. *)
Definition is_hit (tg : Z) (line : CacheLine) : bool :=
  valid line && (tag line =? tg).

Definition hit_state {P} (sim : Simulator P) (line : CacheLine) (p' : P)
  : Simulator P :=
  mkSim p' (cache sim) (hits sim + 1) (misses sim)
    (if is_MODIFIED (state line) || (sharers line >? 1)
     then coherence_traffic_saved sim + 1
     else coherence_traffic_saved sim).

(** The set an address maps to. *)
Definition set_index (addr : Z) : Z := (addr / 64) mod NUM_SETS.

(** The hit rate that [print_stats] prints, as an expression in the two
    counters. *)
Definition hit_rate_of (hits misses : Z) : float :=
  PrimFloat.div (PrimFloat.mul 100%float (double_of_int hits))
    (double_of_int (int_add hits misses)).

(** ** Invariants of the cache array

    Within a set no two valid lines carry the same tag, and the valid lines
    fill the ways from way 0 upwards (no policy ever skips an invalid way,
    and no line is ever invalidated). *)
Definition tags_unique (set : list CacheLine) : Prop :=
  ∀ i j li lj, set !! i = Some li → set !! j = Some lj →
    valid li = true → valid lj = true → tag li = tag lj → i = j.

Definition valid_prefix (set : list CacheLine) : Prop :=
  ∀ i j li lj, set !! i = Some li → set !! j = Some lj →
    (i ≤ j)%nat → valid lj = true → valid li = true.

Definition cache_inv (c : list (list CacheLine)) : Prop :=
  length c = Z.to_nat NUM_SETS ∧
  ∀ i set, c !! i = Some set →
    length set = Z.to_nat WAYS ∧ tags_unique set ∧ valid_prefix set.

(** ** What the simulator needs from a policy

    [policy_inv p c] relates the policy object to the cache array it
    serves.  Under it, [update_on_hit] returns; [find_victim] returns a way
    of the set, the first invalid one when there is one; and
    [update_on_miss] on that way returns, with the invariant restored for
    the cache that has a valid line installed there. *)
Class PolicyLaws (P : Type) `{ReplacementPolicy P} := {
  policy_inv : P → list (list CacheLine) → Prop;
  policy_hit_ok : ∀ p c (i w : nat) set line,
    cache_inv c → policy_inv p c →
    c !! i = Some set → set !! w = Some line → valid line = true →
    ∃ p', update_on_hit p (Z.of_nat i) (Z.of_nat w) line = Ret p' ∧
          policy_inv p' c;
  policy_miss_ok : ∀ fuel p c (i : nat) set pc sh st,
    cache_inv c → policy_inv p c → c !! i = Some set → (4 ≤ fuel)%nat →
    ∃ (v : nat) p1 p2,
      find_victim fuel p (Z.of_nat i) set pc sh st = Ret (Z.of_nat v, p1) ∧
      (v < Z.to_nat WAYS)%nat ∧
      (∀ a la, set !! a = Some la → valid la = false →
         (v ≤ a)%nat ∧ ∃ lv, set !! v = Some lv ∧ valid lv = false) ∧
      update_on_miss p1 (Z.of_nat i) (Z.of_nat v) = Ret p2 ∧
      ∀ line, valid line = true → policy_inv p2 (<[i := <[v := line]> set]> c)
}.

Definition sim_inv {P} `{PolicyLaws P} (sim : Simulator P) : Prop :=
  cache_inv (cache sim) ∧ policy_inv (policy sim) (cache sim).

(** ** Invariants of the three policies *)

(** LRU: every set has its row of ranks; a valid way ranks below the index
    of every invalid way, and an invalid way still has its initial rank. *)
Definition lru_row_inv (set : list CacheLine) (ranks : list Z) : Prop :=
  length ranks = length set ∧
  (∀ a b la lb ra, set !! a = Some la → valid la = true →
     set !! b = Some lb → valid lb = false →
     ranks !! a = Some ra → ra < Z.of_nat b) ∧
  (∀ b lb, set !! b = Some lb → valid lb = false →
     ranks !! b = Some (Z.of_nat b)).

Definition LRU_inv (p : LRU_Policy) (c : list (list CacheLine)) : Prop :=
  length (lru_stacks p) = Z.to_nat NUM_SETS ∧
  ∀ i set ranks, c !! i = Some set → lru_stacks p !! i = Some ranks →
    lru_row_inv set ranks.

(** SRRIP: every value is a 2-bit value, and while a set still has an
    invalid way none of its valid ways has aged to 3. *)
Definition srrip_row_inv (set : list CacheLine) (row : list Z) : Prop :=
  length row = length set ∧
  (∀ w r, row !! w = Some r → 0 ≤ r ≤ 3) ∧
  (∀ a b la lb ra, set !! a = Some la → valid la = true →
     set !! b = Some lb → valid lb = false →
     row !! a = Some ra → ra ≠ 3).

Definition SRRIP_inv (p : SRRIP_Policy) (c : list (list CacheLine)) : Prop :=
  length (rrpv_bits p) = Z.to_nat NUM_SETS ∧
  ∀ i set row, c !! i = Some set → rrpv_bits p !! i = Some row →
    srrip_row_inv set row.

(** COALESCE: the brain is well formed and the per-set vectors have one
    entry per set; nothing ties the policy object to the cache contents. *)
Definition COALESCE_ok (p : COALESCE_Policy) : Prop :=
  brain_ok (brain p) ∧
  length (samplers p) = Z.to_nat NUM_SETS ∧
  length (is_sampled p) = Z.to_nat NUM_SETS.

Definition COALESCE_inv (p : COALESCE_Policy) (c : list (list CacheLine))
  : Prop :=
  COALESCE_ok p.

(** The LRU policy objects that calls of [update_on_hit] and
    [update_on_miss] with a set and a way of the cache can produce. *)
Inductive LRU_reachable : LRU_Policy → Prop :=
| LRU_reach_init : LRU_reachable LRU_Policy_init
| LRU_reach_hit p set_idx way line p' :
    LRU_reachable p → 0 ≤ set_idx < NUM_SETS → 0 ≤ way < WAYS →
    LRU_update_on_hit p set_idx way line = Ret p' → LRU_reachable p'
| LRU_reach_miss p set_idx way p' :
    LRU_reachable p → 0 ≤ set_idx < NUM_SETS → 0 ≤ way < WAYS →
    LRU_update_on_miss p set_idx way = Ret p' → LRU_reachable p'.

(** Every set's ranks are a permutation of 0 .. WAYS-1. *)
Definition lru_perm (p : LRU_Policy) : Prop :=
  length (lru_stacks p) = Z.to_nat NUM_SETS ∧
  ∀ i ranks, lru_stacks p !! i = Some ranks → ranks ≡ₚ seqZ 0 WAYS.

(** ** Statements about every run

    [always fuel init Q]: whatever trace of accesses is played from [init],
    the run returns and [Q] holds of the simulator it leaves. *)
Definition always {P} `{ReplacementPolicy P} (fuel : nat) (init : Simulator P)
    (Q : Simulator P → Prop) : Prop :=
  ∀ trace, ∃ sim, run fuel init trace = Ret sim ∧ Q sim.

(** Empty-slot priority: on any set of the cache that still has an invalid
    way, [find_victim] returns an invalid way. *)
Definition empty_slot_priority {P} `{ReplacementPolicy P} (fuel : nat)
    (sim : Simulator P) : Prop :=
  ∀ (i : nat) set cpc csh cst,
    cache sim !! i = Some set →
    (∃ a la, set !! a = Some la ∧ valid la = false) →
    ∃ (w : nat) lw p',
      find_victim fuel (policy sim) (Z.of_nat i) set cpc csh cst =
        Ret (Z.of_nat w, p') ∧
      set !! w = Some lw ∧ valid lw = false.


(** No two valid lines of a set of the cache carry the same tag. *)
Definition one_line_per_tag {P} (sim : Simulator P) : Prop :=
  ∀ i set, cache sim !! i = Some set → tags_unique set.

(** After a run of [n] accesses the two counters add up to [n]. *)
Definition counted {P} (n : nat) (sim : Simulator P) : Prop :=
  0 ≤ hits sim ∧ 0 ≤ misses sim ∧ hits sim + misses sim = Z.of_nat n.

(** [evicts_sampled s addr j]: the access to [addr] in state [s] is a miss
    in set [j], that set is sampled and all its ways are valid, so
    [find_victim] goes through its step 3. *)
Definition evicts_sampled (s : Simulator COALESCE_Policy) (addr : Z) (j : nat)
  : bool :=
  match cache s !! j, is_sampled (policy s) !! j with
  | Some set, Some true =>
      (Z.of_nat j =? set_index addr) && forallb valid set
      && negb (existsb (is_hit addr) set)
  | _, _ => false
  end.

(** Whatever access comes next, it returns.  A set's list of records is
    left as it is, unless the access evicts from that sampled set: then
    the list is the old one, nothing removed, followed by exactly one
    record, which holds the tag, pc, sharers and state of the line that
    the access replaces and that line's adjusted vote, the minimum over
    the set. *)
Definition ring_only_grows (fuel : nat) (s : Simulator COALESCE_Policy)
  : Prop :=
  ∀ addr cpc csh cst,
    ∃ s', access fuel s addr cpc csh cst = Ret s' ∧
      ∀ (j : nat) ring, samplers (policy s) !! j = Some ring →
        if evicts_sampled s addr j then
          ∃ set (v : nat) victim_line min_vote,
            cache s !! j = Some set ∧ set !! v = Some victim_line ∧
            cache s' =
              <[j := <[v := fresh_line addr cpc csh cst]> set]> (cache s) ∧
            adjusted_vote (brain (policy s)) victim_line = Ret min_vote ∧
            (∀ y ly, set !! y = Some ly →
               ∃ vote, adjusted_vote (brain (policy s)) ly = Ret vote ∧
                       min_vote ≤ vote) ∧
            samplers (policy s') !! j =
              Some (ring ++
                    [mkSamplerEntry true (tag victim_line) (pc victim_line)
                       (sharers victim_line) (state victim_line) min_vote])
        else samplers (policy s') !! j = Some ring.

(** The size of the list of records of set [set_idx]. *)
Definition sampler_length (p : COALESCE_Policy) (set_idx : Z) : outcome nat :=
  ring ← at_ (samplers p) set_idx; Ret (length ring).

(** ** Concrete inputs for the examples *)

(** A policy that is not in the repository, used to drive the miss path of
    [access] with a victim index outside the set: it always answers
    [WAYS]. *)
Inductive Rogue_Policy := rogue.

#[global] Instance Rogue_ReplacementPolicy : ReplacementPolicy Rogue_Policy := {
  update_on_hit := λ p _ _ _, Ret p;
  update_on_miss := λ p _ _, Ret p;
  find_victim := λ _ p _ _ _ _ _, Ret (WAYS, p);
  name := λ _, "ROGUE"%string
}.

(** A small concrete state for examples: the LRU simulator after the single
    access [access(5, 7, 4, MODIFIED)]. *)
Definition sim_after_one_access : Simulator LRU_Policy :=
  Eval vm_compute in
    match access 4 (Simulator_init LRU_Policy_init) 5 7 4 MODIFIED with
    | Ret s => s
    | _ => Simulator_init LRU_Policy_init
    end.

(** A full set for examples: way 0 holds a Modified line, the others
    Shared or Exclusive ones. *)
Definition example_full_set : list CacheLine :=
  [fresh_line 100 1 0 MODIFIED; fresh_line 101 2 0 SHARED;
   fresh_line 102 3 0 EXCLUSIVE; fresh_line 103 4 0 SHARED;
   fresh_line 104 5 0 SHARED; fresh_line 105 6 0 EXCLUSIVE;
   fresh_line 106 7 0 SHARED; fresh_line 107 8 0 SHARED].

(** Nine accesses with nine different tags, all mapping to set 0, and
    seventeen of them. *)
Definition nine_lines_in_set_0 : list request :=
  (λ a, mkReq a 0xBAD 0 EXCLUSIVE) <$> seqZ 0 9.

Definition seventeen_lines_in_set_0 : list request :=
  (λ a, mkReq a 0xBAD 0 EXCLUSIVE) <$> seqZ 0 17.

(** ** Statements about the three shipped configurations

    [for_each_policy Q]: [Q] holds of the fresh simulator of each of the
    three policies (for COALESCE, over any well-formed brain). *)
Definition for_each_policy
    (Q : ∀ P, ReplacementPolicy P → Simulator P → Prop) : Prop :=
  Q _ _ (Simulator_init LRU_Policy_init) ∧
  Q _ _ (Simulator_init SRRIP_Policy_init) ∧
  ∀ b, brain_ok b → Q _ _ (Simulator_init (COALESCE_Policy_init b)).

(** What a hit and a miss do, with everything that is known about them. *)
Definition hit_step {P} `{ReplacementPolicy P} (sim sim' : Simulator P) (addr : Z) (i : nat)
    (set : list CacheLine) : Prop :=
  ∃ (w : nat) line,
    set !! w = Some line ∧ valid line = true ∧ tag line = addr ∧
    update_on_hit (policy sim) (Z.of_nat i) (Z.of_nat w) line
      = Ret (policy sim') ∧
    sim' = hit_state sim line (policy sim').

Definition miss_step {P} `{ReplacementPolicy P} (fuel : nat)
    (sim sim' : Simulator P)
    (addr cpc csh : Z) (cst : MESI_State) (i : nat) (set : list CacheLine)
  : Prop :=
  (∀ w line, set !! w = Some line → is_hit addr line = false) ∧
  ∃ (v : nat) p1,
    find_victim fuel (policy sim) (Z.of_nat i) set cpc csh cst
      = Ret (Z.of_nat v, p1) ∧
    (v < Z.to_nat WAYS)%nat ∧
    (∀ a la, set !! a = Some la → valid la = false →
       (v ≤ a)%nat ∧ ∃ lv, set !! v = Some lv ∧ valid lv = false) ∧
    update_on_miss p1 (Z.of_nat i) (Z.of_nat v) = Ret (policy sim') ∧
    sim' = mkSim (policy sim')
             (<[i := <[v := fresh_line addr cpc csh cst]> set]> (cache sim))
             (hits sim) (misses sim + 1) (coherence_traffic_saved sim).

(** Every valid line of the cache is the line that some access among
    [done] installed, unchanged since, and sits in the set its tag maps
    to. *)
Definition lines_from {P} (done : list request) (sim : Simulator P) : Prop :=
  ∀ (i w : nat) set line,
    cache sim !! i = Some set → set !! w = Some line → valid line = true →
    set_index (tag line) = Z.of_nat i ∧
    ∃ r, r ∈ done ∧
      line = fresh_line (r_addr r) (r_pc r) (r_sharers r) (r_state r).

(** Every valid line of the cache sits in the set its tag maps to, was
    installed by an access of [done] that missed, and has been in its way,
    unchanged, in every state since. *)
Definition lines_installed {P} `{ReplacementPolicy P} (fuel : nat)
    (init : Simulator P) (done : list request) (sim : Simulator P) : Prop :=
  ∀ (i w : nat) set line,
    cache sim !! i = Some set → set !! w = Some line → valid line = true →
    set_index (tag line) = Z.of_nat i ∧
    ∃ before r later,
      done = before ++ r :: later ∧
      line = fresh_line (r_addr r) (r_pc r) (r_sharers r) (r_state r) ∧
      (∃ s0 s1,
         run fuel init before = Ret s0 ∧
         access fuel s0 (r_addr r) (r_pc r) (r_sharers r) (r_state r)
           = Ret s1 ∧
         hits s1 = hits s0 ∧ misses s1 = misses s0 + 1) ∧
      ∀ l1 l2, later = l1 ++ l2 →
        ∃ s1 set1,
          run fuel init (before ++ r :: l1) = Ret s1 ∧
          cache s1 !! i = Some set1 ∧ set1 !! w = Some line.

(** ** main: the workload and the three runs

    The two phases of one epoch, the ten epochs that [run_test] plays, and
    [run_test] itself: a fresh simulator over the given policy, the whole
    workload, then [print_stats]. *)
Definition scanner_phase (epoch : Z) : list request :=
  (λ i, mkReq (1000 + i + epoch * 100) 0xBAD 0 EXCLUSIVE) <$> seqZ 0 600.

Definition pingpong_phase : list request :=
  (λ k, mkReq (k mod 16) 0xF00D 4 MODIFIED) <$> seqZ 0 400.

Definition workload : list request :=
  mjoin ((λ epoch, scanner_phase epoch ++ pingpong_phase) <$> seqZ 0 10).

Definition run_test {P} `{ReplacementPolicy P} (fuel : nat) (p : P)
  : outcome stats_line :=
  sim ← run fuel (Simulator_init p) workload; Ret (print_stats sim).

(** [main]: the three runs in the order of the source, COALESCE over the
    fresh [shared_brain]. *)
Definition main (fuel : nat) : outcome (stats_line * stats_line * stats_line) :=
  lru ← run_test fuel LRU_Policy_init;
  srrip ← run_test fuel SRRIP_Policy_init;
  coalesce ← run_test fuel (COALESCE_Policy_init PerceptronBrain_init);
  Ret (lru, srrip, coalesce).

(** Which phase a request of the workload belongs to, read off its fields. *)
Definition is_scanner_request (r : request) : bool :=
  (r_pc r =? 0xBAD) && (r_sharers r =? 0) && (15 <=? set_index (r_addr r))
  && (set_index (r_addr r) <=? 39).

Definition is_pingpong_request (r : request) : bool :=
  (r_pc r =? 0xF00D) && (r_sharers r =? 4) && (0 <=? r_addr r)
  && (r_addr r <? 16) && (set_index (r_addr r) =? 0).

(** ** What LRU promises

    [lru_resident_within k addr sim]: [addr] is resident, in a way whose
    rank is at most [k]. *)
Definition lru_resident_within (k : Z) (addr : Z) (sim : Simulator LRU_Policy)
  : Prop :=
  ∃ (w : nat) set ranks line rank,
    cache sim !! Z.to_nat (set_index addr) = Some set ∧
    set !! w = Some line ∧ valid line = true ∧ tag line = addr ∧
    lru_stacks (policy sim) !! Z.to_nat (set_index addr) = Some ranks ∧
    ranks !! w = Some rank ∧ rank ≤ k.

(** The accesses of [later] that fall in the set of [addr]. *)
Definition same_set_accesses (addr : Z) (later : list request) : list request :=
  filter (λ q, set_index (r_addr q) = set_index addr) later.

(** ** Runs that differ in the request metadata only

    Two outcomes fail the same way or return related values. *)
Definition outcome_rel {A B} (R : A → B → Prop) (o1 : outcome A)
    (o2 : outcome B) : Prop :=
  match o1, o2 with
  | Ret a, Ret b => R a b
  | OutOfFuel, OutOfFuel | OutOfBounds, OutOfBounds | Rejected, Rejected => True
  | _, _ => False
  end.

(** Two lines, and two cache arrays, that hold the same tags in the same
    ways, whatever pc, sharers and state are stored with them. *)
Definition same_tag (l1 l2 : CacheLine) : Prop :=
  valid l1 = valid l2 ∧ tag l1 = tag l2.

Definition same_tags (c1 c2 : list (list CacheLine)) : Prop :=
  Forall2 (Forall2 same_tag) c1 c2.

(** Two simulator states that agree on everything but the stored pc,
    sharers and state and the coherence-win counter that is fed by them. *)
Definition same_residency {P} (s1 s2 : Simulator P) : Prop :=
  policy s1 = policy s2 ∧ hits s1 = hits s2 ∧ misses s1 = misses s2 ∧
  same_tags (cache s1) (cache s2).

(** A policy that reads nothing of a line but its valid bit, and nothing
    of the request. *)
Class MetadataBlind (P : Type) `{ReplacementPolicy P} := {
  blind_hit : ∀ (p : P) i w l1 l2,
    update_on_hit p i w l1 = update_on_hit p i w l2;
  blind_victim : ∀ fuel (p : P) i set1 set2 pc1 sh1 st1 pc2 sh2 st2,
    Forall2 same_tag set1 set2 →
    find_victim fuel p i set1 pc1 sh1 st1 =
    find_victim fuel p i set2 pc2 sh2 st2
}.

(** * Properties *)

(** ** Vectors and outcomes *)

(** Reduce the binds whose left side is known, and nothing else. *)
Ltac obind := cbn [mbind outcome_bind mret outcome_ret].
Ltac obind_in H := cbn [mbind outcome_bind mret outcome_ret] in H.

Lemma at_nat {A} (v : list A) (i : nat) :
  at_ v (Z.of_nat i) =
  match v !! i with Some a => Ret a | None => OutOfBounds end.
Proof.
  unfold at_. rewrite Nat2Z.id.
  destruct (Z.leb_spec 0 (Z.of_nat i)); [done | lia].
Qed.

Lemma at_in_range {A} (v : list A) (i : Z) :
  0 ≤ i →
  at_ v i = match v !! Z.to_nat i with Some a => Ret a | None => OutOfBounds end.
Proof. intros Hi. unfold at_. by destruct (Z.leb_spec 0 i); [| lia]. Qed.

Lemma at_Some {A} (v : list A) (i : nat) a :
  v !! i = Some a → at_ v (Z.of_nat i) = Ret a.
Proof. intros Hi. by rewrite at_nat, Hi. Qed.

Lemma at_Ret_inv {A} (v : list A) (i : Z) a :
  at_ v i = Ret a → 0 ≤ i < Z.of_nat (length v) ∧ v !! Z.to_nat i = Some a.
Proof.
  unfold at_. destruct (Z.leb_spec 0 i); [| done].
  destruct (v !! Z.to_nat i) eqn:E; [| done].
  intros [= ->]. apply lookup_lt_Some in E as Hlt. split; [lia | done].
Qed.

Lemma set_at_nat {A} (v : list A) (i : nat) a :
  (i < length v)%nat → set_at v (Z.of_nat i) a = Ret (<[i := a]> v).
Proof.
  intros Hi. unfold set_at. rewrite Nat2Z.id.
  destruct (Z.leb_spec 0 (Z.of_nat i)); [| lia].
  destruct (Z.ltb_spec (Z.of_nat i) (Z.of_nat (length v))); [done | lia].
Qed.

Lemma at2_Some {A} (m : list (list A)) (i j : nat) row a :
  m !! i = Some row → row !! j = Some a →
  at2 m (Z.of_nat i) (Z.of_nat j) = Ret a.
Proof.
  intros Hi Hj. unfold at2. rewrite (at_Some _ _ _ Hi). simpl.
  by apply at_Some.
Qed.

Lemma set_at2_Some {A} (m : list (list A)) (i j : nat) row a :
  m !! i = Some row → (j < length row)%nat →
  set_at2 m (Z.of_nat i) (Z.of_nat j) a = Ret (<[i := <[j := a]> row]> m).
Proof.
  intros Hi Hj. unfold set_at2. rewrite (at_Some _ _ _ Hi). simpl.
  rewrite set_at_nat by done. simpl.
  apply set_at_nat. by eapply lookup_lt_Some.
Qed.

Lemma bind_Ret_inv {A B} (m : outcome A) (k : A → outcome B) b :
  m ≫= k = Ret b → ∃ a, m = Ret a ∧ k a = Ret b.
Proof. destruct m; simpl; try done. eauto. Qed.

(** ** The perceptron brain *)

Lemma get_hash_range pc sh st :
  0 ≤ get_hash pc sh st < PERCEPTRON_TABLE_SIZE.
Proof. unfold get_hash. apply Z.mod_pos_bound. done. Qed.

Lemma PerceptronBrain_init_ok : brain_ok PerceptronBrain_init.
Proof.
  split; unfold PerceptronBrain_init; cbn [weights].
  - apply length_replicate.
  - apply Forall_replicate. lia.
Qed.

Lemma predict_total b pc sh st :
  brain_ok b →
  ∃ w, predict b pc sh st = Ret w ∧ -128 ≤ w ≤ 127.
Proof.
  intros [Hlen Hall]. unfold predict.
  pose proof (get_hash_range pc sh st) as Hr.
  rewrite <- (Z2Nat.id (get_hash pc sh st)) by lia.
  destruct (lookup_lt_is_Some_2 (weights b) (Z.to_nat (get_hash pc sh st)))
    as [w Hw]; [lia |].
  exists w. split; [by apply at_Some |].
  by eapply (proj1 (Forall_lookup _ _) Hall).
Qed.

Lemma trained_weight_range w positive :
  -128 ≤ w ≤ 127 → -128 ≤ trained_weight w positive ≤ 127.
Proof.
  unfold trained_weight. intros Hw.
  destruct positive; [destruct (Z.ltb_spec w 127) | destruct (Z.gtb_spec w (-128))];
    lia.
Qed.

Lemma train_step b pc sh st positive :
  brain_ok b →
  ∃ w, predict b pc sh st = Ret w ∧
    train b pc sh st positive =
      Ret (mkBrain (<[Z.to_nat (get_hash pc sh st) :=
                      trained_weight w positive]> (weights b))).
Proof.
  intros Hok. destruct (predict_total b pc sh st Hok) as (w & Hw & _).
  exists w. split; [done |].
  unfold train. unfold predict in Hw. rewrite Hw. simpl.
  apply at_Ret_inv in Hw as [Hr Hw].
  assert (Hset : ∀ x, set_at (weights b) (get_hash pc sh st) x =
                      Ret (<[Z.to_nat (get_hash pc sh st) := x]> (weights b))).
  { intros x. rewrite <- (Z2Nat.id (get_hash pc sh st)) at 1 by lia.
    apply set_at_nat. lia. }
  unfold trained_weight.
  destruct positive.
  - destruct (w <? 127); [by rewrite Hset |].
    rewrite list_insert_id by done. by destruct b.
  - destruct (w >? -128); [by rewrite Hset |].
    rewrite list_insert_id by done. by destruct b.
Qed.

Lemma train_ok b pc sh st positive :
  brain_ok b → ∃ b', train b pc sh st positive = Ret b' ∧ brain_ok b'.
Proof.
  intros Hok. destruct (train_step b pc sh st positive Hok) as (w & Hw & ->).
  eexists. split; [done |].
  destruct (predict_total b pc sh st Hok) as (w' & Hw' & Hr).
  assert (w' = w) as -> by congruence.
  destruct Hok as [Hlen Hall]. split; simpl.
  - by rewrite length_insert.
  - apply Forall_insert; [done |]. by apply trained_weight_range.
Qed.

(** One [train] call on a well-formed brain: it changes the weight it
    addresses, and nothing else, to the clamped neighbour of the old
    weight. *)
Lemma train_clamps b pc sh st positive :
  brain_ok b →
  ∃ w b',
    predict b pc sh st = Ret w ∧ -128 ≤ w ≤ 127 ∧
    train b pc sh st positive = Ret b' ∧ brain_ok b' ∧
    weights b' =
      <[Z.to_nat (get_hash pc sh st) :=
          if positive then Z.min 127 (w + 1) else Z.max (-128) (w - 1)]>
        (weights b) ∧
    predict b' pc sh st =
      Ret (if positive then Z.min 127 (w + 1) else Z.max (-128) (w - 1)).
Proof.
  intros Hok.
  destruct (train_step b pc sh st positive Hok) as (w & Hw & Htrain).
  destruct (train_ok b pc sh st positive Hok) as (b' & Htrain' & Hok').
  destruct (predict_total b pc sh st Hok) as (w' & Hw' & Hr).
  assert (w' = w) as -> by congruence.
  rewrite Htrain in Htrain'. injection Htrain' as <-.
  assert (Heq : trained_weight w positive =
                if positive then Z.min 127 (w + 1) else Z.max (-128) (w - 1)).
  { unfold trained_weight.
    destruct positive;
      [destruct (Z.ltb_spec w 127) | destruct (Z.gtb_spec w (-128))]; lia. }
  rewrite Heq in Htrain, Hok'. cbn [weights] in *.
  eexists w, _. split_and!; [done | lia | lia | exact Htrain | done | done |].
  unfold predict. cbn [weights].
  pose proof (get_hash_range pc sh st) as Hh.
  rewrite at_in_range, list_lookup_insert_eq by (destruct Hok; lia).
  done.
Qed.

Lemma train_repeated b pc sh st positive (n : nat) : ∀ w,
  brain_ok b → predict b pc sh st = Ret w →
  ∃ b', train_all b (replicate n (mkTrain pc sh st positive)) = Ret b' ∧
        brain_ok b' ∧
        predict b' pc sh st =
          Ret (if positive then Z.min 127 (w + Z.of_nat n)
               else Z.max (-128) (w - Z.of_nat n)).
Proof.
  revert b. induction n as [| n IH]; intros b w Hok Hw.
  - exists b. split_and!; [done | done |].
    destruct (predict_total b pc sh st Hok) as (w' & Hw' & Hr).
    assert (w' = w) as -> by congruence.
    rewrite Hw. f_equal. destruct positive; lia.
  - destruct (train_clamps b pc sh st positive Hok)
      as (w' & b1 & Hw' & Hr & Htrain & Hok1 & _ & Hw1).
    assert (w' = w) as -> by congruence.
    destruct (IH b1 _ Hok1 Hw1) as (b' & Hrun & Hok' & Hfin).
    exists b'. split_and!; [| done |].
    + cbn [replicate train_all tc_pc tc_sharers tc_state tc_positive].
      rewrite Htrain. exact Hrun.
    + rewrite Hfin. f_equal. destruct positive; lia.
Qed.

(** C5. The table starts as 4096 zeros.  Every sequence of [train] calls
    from there runs to its end, and the brain it leaves has its 4096
    weights, all in [-128, 127].  Saturation clamps and never wraps: on
    that brain one more [train] on any signature changes the weight it
    addresses, and only that one, to [min 127 (w + 1)] (reward) or
    [max (-128) (w - 1)] (penalty), so a reward at 127 and a penalty at
    -128 leave the table as it is; and [n] more rewards (penalties) of one
    signature leave its weight at [min 127 (w + n)] ([max (-128) (w - n)]),
    however large [n] is. *)
Theorem perceptron_weights_saturate (calls : list train_call) :
  weights PerceptronBrain_init = replicate (Z.to_nat PERCEPTRON_TABLE_SIZE) 0 ∧
  ∃ b, train_all PerceptronBrain_init calls = Ret b ∧
    length (weights b) = Z.to_nat PERCEPTRON_TABLE_SIZE ∧
    (∀ i w, weights b !! i = Some w → -128 ≤ w ≤ 127) ∧
    (∀ tpc tsh tst positive, ∃ w b',
       predict b tpc tsh tst = Ret w ∧
       train b tpc tsh tst positive = Ret b' ∧
       weights b' =
         <[Z.to_nat (get_hash tpc tsh tst) :=
             if positive then Z.min 127 (w + 1) else Z.max (-128) (w - 1)]>
           (weights b)) ∧
    (∀ tpc tsh tst positive (n : nat), ∃ w b',
       predict b tpc tsh tst = Ret w ∧
       train_all b (replicate n (mkTrain tpc tsh tst positive)) = Ret b' ∧
       predict b' tpc tsh tst =
         Ret (if positive then Z.min 127 (w + Z.of_nat n)
              else Z.max (-128) (w - Z.of_nat n))).
Proof.
  split; [done |].
  assert (Hgen : ∀ b0, brain_ok b0 →
            ∃ b, train_all b0 calls = Ret b ∧ brain_ok b).
  { induction calls as [| c calls IH]; intros b0 Hok; simpl.
    - eauto.
    - destruct (train_ok b0 (tc_pc c) (tc_sharers c) (tc_state c)
                  (tc_positive c) Hok) as (b1 & -> & Hok1).
      simpl. by apply IH. }
  destruct (Hgen _ PerceptronBrain_init_ok) as (b & Hrun & Hok).
  pose proof Hok as [Hlen Hall].
  exists b. split_and!; [done | done | | |].
  - intros i w Hw. by eapply (proj1 (Forall_lookup _ _) Hall).
  - intros tpc tsh tst positive.
    destruct (train_clamps b tpc tsh tst positive Hok)
      as (w & b' & Hw & _ & Htrain & _ & Hws & _).
    by exists w, b'.
  - intros tpc tsh tst positive n.
    destruct (predict_total b tpc tsh tst Hok) as (w & Hw & _).
    destruct (train_repeated b tpc tsh tst positive n w Hok Hw)
      as (b' & Hall' & _ & Hfin).
    by exists w, b'.
Qed.

(** ** print_stats *)

(** C1, as the claim states it, fails: on a simulator that has seen no
    access (shown for each of the three policies) the hit rate that
    [print_stats] reports is the unguarded quotient of its expression at
    hits = misses = 0, that is 0.0 / 0.0, a NaN and no sentinel. *)
Lemma print_stats_no_access_nan :
  hits (Simulator_init LRU_Policy_init)
    + misses (Simulator_init LRU_Policy_init) = 0 ∧
  st_hit_rate (print_stats (Simulator_init LRU_Policy_init))
    = hit_rate_of 0 0 ∧
  PrimFloat.is_nan
    (st_hit_rate (print_stats (Simulator_init LRU_Policy_init))) = true ∧
  PrimFloat.is_nan
    (st_hit_rate (print_stats (Simulator_init SRRIP_Policy_init))) = true ∧
  PrimFloat.is_nan
    (st_hit_rate
       (print_stats
          (Simulator_init (COALESCE_Policy_init PerceptronBrain_init)))) = true.
Proof. split_and!; vm_compute; reflexivity. Qed.

(** ** The shared aging loop *)

Lemma bump_below_from bound n : ∀ k (v : list (list Z)) i row,
  v !! i = Some row → length row = (k + n)%nat →
  bump_below bound n (Z.of_nat k) v (Z.of_nat i) =
    Ret (<[i := take k row ++ bumped bound (drop k row)]> v).
Proof.
  induction n as [| n IH]; intros k v i row Hi Hlen; simpl.
  - rewrite drop_ge, take_ge, app_nil_r by lia.
    by rewrite list_insert_id.
  - destruct (lookup_lt_is_Some_2 row k) as [r Hr]; [lia |].
    rewrite (at2_Some _ _ _ _ _ Hi Hr). simpl.
    assert (Hstep :
      (if r <? bound then set_at2 v (Z.of_nat i) (Z.of_nat k) (r + 1)
       else Ret v) =
      Ret (<[i := <[k := if r <? bound then r + 1 else r]> row]> v)).
    { destruct (r <? bound).
      - apply set_at2_Some; [done | lia].
      - by rewrite (list_insert_id row), list_insert_id. }
    rewrite Hstep. simpl.
    replace (Z.of_nat k + 1) with (Z.of_nat (S k)) by lia.
    erewrite IH; cycle 1.
    + apply list_lookup_insert_eq. by eapply lookup_lt_Some.
    + rewrite length_insert. lia.
    + rewrite list_insert_insert_eq. do 2 f_equal.
      rewrite (take_S_r _ _ (if r <? bound then r + 1 else r))
        by (apply list_lookup_insert_eq; lia).
      rewrite take_insert_ge, drop_insert_lt by lia.
      rewrite (drop_S row r k) by done.
      unfold bumped. simpl. by rewrite <- app_assoc.
Qed.

Lemma bump_below_row bound (v : list (list Z)) i row :
  v !! i = Some row →
  bump_below bound (length row) 0 v (Z.of_nat i) =
    Ret (<[i := bumped bound row]> v).
Proof.
  intros Hi.
  exact (bump_below_from bound (length row) 0%nat v i row Hi eq_refl).
Qed.

Lemma bumped_length bound row : length (bumped bound row) = length row.
Proof. unfold bumped. by rewrite length_fmap. Qed.

Lemma bumped_lookup bound row i :
  bumped bound row !! i = (λ r, if r <? bound then r + 1 else r) <$> row !! i.
Proof. unfold bumped. by rewrite list_lookup_fmap. Qed.

(** ** LRU: the recency ranks *)

Lemma lru_touched_length way row : length (lru_touched way row) = length row.
Proof.
  unfold lru_touched. destruct (row !! way); [| done].
  by rewrite length_insert, bumped_length.
Qed.

Lemma lru_touched_lookup way row old_pos k :
  row !! way = Some old_pos →
  lru_touched way row !! k =
    if decide (k = way) then Some 0
    else (λ r, if r <? old_pos then r + 1 else r) <$> row !! k.
Proof.
  intros Hw. unfold lru_touched. rewrite Hw.
  destruct (decide (k = way)) as [-> | Hne].
  - apply list_lookup_insert_eq. rewrite bumped_length.
    by eapply lookup_lt_Some.
  - rewrite list_lookup_insert_ne by done. apply bumped_lookup.
Qed.

Lemma perm_seqZ_facts (row : list Z) n :
  row ≡ₚ seqZ 0 n →
  NoDup row ∧ length row = Z.to_nat n ∧ ∀ i r, row !! i = Some r → 0 ≤ r < n.
Proof.
  intros Hp. split_and!.
  - rewrite Hp. apply NoDup_seqZ.
  - by rewrite Hp, length_seqZ.
  - intros i r Hr. apply list_elem_of_lookup_2 in Hr.
    rewrite Hp in Hr. apply elem_of_seqZ in Hr. lia.
Qed.

Lemma perm_seqZ_intro (row : list Z) n :
  NoDup row → length row = Z.to_nat n →
  (∀ i r, row !! i = Some r → 0 ≤ r < n) →
  row ≡ₚ seqZ 0 n.
Proof.
  intros Hnd Hlen Hr.
  apply submseteq_length_Permutation.
  - apply NoDup_submseteq; [done |].
    intros x [i Hx]%list_elem_of_lookup_1. apply elem_of_seqZ.
    specialize (Hr _ _ Hx). lia.
  - rewrite length_seqZ. lia.
Qed.

Lemma lru_touched_perm n way (row : list Z) :
  row ≡ₚ seqZ 0 n → (way < length row)%nat →
  lru_touched way row ≡ₚ seqZ 0 n.
Proof.
  intros (Hnd & Hlen & Hr)%perm_seqZ_facts Hway.
  destruct (lookup_lt_is_Some_2 row way Hway) as [old_pos Hold].
  pose proof (Hr _ _ Hold) as Hold_r.
  pose proof (proj1 (NoDup_alt row) Hnd) as Hinj.
  apply perm_seqZ_intro.
  - apply NoDup_alt. intros i j x.
    rewrite !(lru_touched_lookup _ _ _ _ Hold).
    destruct (decide (i = way)) as [-> | Hi], (decide (j = way)) as [-> | Hj];
      try done.
    + intros [= <-]. destruct (row !! j) as [r |] eqn:Hj'; [| done].
      simpl. pose proof (Hr _ _ Hj') as Hrj.
      destruct (Z.ltb_spec r old_pos); intros [= Hx]; [lia |].
      assert (r = old_pos) as -> by lia. by eapply Hinj.
    + destruct (row !! i) as [r |] eqn:Hi'; [| done].
      simpl. pose proof (Hr _ _ Hi') as Hri.
      destruct (Z.ltb_spec r old_pos); intros [= <-] [= Hx]; [lia |].
      assert (r = old_pos) as -> by lia. by eapply Hinj.
    + destruct (row !! i) as [r1 |] eqn:Hi'; [| done].
      destruct (row !! j) as [r2 |] eqn:Hj'; [| done].
      simpl. intros [= <-] [= Hx].
      destruct (Z.ltb_spec r1 old_pos), (Z.ltb_spec r2 old_pos).
      * assert (r1 = r2) as -> by lia. by eapply Hinj.
      * assert (r2 = old_pos) as -> by lia.
        exfalso. apply Hj. by eapply Hinj.
      * assert (r1 = old_pos) as -> by lia.
        exfalso. apply Hi. by eapply Hinj.
      * subst. by eapply Hinj.
  - by rewrite lru_touched_length.
  - intros i r. rewrite (lru_touched_lookup _ _ _ _ Hold).
    destruct (decide (i = way)); [intros [= <-]; lia |].
    destruct (row !! i) as [r1 |] eqn:Hi'; [| done].
    simpl. pose proof (Hr _ _ Hi').
    destruct (Z.ltb_spec r1 old_pos); intros [= <-]; lia.
Qed.

Lemma LRU_update_on_hit_touch p (i j : nat) row line :
  lru_stacks p !! i = Some row → length row = Z.to_nat WAYS →
  (j < length row)%nat →
  LRU_update_on_hit p (Z.of_nat i) (Z.of_nat j) line =
    Ret (mkLRU (<[i := lru_touched j row]> (lru_stacks p))).
Proof.
  intros Hi Hlen Hj.
  destruct (lookup_lt_is_Some_2 row j Hj) as [old_pos Hold].
  unfold LRU_update_on_hit, lru_shift.
  rewrite (at2_Some _ _ _ _ _ Hi Hold). obind.
  rewrite <- Hlen, (bump_below_row _ _ _ _ Hi). obind.
  erewrite set_at2_Some; cycle 1.
  - apply list_lookup_insert_eq. by eapply lookup_lt_Some.
  - by rewrite bumped_length.
  - obind. rewrite list_insert_insert_eq.
    unfold lru_touched. by rewrite Hold.
Qed.

Lemma LRU_update_on_miss_touch p (i j : nat) row :
  lru_stacks p !! i = Some row → length row = Z.to_nat WAYS →
  (j < length row)%nat →
  LRU_update_on_miss p (Z.of_nat i) (Z.of_nat j) =
    Ret (mkLRU (<[i := lru_touched j row]> (lru_stacks p))).
Proof.
  intros Hi Hlen Hj.
  exact (LRU_update_on_hit_touch p i j row CacheLine_default Hi Hlen Hj).
Qed.

(** ** The shared victim scan *)

Lemma scan_for_from target (v : list (list Z)) (i : nat) row set n : ∀ k,
  v !! i = Some row →
  (k + n ≤ length row)%nat → (k + n ≤ length set)%nat →
  ∃ res, scan_for target n (Z.of_nat k) v (Z.of_nat i) set = Ret res ∧
    match res with
    | Some w => ∃ x : nat, w = Z.of_nat x ∧ (k ≤ x < k + n)%nat ∧
        stops target set row x = true ∧
        ∀ y, (k ≤ y < x)%nat → stops target set row y = false
    | None => ∀ y, (k ≤ y < k + n)%nat → stops target set row y = false
    end.
Proof.
  induction n as [| n IH]; intros k Hi Hrow Hset; simpl.
  - exists None. split; [done | intros; lia].
  - destruct (lookup_lt_is_Some_2 set k) as [line Hline]; [lia |].
    destruct (lookup_lt_is_Some_2 row k) as [r Hr]; [lia |].
    rewrite (at_Some _ _ _ Hline). obind.
    assert (Hstop : stops target set row k = negb (valid line) || (r =? target))
      by (unfold stops; by rewrite Hline, Hr).
    destruct (valid line) eqn:Hv; simpl.
    + rewrite (at2_Some _ _ _ _ _ Hi Hr). obind.
      destruct (r =? target) eqn:Ht.
      * exists (Some (Z.of_nat k)). split; [done |].
        exists k. split_and!; [done | lia | lia | done | intros; lia].
      * replace (Z.of_nat k + 1) with (Z.of_nat (S k)) by lia.
        destruct (IH (S k) Hi) as (res & -> & Hres); [lia | lia |].
        exists res. split; [done |].
        destruct res as [w |].
        -- destruct Hres as (x & -> & Hx & Hsx & Hbefore).
           exists x. split_and!; [done | lia | lia | done |].
           intros y Hy. destruct (decide (y = k)) as [-> | ?]; [done |].
           apply Hbefore. lia.
        -- intros y Hy. destruct (decide (y = k)) as [-> | ?]; [done |].
           apply Hres. lia.
    + exists (Some (Z.of_nat k)). split; [done |].
      exists k. split_and!; [done | lia | lia | done | intros; lia].
Qed.

Lemma scan_for_row target (v : list (list Z)) (i : nat) row set n :
  v !! i = Some row → (n ≤ length row)%nat → (n ≤ length set)%nat →
  ∃ res, scan_for target n 0 v (Z.of_nat i) set = Ret res ∧
    match res with
    | Some w => ∃ x : nat, w = Z.of_nat x ∧ (x < n)%nat ∧
        stops target set row x = true ∧
        ∀ y, (y < x)%nat → stops target set row y = false
    | None => ∀ y, (y < n)%nat → stops target set row y = false
    end.
Proof.
  intros Hi Hrow Hset.
  destruct (scan_for_from target v i row set n 0 Hi) as (res & Hrun & Hres);
    [lia | lia |].
  exists res. split; [done |]. destruct res as [w |].
  - destruct Hres as (x & -> & Hx & Hsx & Hbefore).
    exists x. split_and!; [done | lia | done | intros; apply Hbefore; lia].
  - intros y Hy. apply Hres. lia.
Qed.

Lemma stops_invalid target set row (w : nat) line :
  set !! w = Some line → valid line = false → (w < length row)%nat →
  stops target set row w = true.
Proof.
  intros Hl Hv Hw. unfold stops. rewrite Hl.
  destruct (lookup_lt_is_Some_2 row w Hw) as [r ->]. by rewrite Hv.
Qed.

Lemma stops_inv target set row (w : nat) :
  stops target set row w = true →
  ∃ line r, set !! w = Some line ∧ row !! w = Some r ∧
            (valid line = false ∨ (valid line = true ∧ r = target)).
Proof.
  unfold stops. destruct (set !! w) as [line |]; [| done].
  destruct (row !! w) as [r |]; [| done].
  intros Hs. exists line, r. split_and!; [done | done |].
  destruct (valid line); [right | by left].
  split; [done |]. simpl in Hs. lia.
Qed.

(** ** SRRIP: the aging loop ends *)

Lemma bumped_3_facts row :
  (∀ w r, row !! w = Some r → r ≤ 3) →
  ∀ w r', bumped 3 row !! w = Some r' →
    ∃ r, row !! w = Some r ∧ r ≤ r' ≤ 3 ∧ (r < 3 → r' = r + 1).
Proof.
  intros Hle w r'. rewrite bumped_lookup.
  destruct (row !! w) as [r |] eqn:Hr; [| done].
  simpl. intros [= <-]. exists r. specialize (Hle _ _ Hr).
  destruct (Z.ltb_spec r 3); split_and!; try done; lia.
Qed.

Lemma srrip_loop_spec (i : nat) set n : ∀ fuel bits row,
  (n < fuel)%nat →
  bits !! i = Some row → length row = length set →
  (∀ w r, row !! w = Some r → r ≤ 3) →
  (∃ w r, row !! w = Some r ∧ 3 - Z.of_nat n ≤ r) →
  ∃ (v : nat) row',
    srrip_loop (length set) fuel bits (Z.of_nat i) set =
      Ret (Z.of_nat v, <[i := row']> bits) ∧
    (v < length set)%nat ∧ length row' = length set ∧
    stops 3 set row' v = true ∧
    (∀ y, (y < v)%nat → stops 3 set row' y = false) ∧
    (∀ w r', row' !! w = Some r' → ∃ r, row !! w = Some r ∧ r ≤ r' ≤ 3) ∧
    (∀ y, stops 3 set row y = true → row' = row).
Proof.
  induction n as [| n IH]; intros fuel bits row Hfuel Hi Hrow Hle Hbig;
    (destruct fuel as [| fuel]; [lia |]); simpl; unfold srrip_scan.
  - destruct (scan_for_row 3 bits i row set (length set) Hi)
      as (res & -> & Hres);
      [lia | lia |]. obind.
    destruct res as [w |].
    + destruct Hres as (x & -> & Hx & Hsx & Hbefore).
      exists x, row. rewrite list_insert_id by done.
      split_and!; try done.
      intros w r' Hw. exists r'. specialize (Hle _ _ Hw). split; [done | lia].
    + exfalso. destruct Hbig as (w & r & Hw & Hr).
      specialize (Hle _ _ Hw). assert (r = 3) as -> by lia.
      apply lookup_lt_Some in Hw as Hlt.
      specialize (Hres w ltac:(lia)). unfold stops in Hres.
      rewrite Hw in Hres.
      destruct (lookup_lt_is_Some_2 set w) as [line Hline]; [lia |].
      rewrite Hline in Hres. simpl in Hres.
      by rewrite orb_true_r in Hres.
  - destruct (scan_for_row 3 bits i row set (length set) Hi)
      as (res & -> & Hres);
      [lia | lia |]. obind.
    destruct res as [w |].
    + destruct Hres as (x & -> & Hx & Hsx & Hbefore).
      exists x, row. rewrite list_insert_id by done.
      split_and!; try done.
      intros w r' Hw. exists r'. specialize (Hle _ _ Hw). split; [done | lia].
    + unfold srrip_age. rewrite <- Hrow.
      rewrite (bump_below_row 3 bits i row Hi). obind. rewrite Hrow.
      pose proof (bumped_3_facts row Hle) as Hb.
      destruct (IH fuel (<[i := bumped 3 row]> bits) (bumped 3 row))
        as (v & row' & Hrun & Hv & Hlen & Hstop & Hfirst & Hmono & _).
      * lia.
      * apply list_lookup_insert_eq. by eapply lookup_lt_Some.
      * by rewrite bumped_length.
      * intros w r' Hw. destruct (Hb _ _ Hw) as (r & _ & ? & _). lia.
      * destruct Hbig as (w & r & Hw & Hr).
        exists w. destruct (Z.ltb_spec r 3).
        -- exists (r + 1). split; [| lia].
           rewrite bumped_lookup, Hw. simpl.
           by destruct (Z.ltb_spec r 3); [| lia].
        -- exists r. split; [| lia].
           rewrite bumped_lookup, Hw. simpl.
           by destruct (Z.ltb_spec r 3); [lia |].
      * exists v, row'. rewrite Hrun, list_insert_insert_eq.
        split_and!; try done.
        -- intros w r' Hw. destruct (Hmono _ _ Hw) as (r1 & Hr1 & ?).
           destruct (Hb _ _ Hr1) as (r & Hr & ? & _). exists r.
           split; [done | lia].
        -- intros y Hy. exfalso.
           pose proof Hy as (line & r & Hl & _)%stops_inv.
           apply lookup_lt_Some in Hl.
           specialize (Hres y ltac:(lia)). congruence.
Qed.

(** C9. For a set of [ways >= 1] ways whose re-reference values are at most
    3 and have minimum [m], the victim search of SRRIP
    ([SRRIP_find_victim] is [srrip_loop] at [ways = WAYS]) returns with
    fuel [(3 - m) + 1], that is after at most [3 - m] aging rounds; the way
    it returns is invalid or has reached value 3. *)
Theorem srrip_find_victim_terminates (ways : nat) (bits : list (list Z))
    (set_idx : nat) (set : list CacheLine) (row : list Z) (m : Z) :
  (1 ≤ ways)%nat → length set = ways →
  bits !! set_idx = Some row → length row = ways →
  (∀ r, r ∈ row → r ≤ 3) →
  m ∈ row → (∀ r, r ∈ row → m ≤ r) →
  ∃ (w : nat) bits' row' line r,
    srrip_loop ways (S (Z.to_nat (3 - m))) bits (Z.of_nat set_idx) set =
      Ret (Z.of_nat w, bits') ∧
    (w < ways)%nat ∧
    bits' !! set_idx = Some row' ∧
    set !! w = Some line ∧ row' !! w = Some r ∧
    (valid line = false ∨ r = 3).
Proof.
  intros Hways Hset Hbits Hrow Hle Hm Hmin. subst ways.
  destruct (srrip_loop_spec set_idx set (Z.to_nat (3 - m))
              (S (Z.to_nat (3 - m))) bits row)
    as (v & row' & Hrun & Hv & Hlen & Hstop & _); try done.
  - lia.
  - intros w r Hr. apply Hle. by eapply list_elem_of_lookup_2.
  - apply list_elem_of_lookup_1 in Hm as [w Hw]. exists w, m.
    split; [done |]. specialize (Hle m ltac:(by eapply list_elem_of_lookup_2)).
    lia.
  - apply stops_inv in Hstop as (line & r & Hl & Hr & Hcase).
    exists v, (<[set_idx := row']> bits), row', line, r.
    split_and!; try done.
    + apply list_lookup_insert_eq. by eapply lookup_lt_Some.
    + destruct Hcase as [? | [_ ?]]; [by left | by right].
Qed.

Lemma srrip_find_victim_terminates_witness :
  ∃ (w : nat) bits' row' line r,
    srrip_loop 2 (S (Z.to_nat (3 - 1))) [[1; 2]] (Z.of_nat 0)
      [fresh_line 10 0 0 SHARED; fresh_line 11 0 0 SHARED] =
      Ret (Z.of_nat w, bits') ∧
    (w < 2)%nat ∧
    bits' !! 0%nat = Some row' ∧
    [fresh_line 10 0 0 SHARED; fresh_line 11 0 0 SHARED] !! w = Some line ∧
    row' !! w = Some r ∧
    (valid line = false ∨ r = 3).
Proof.
  apply (srrip_find_victim_terminates 2 [[1; 2]] 0
           [fresh_line 10 0 0 SHARED; fresh_line 11 0 0 SHARED] [1; 2] 1).
  - lia.
  - reflexivity.
  - reflexivity.
  - reflexivity.
  - intros r Hr. repeat (apply elem_of_cons in Hr as [-> | Hr]; [lia |]).
    by apply elem_of_nil in Hr.
  - apply elem_of_cons. by left.
  - intros r Hr. repeat (apply elem_of_cons in Hr as [-> | Hr]; [lia |]).
    by apply elem_of_nil in Hr.
Defined.

(** ** LRU keeps its invariant *)

Lemma lru_touch_row_inv set ranks (v : nat) line :
  lru_row_inv set ranks → (v < length set)%nat → valid line = true →
  (∀ a la, set !! a = Some la → valid la = false → (v ≤ a)%nat) →
  lru_row_inv (<[v := line]> set) (lru_touched v ranks).
Proof.
  intros (Hlen & Hlow & Hkeep) Hv Hline Hfirst.
  destruct (lookup_lt_is_Some_2 ranks v) as [old_pos Hold]; [lia |].
  destruct (lookup_lt_is_Some_2 set v Hv) as [lv Hlv].
  assert (Hgap : ∀ b lb, set !! b = Some lb → valid lb = false → b ≠ v →
                   old_pos < Z.of_nat b).
  { intros b lb Hb Hinv Hne. destruct (valid lv) eqn:E.
    - by eapply (Hlow v b).
    - specialize (Hkeep _ _ Hlv E). specialize (Hfirst _ _ Hb Hinv).
      assert (old_pos = Z.of_nat v) by congruence. lia. }
  split_and!.
  - by rewrite lru_touched_length, length_insert.
  - intros a b la lb ra Ha Hva Hb Hvb.
    rewrite (lru_touched_lookup _ _ _ _ Hold).
    apply list_lookup_insert_Some in Hb as [(-> & -> & _) | [Hbv Hb]];
      [congruence |].
    specialize (Hgap _ _ Hb Hvb ltac:(done)).
    specialize (Hfirst _ _ Hb Hvb).
    destruct (decide (a = v)) as [-> | Hav]; [intros [= <-]; lia |].
    apply list_lookup_insert_Some in Ha as [(-> & _) | [_ Ha]]; [done |].
    destruct (ranks !! a) as [r |] eqn:Hr; [| done]. simpl.
    specialize (Hlow _ _ _ _ _ Ha Hva Hb Hvb Hr).
    destruct (Z.ltb_spec r old_pos); intros [= <-]; lia.
  - intros b lb Hb Hvb.
    apply list_lookup_insert_Some in Hb as [(-> & -> & _) | [Hbv Hb]];
      [congruence |].
    rewrite (lru_touched_lookup _ _ _ _ Hold).
    destruct (decide (b = v)); [done |].
    rewrite (Hkeep _ _ Hb Hvb). simpl.
    specialize (Hgap _ _ Hb Hvb ltac:(done)).
    by destruct (Z.ltb_spec (Z.of_nat b) old_pos); [lia |].
Qed.

Lemma LRU_touch_inv p c (i v : nat) set line line0 :
  cache_inv c → LRU_inv p c → c !! i = Some set →
  (v < Z.to_nat WAYS)%nat → valid line = true →
  (∀ a la, set !! a = Some la → valid la = false → (v ≤ a)%nat) →
  ∃ p', LRU_update_on_hit p (Z.of_nat i) (Z.of_nat v) line0 = Ret p' ∧
        LRU_update_on_miss p (Z.of_nat i) (Z.of_nat v) = Ret p' ∧
        LRU_inv p' (<[i := <[v := line]> set]> c).
Proof.
  intros [Hclen Hc] [Hplen Hp] Hset Hv Hline Hfirst.
  destruct (Hc _ _ Hset) as (Hslen & _ & _).
  destruct (lookup_lt_is_Some_2 (lru_stacks p) i) as [ranks Hranks].
  { apply lookup_lt_Some in Hset. lia. }
  pose proof (Hp _ _ _ Hset Hranks) as Hrow.
  pose proof Hrow as (Hrlen & _).
  exists (mkLRU (<[i := lru_touched v ranks]> (lru_stacks p))).
  split_and!.
  - apply LRU_update_on_hit_touch; [done | lia | lia].
  - apply LRU_update_on_miss_touch; [done | lia | lia].
  - split; cbn [lru_stacks].
    + by rewrite length_insert.
    + intros i' set' ranks' Hset' Hranks'.
      destruct (decide (i' = i)) as [-> | Hne].
      * rewrite list_lookup_insert_eq in Hset' by (by eapply lookup_lt_Some).
        rewrite list_lookup_insert_eq in Hranks' by (by eapply lookup_lt_Some).
        injection Hset' as <-. injection Hranks' as <-.
        apply lru_touch_row_inv; [done | lia | done | done].
      * rewrite list_lookup_insert_ne in Hset' by done.
        rewrite list_lookup_insert_ne in Hranks' by done.
        by eapply Hp.
Qed.

Lemma valid_prefix_first set (w : nat) line :
  valid_prefix set → set !! w = Some line → valid line = true →
  ∀ a la, set !! a = Some la → valid la = false → (w ≤ a)%nat.
Proof.
  intros Hpre Hw Hv a la Ha Hinv.
  destruct (decide (w ≤ a)%nat); [done |].
  assert (valid la = true); [| congruence].
  eapply (Hpre a w); [done | done | lia | done].
Qed.

Lemma LRU_find_victim_first p c (i : nat) set pc sh st :
  cache_inv c → LRU_inv p c → c !! i = Some set →
  ∃ v : nat,
    LRU_find_victim p (Z.of_nat i) set pc sh st = Ret (Z.of_nat v, p) ∧
    (v < Z.to_nat WAYS)%nat ∧
    ∀ a la, set !! a = Some la → valid la = false →
      (v ≤ a)%nat ∧ ∃ lv, set !! v = Some lv ∧ valid lv = false.
Proof.
  intros [Hclen Hc] [Hplen Hp] Hset.
  destruct (Hc _ _ Hset) as (Hslen & _ & _).
  destruct (lookup_lt_is_Some_2 (lru_stacks p) i) as [ranks Hranks].
  { apply lookup_lt_Some in Hset. lia. }
  destruct (Hp _ _ _ Hset Hranks) as (Hrlen & Hlow & _).
  unfold LRU_find_victim, lru_scan.
  destruct (scan_for_row (WAYS - 1) (lru_stacks p) i ranks set
              (Z.to_nat WAYS) Hranks) as (res & -> & Hres); [lia | lia |].
  obind. destruct res as [w |].
  - destruct Hres as (x & -> & Hx & Hstop & Hbefore).
    exists x. split_and!; [done | done |].
    intros a la Ha Hinv.
    assert (Hsa : stops (WAYS - 1) set ranks a = true).
    { eapply stops_invalid; [done | done |].
      apply lookup_lt_Some in Ha. lia. }
    assert (x ≤ a)%nat.
    { destruct (decide (x ≤ a)%nat); [done |].
      rewrite Hbefore in Hsa by lia. done. }
    split; [done |].
    apply stops_inv in Hstop as (lx & r & Hlx & Hr & [Hcase | [Hvx ->]]).
    + by exists lx.
    + exfalso. specialize (Hlow _ _ _ _ _ Hlx Hvx Ha Hinv Hr).
      apply lookup_lt_Some in Ha. lia.
  - exists 0%nat. split_and!; [done | unfold WAYS; lia |].
    intros a la Ha Hinv. exfalso.
    assert (Hsa : stops (WAYS - 1) set ranks a = true).
    { eapply stops_invalid; [done | done |].
      apply lookup_lt_Some in Ha. lia. }
    rewrite Hres in Hsa; [done |]. apply lookup_lt_Some in Ha. lia.
Qed.

Lemma LRU_hit_ok p c (i w : nat) set line :
  cache_inv c → LRU_inv p c →
  c !! i = Some set → set !! w = Some line → valid line = true →
  ∃ p', LRU_update_on_hit p (Z.of_nat i) (Z.of_nat w) line = Ret p' ∧
        LRU_inv p' c.
Proof.
  intros Hc Hp Hset Hw Hv.
  destruct (LRU_touch_inv p c i w set line line Hc Hp Hset)
    as (p' & Hhit & _ & Hinv); [| done | |].
  - destruct Hc as [_ Hc]. destruct (Hc _ _ Hset) as (Hlen & _).
    apply lookup_lt_Some in Hw. lia.
  - destruct Hc as [_ Hc]. destruct (Hc _ _ Hset) as (_ & _ & Hpre).
    by eapply valid_prefix_first.
  - exists p'. split; [done |].
    by rewrite (list_insert_id set), list_insert_id in Hinv.
Qed.

Lemma LRU_miss_ok (fuel : nat) p c (i : nat) set pc sh st :
  cache_inv c → LRU_inv p c → c !! i = Some set → (4 ≤ fuel)%nat →
  ∃ (v : nat) p1 p2,
    LRU_find_victim p (Z.of_nat i) set pc sh st = Ret (Z.of_nat v, p1) ∧
    (v < Z.to_nat WAYS)%nat ∧
    (∀ a la, set !! a = Some la → valid la = false →
       (v ≤ a)%nat ∧ ∃ lv, set !! v = Some lv ∧ valid lv = false) ∧
    LRU_update_on_miss p1 (Z.of_nat i) (Z.of_nat v) = Ret p2 ∧
    ∀ line, valid line = true → LRU_inv p2 (<[i := <[v := line]> set]> c).
Proof.
  intros Hc Hp Hset _.
  destruct (LRU_find_victim_first p c i set pc sh st Hc Hp Hset)
    as (v & Hfind & Hv & Hfirst).
  destruct (LRU_touch_inv p c i v set (fresh_line 0 0 0 INVALID)
              CacheLine_default Hc Hp Hset Hv eq_refl)
    as (p' & _ & Hmiss & _); [intros; by eapply Hfirst |].
  exists v, p, p'. split_and!; try done.
  intros line Hline.
  destruct (LRU_touch_inv p c i v set line CacheLine_default
              Hc Hp Hset Hv Hline) as (p'' & _ & Hmiss' & Hinv);
    [intros; by eapply Hfirst |].
  assert (p'' = p') as -> by congruence. done.
Qed.

#[global] Instance LRU_PolicyLaws : PolicyLaws LRU_Policy := {|
  policy_inv := LRU_inv;
  policy_hit_ok := LRU_hit_ok;
  policy_miss_ok := LRU_miss_ok
|}.

(** ** SRRIP keeps its invariant *)

Lemma srrip_set_row_inv set row (v : nat) x line :
  srrip_row_inv set row → valid line = true → 0 ≤ x < 3 →
  srrip_row_inv (<[v := line]> set) (<[v := x]> row).
Proof.
  intros (Hlen & Hrange & Hyoung) Hline Hx. split_and!.
  - by rewrite !length_insert.
  - intros w r [(-> & <- & _) | [_ Hw]]%list_lookup_insert_Some; [lia |].
    by eapply Hrange.
  - intros a b la lb ra Ha Hva Hb Hvb Hra.
    apply list_lookup_insert_Some in Hb as [(-> & -> & _) | [Hbv Hb]];
      [congruence |].
    apply list_lookup_insert_Some in Hra as [(-> & <- & _) | [Hav Hra]];
      [lia |].
    apply list_lookup_insert_Some in Ha as [(-> & _) | [_ Ha]]; [done |].
    by eapply (Hyoung a b).
Qed.

Lemma SRRIP_set_inv p c (i v : nat) set line x :
  cache_inv c → SRRIP_inv p c → c !! i = Some set →
  (v < Z.to_nat WAYS)%nat → valid line = true → 0 ≤ x < 3 →
  ∃ p', (bits ← set_at2 (rrpv_bits p) (Z.of_nat i) (Z.of_nat v) x;
         Ret (mkSRRIP bits)) = Ret p' ∧
        SRRIP_inv p' (<[i := <[v := line]> set]> c).
Proof.
  intros [Hclen Hc] [Hplen Hp] Hset Hv Hline Hx.
  destruct (Hc _ _ Hset) as (Hslen & _ & _).
  destruct (lookup_lt_is_Some_2 (rrpv_bits p) i) as [row Hrow].
  { apply lookup_lt_Some in Hset. lia. }
  pose proof (Hp _ _ _ Hset Hrow) as Hinv.
  pose proof Hinv as (Hrlen & _).
  exists (mkSRRIP (<[i := <[v := x]> row]> (rrpv_bits p))). split.
  - rewrite (set_at2_Some _ _ _ _ _ Hrow) by lia. done.
  - split; cbn [rrpv_bits].
    + by rewrite length_insert.
    + intros i' set' row' Hset' Hrow'.
      destruct (decide (i' = i)) as [-> | Hne].
      * rewrite list_lookup_insert_eq in Hset' by (by eapply lookup_lt_Some).
        rewrite list_lookup_insert_eq in Hrow' by (by eapply lookup_lt_Some).
        injection Hset' as <-. injection Hrow' as <-.
        by apply srrip_set_row_inv.
      * rewrite list_lookup_insert_ne in Hset' by done.
        rewrite list_lookup_insert_ne in Hrow' by done.
        by eapply Hp.
Qed.

Lemma SRRIP_hit_ok p c (i w : nat) set line :
  cache_inv c → SRRIP_inv p c →
  c !! i = Some set → set !! w = Some line → valid line = true →
  ∃ p', SRRIP_update_on_hit p (Z.of_nat i) (Z.of_nat w) line = Ret p' ∧
        SRRIP_inv p' c.
Proof.
  intros Hc Hp Hset Hw Hv.
  destruct (SRRIP_set_inv p c i w set line 0 Hc Hp Hset)
    as (p' & Hhit & Hinv); [| done | lia |].
  - destruct Hc as [_ Hc]. destruct (Hc _ _ Hset) as (Hlen & _).
    apply lookup_lt_Some in Hw. lia.
  - exists p'. split; [done |].
    by rewrite (list_insert_id set), list_insert_id in Hinv.
Qed.

(** The search itself: it returns, at the first invalid way when the set
    has one (and then without any aging), and leaves 2-bit values. *)
Lemma SRRIP_find_victim_first (fuel : nat) p c (i : nat) set pc sh st :
  cache_inv c → SRRIP_inv p c → c !! i = Some set → (4 ≤ fuel)%nat →
  ∃ (v : nat) p1,
    SRRIP_find_victim fuel p (Z.of_nat i) set pc sh st = Ret (Z.of_nat v, p1) ∧
    (v < Z.to_nat WAYS)%nat ∧
    (∀ a la, set !! a = Some la → valid la = false →
       (v ≤ a)%nat ∧ ∃ lv, set !! v = Some lv ∧ valid lv = false) ∧
    SRRIP_inv p1 c.
Proof.
  intros [Hclen Hc] [Hplen Hp] Hset Hfuel.
  destruct (Hc _ _ Hset) as (Hslen & _ & _).
  destruct (lookup_lt_is_Some_2 (rrpv_bits p) i) as [row Hrow].
  { apply lookup_lt_Some in Hset. lia. }
  destruct (Hp _ _ _ Hset Hrow) as (Hrlen & Hrange & Hyoung).
  destruct (srrip_loop_spec i set 3 fuel (rrpv_bits p) row)
    as (v & row' & Hrun & Hv & Hlen' & Hstop & Hbefore & Hmono & Hsame);
    [lia | done | done | | |].
  - intros w r Hr. specialize (Hrange _ _ Hr). lia.
  - destruct (lookup_lt_is_Some_2 row 0) as [r Hr].
    { rewrite Hrlen, Hslen. unfold WAYS. lia. }
    exists 0%nat, r. split; [done |]. specialize (Hrange _ _ Hr). lia.
  - exists v, (mkSRRIP (<[i := row']> (rrpv_bits p))).
    unfold SRRIP_find_victim. rewrite <- Hslen, Hrun. obind.
    split_and!; [done | lia | |].
    + intros a la Ha Hinv.
      assert (Hsa : stops 3 set row a = true).
      { eapply stops_invalid; [done | done |].
        apply lookup_lt_Some in Ha. lia. }
      rewrite (Hsame _ Hsa) in *.
      assert (v ≤ a)%nat.
      { destruct (decide (v ≤ a)%nat); [done |].
        rewrite Hbefore in Hsa by lia. done. }
      split; [done |].
      apply stops_inv in Hstop as (lx & r & Hlx & Hr & [Hcase | [Hvx ->]]).
      * by exists lx.
      * exfalso. by eapply (Hyoung v a).
    + split; cbn [rrpv_bits].
      * by rewrite length_insert.
      * intros i' set' row'' Hset' Hrow''.
        destruct (decide (i' = i)) as [-> | Hne].
        -- rewrite list_lookup_insert_eq in Hrow''
             by (by eapply lookup_lt_Some).
           injection Hrow'' as <-.
           assert (set' = set) as -> by congruence.
           split_and!; [done | |].
           ++ intros w r' Hw. destruct (Hmono _ _ Hw) as (r & Hr & ?).
              specialize (Hrange _ _ Hr). lia.
           ++ intros a b la lb ra Ha Hva Hb Hvb Hra.
              assert (Hsb : stops 3 set row b = true).
              { eapply stops_invalid; [done | done |].
                apply lookup_lt_Some in Hb. lia. }
              rewrite (Hsame _ Hsb) in Hra. by eapply (Hyoung a b).
        -- rewrite list_lookup_insert_ne in Hrow'' by done.
           by eapply Hp.
Qed.

Lemma SRRIP_miss_ok (fuel : nat) p c (i : nat) set pc sh st :
  cache_inv c → SRRIP_inv p c → c !! i = Some set → (4 ≤ fuel)%nat →
  ∃ (v : nat) p1 p2,
    SRRIP_find_victim fuel p (Z.of_nat i) set pc sh st = Ret (Z.of_nat v, p1) ∧
    (v < Z.to_nat WAYS)%nat ∧
    (∀ a la, set !! a = Some la → valid la = false →
       (v ≤ a)%nat ∧ ∃ lv, set !! v = Some lv ∧ valid lv = false) ∧
    SRRIP_update_on_miss p1 (Z.of_nat i) (Z.of_nat v) = Ret p2 ∧
    ∀ line, valid line = true → SRRIP_inv p2 (<[i := <[v := line]> set]> c).
Proof.
  intros Hc Hp Hset Hfuel.
  destruct (SRRIP_find_victim_first fuel p c i set pc sh st Hc Hp Hset Hfuel)
    as (v & p1 & Hfind & Hv & Hfirst & Hp1).
  destruct (SRRIP_set_inv p1 c i v set (fresh_line 0 0 0 INVALID) 2
              Hc Hp1 Hset Hv eq_refl) as (p2 & Hmiss & _); [lia |].
  exists v, p1, p2. split_and!; try done.
  intros line Hline.
  destruct (SRRIP_set_inv p1 c i v set line 2 Hc Hp1 Hset Hv Hline)
    as (p2' & Hmiss' & Hinv); [lia |].
  assert (p2' = p2) as -> by congruence. done.
Qed.

#[global] Instance SRRIP_PolicyLaws : PolicyLaws SRRIP_Policy := {|
  policy_inv := SRRIP_inv;
  policy_hit_ok := SRRIP_hit_ok;
  policy_miss_ok := SRRIP_miss_ok
|}.

(** ** COALESCE: votes and the victim *)

Lemma adjusted_vote_total b line :
  brain_ok b →
  ∃ raw, predict b (pc line) (sharers line) (state line) = Ret raw ∧
    adjusted_vote b line =
      Ret (raw + (if is_MODIFIED (state line) then 60 else 0)
               + (if sharers line >? 2 then 30 else 0)) ∧
    -128 ≤ raw ≤ 127.
Proof.
  intros Hok.
  destruct (predict_total b (pc line) (sharers line) (state line) Hok)
    as (raw & Hraw & Hr).
  exists raw. split_and!; [done | | lia | lia].
  unfold adjusted_vote. rewrite Hraw. obind.
  destruct (is_MODIFIED (state line)), (sharers line >? 2); f_equal; lia.
Qed.

Lemma adjusted_vote_bound b line vote :
  brain_ok b → adjusted_vote b line = Ret vote → -128 ≤ vote ≤ 217.
Proof.
  intros Hok Hvote.
  destruct (adjusted_vote_total b line Hok) as (raw & _ & Heq & Hr).
  rewrite Heq in Hvote. injection Hvote as <-.
  destruct (is_MODIFIED (state line)), (sharers line >? 2); lia.
Qed.

Lemma coalesce_scan_from b set n : ∀ (k : nat) victim min_vote,
  brain_ok b → (k + n ≤ length set)%nat →
  ∃ res, coalesce_scan n (Z.of_nat k) b set victim min_vote = Ret res ∧
    match res with
    | Empty w => ∃ x : nat, w = Z.of_nat x ∧ (k ≤ x < k + n)%nat ∧
        (∃ lx, set !! x = Some lx ∧ valid lx = false) ∧
        ∀ y ly, (k ≤ y < x)%nat → set !! y = Some ly → valid ly = true
    | Chosen vic mv =>
        (∀ y ly, (k ≤ y < k + n)%nat → set !! y = Some ly → valid ly = true) ∧
        (∀ y ly, (k ≤ y < k + n)%nat → set !! y = Some ly →
           ∃ vote, adjusted_vote b ly = Ret vote ∧ mv ≤ vote) ∧
        ((vic = victim ∧ mv = min_vote) ∨
         (∃ (x : nat) lx, vic = Z.of_nat x ∧ (k ≤ x < k + n)%nat ∧
            set !! x = Some lx ∧ adjusted_vote b lx = Ret mv ∧
            mv < min_vote ∧
            ∀ y ly, (k ≤ y < x)%nat → set !! y = Some ly →
              ∃ vote, adjusted_vote b ly = Ret vote ∧ mv < vote))
    end.
Proof.
  induction n as [| n IH]; intros k victim min_vote Hok Hlen; simpl.
  - exists (Chosen victim min_vote). split; [done |].
    split_and!; [intros; lia | intros; lia | by left].
  - destruct (lookup_lt_is_Some_2 set k) as [line Hline]; [lia |].
    rewrite (at_Some _ _ _ Hline). obind.
    destruct (valid line) eqn:Hv; simpl.
    + destruct (adjusted_vote_total b line Hok) as (raw & _ & Hvote & _).
      set (vote := raw + (if is_MODIFIED (state line) then 60 else 0)
                       + (if sharers line >? 2 then 30 else 0)) in *.
      rewrite Hvote. obind.
      replace (Z.of_nat k + 1) with (Z.of_nat (S k)) by lia.
      destruct (Z.ltb_spec vote min_vote) as [Hlt | Hge].
      * destruct (IH (S k) (Z.of_nat k) vote Hok) as (res & -> & Hres);
          [lia |].
        exists res. split; [done |]. destruct res as [w | vic mv].
        -- destruct Hres as (x & -> & Hx & Hinv & Hbefore).
           exists x. split_and!; [done | lia | lia | done |].
           intros y ly Hy Hly.
           destruct (decide (y = k)) as [-> | ?]; [congruence |].
           eapply Hbefore; [| done]. lia.
        -- destruct Hres as (Hvalid & Hmin & Hwho).
           assert (Hmv : mv ≤ vote).
           { destruct Hwho as [[_ ->] | (x & lx & _ & _ & _ & _ & ? & _)]; lia. }
           split_and!.
           ++ intros y ly Hy Hly.
              destruct (decide (y = k)) as [-> | ?]; [congruence |].
              eapply Hvalid; [| done]. lia.
           ++ intros y ly Hy Hly.
              destruct (decide (y = k)) as [-> | ?].
              ** assert (ly = line) as -> by congruence. by exists vote.
              ** eapply Hmin; [| done]. lia.
           ++ right. destruct Hwho as [[-> ->] |
                (x & lx & -> & Hx & Hlx & Hvx & Hlt' & Hbefore)].
              ** exists k, line. split_and!; try done; try lia; intros; lia.
              ** exists x, lx. split_and!; try done; try lia.
                 intros y ly Hy Hly.
                 destruct (decide (y = k)) as [-> | ?].
                 --- assert (ly = line) as -> by congruence.
                     exists vote. split; [done | lia].
                 --- eapply Hbefore; [| done]. lia.
      * destruct (IH (S k) victim min_vote Hok) as (res & -> & Hres);
          [lia |].
        exists res. split; [done |]. destruct res as [w | vic mv].
        -- destruct Hres as (x & -> & Hx & Hinv & Hbefore).
           exists x. split_and!; [done | lia | lia | done |].
           intros y ly Hy Hly.
           destruct (decide (y = k)) as [-> | ?]; [congruence |].
           eapply Hbefore; [| done]. lia.
        -- destruct Hres as (Hvalid & Hmin & Hwho).
           assert (Hmv : mv ≤ min_vote).
           { destruct Hwho as [[_ ->] | (x & lx & _ & _ & _ & _ & ? & _)]; lia. }
           split_and!.
           ++ intros y ly Hy Hly.
              destruct (decide (y = k)) as [-> | ?]; [congruence |].
              eapply Hvalid; [| done]. lia.
           ++ intros y ly Hy Hly.
              destruct (decide (y = k)) as [-> | ?].
              ** assert (ly = line) as -> by congruence.
                 exists vote. split; [done | lia].
              ** eapply Hmin; [| done]. lia.
           ++ destruct Hwho as [[-> ->] |
                (x & lx & -> & Hx & Hlx & Hvx & Hlt' & Hbefore)];
                [by left | right].
              exists x, lx. split_and!; try done; try lia.
              intros y ly Hy Hly.
              destruct (decide (y = k)) as [-> | ?].
              ** assert (ly = line) as -> by congruence.
                 exists vote. split; [done | lia].
              ** eapply Hbefore; [| done]. lia.
    + exists (Empty (Z.of_nat k)). split; [done |].
      exists k. split_and!; [done | lia | lia | by exists line | intros; lia].
Qed.

Lemma some_invalid_or_all_valid (set : list CacheLine) :
  (∃ a la, set !! a = Some la ∧ valid la = false) ∨
  (∀ y ly, set !! y = Some ly → valid ly = true).
Proof.
  induction set as [| l set IH].
  - right. intros y ly. by rewrite lookup_nil.
  - destruct (valid l) eqn:E.
    + destruct IH as [(a & la & Ha & Hinv) | Hall].
      * left. by exists (S a), la.
      * right. intros [| y] ly Hly.
        -- by injection Hly as <-.
        -- by eapply Hall.
    + left. by exists 0%nat, l.
Qed.

Lemma COALESCE_find_victim_empty p (i : nat) set cpc csh cst :
  COALESCE_ok p → length set = Z.to_nat WAYS →
  (∃ a la, set !! a = Some la ∧ valid la = false) →
  ∃ v : nat,
    COALESCE_find_victim p (Z.of_nat i) set cpc csh cst = Ret (Z.of_nat v, p) ∧
    (v < Z.to_nat WAYS)%nat ∧
    (∃ lv, set !! v = Some lv ∧ valid lv = false) ∧
    ∀ y ly, (y < v)%nat → set !! y = Some ly → valid ly = true.
Proof.
  intros (Hok & _ & _) Hlen (a & la & Ha & Hinv).
  unfold COALESCE_find_victim.
  destruct (coalesce_scan_from (brain p) set (Z.to_nat WAYS) 0 (-1) 99999 Hok)
    as (res & Hrun & Hres); [lia |].
  change (Z.of_nat 0) with 0 in Hrun. rewrite Hrun. obind.
  destruct res as [w | vic mv].
  - destruct Hres as (x & -> & Hx & Hlx & Hbefore).
    exists x. split_and!; [done | lia | done |].
    intros y ly Hy. apply Hbefore. lia.
  - exfalso. destruct Hres as (Hvalid & _).
    rewrite (Hvalid a la) in Hinv; [done | | done].
    apply lookup_lt_Some in Ha. lia.
Qed.

Lemma COALESCE_find_victim_full p (i : nat) set cpc csh cst :
  COALESCE_ok p → length set = Z.to_nat WAYS → (i < Z.to_nat NUM_SETS)%nat →
  (∀ y ly, set !! y = Some ly → valid ly = true) →
  ∃ (x : nat) lx mv (s : bool) ring b',
    set !! x = Some lx ∧
    adjusted_vote (brain p) lx = Ret mv ∧
    (∀ y ly, set !! y = Some ly →
       ∃ vote, adjusted_vote (brain p) ly = Ret vote ∧ mv ≤ vote ∧
               ((y < x)%nat → mv < vote)) ∧
    is_sampled p !! i = Some s ∧ samplers p !! i = Some ring ∧
    train (brain p) (pc lx) (sharers lx) (state lx) false = Ret b' ∧
    brain_ok b' ∧
    COALESCE_find_victim p (Z.of_nat i) set cpc csh cst =
      Ret (Z.of_nat x,
           if s then mkCOALESCE b'
                       (<[i := ring ++ [eviction_record lx mv]]> (samplers p))
                       (is_sampled p)
           else p).
Proof.
  intros (Hok & Hsmp & Hsampled) Hlen Hi Hall.
  unfold COALESCE_find_victim.
  destruct (coalesce_scan_from (brain p) set (Z.to_nat WAYS) 0 (-1) 99999 Hok)
    as (res & Hrun & Hres); [lia |].
  change (Z.of_nat 0) with 0 in Hrun. rewrite Hrun. obind.
  destruct res as [w | vic mv].
  { exfalso. destruct Hres as (x & _ & _ & (lx & Hlx & Hinv) & _).
    rewrite (Hall _ _ Hlx) in Hinv. done. }
  destruct Hres as (_ & Hmin & Hwho).
  destruct Hwho as [[-> ->] | (x & lx & -> & Hx & Hlx & Hvx & Hlt & Hbefore)].
  { exfalso. destruct (lookup_lt_is_Some_2 set 0) as [l0 Hl0].
    { rewrite Hlen. unfold WAYS. lia. }
    destruct (Hmin 0%nat l0) as (vote & Hvote & Hle); [unfold WAYS; lia | done |].
    apply adjusted_vote_bound in Hvote; [lia | done]. }
  destruct (lookup_lt_is_Some_2 (is_sampled p) i) as [s Hs]; [lia |].
  destruct (lookup_lt_is_Some_2 (samplers p) i) as [ring Hring]; [lia |].
  destruct (train_ok (brain p) (pc lx) (sharers lx) (state lx) false Hok)
    as (b' & Htrain & Hok').
  exists x, lx, mv, s, ring, b'. split_and!; try done.
  - intros y ly Hly. apply lookup_lt_Some in Hly as Hy.
    destruct (Hmin y ly) as (vote & Hvote & Hle); [lia | done |].
    exists vote. split_and!; [done | done |].
    intros Hyx. destruct (Hbefore y ly) as (vote' & Hvote' & Hlt');
      [lia | done |].
    congruence.
  - rewrite (at_Some _ _ _ Hs). obind. destruct s; [| done].
    rewrite (at_Some _ _ _ Hlx). obind.
    rewrite (at_Some _ _ _ Hring). obind.
    rewrite set_at_nat by lia. obind.
    rewrite Htrain. done.
Qed.

Lemma COALESCE_hit_ok p c (i w : nat) set line :
  cache_inv c → COALESCE_inv p c →
  c !! i = Some set → set !! w = Some line → valid line = true →
  ∃ p', COALESCE_update_on_hit p (Z.of_nat i) (Z.of_nat w) line = Ret p' ∧
        COALESCE_inv p' c.
Proof.
  intros [Hclen _] (Hok & Hsmp & Hsampled) Hset _ _.
  destruct (lookup_lt_is_Some_2 (is_sampled p) i) as [s Hs].
  { apply lookup_lt_Some in Hset. lia. }
  unfold COALESCE_update_on_hit. rewrite (at_Some _ _ _ Hs). obind.
  destruct s; [| by exists p].
  destruct (train_ok (brain p) (pc line) (sharers line) (state line) true Hok)
    as (b' & -> & Hok').
  obind. eexists. split; [done |]. by split_and!.
Qed.

Lemma COALESCE_miss_ok (fuel : nat) p c (i : nat) set cpc csh cst :
  cache_inv c → COALESCE_inv p c → c !! i = Some set → (4 ≤ fuel)%nat →
  ∃ (v : nat) p1 p2,
    COALESCE_find_victim p (Z.of_nat i) set cpc csh cst = Ret (Z.of_nat v, p1) ∧
    (v < Z.to_nat WAYS)%nat ∧
    (∀ a la, set !! a = Some la → valid la = false →
       (v ≤ a)%nat ∧ ∃ lv, set !! v = Some lv ∧ valid lv = false) ∧
    COALESCE_update_on_miss p1 (Z.of_nat i) (Z.of_nat v) = Ret p2 ∧
    ∀ line, valid line = true →
      COALESCE_inv p2 (<[i := <[v := line]> set]> c).
Proof.
  intros [Hclen Hc] Hp Hset _.
  destruct (Hc _ _ Hset) as (Hslen & _ & _).
  pose proof (some_invalid_or_all_valid set) as Hcases.
  destruct Hcases as [Hex | Hall].
  - destruct (COALESCE_find_victim_empty p i set cpc csh cst Hp Hslen Hex)
      as (v & Hfind & Hv & Hlv & Hbefore).
    exists v, p, p. split_and!; try done.
    intros a la Ha Hinv. split; [| done].
    destruct (decide (v ≤ a)%nat); [done |].
    rewrite (Hbefore a la) in Hinv; [done | lia | done].
  - destruct (COALESCE_find_victim_full p i set cpc csh cst Hp Hslen)
      as (x & lx & mv & s & ring & b' & Hlx & _ & _ & Hs & Hring & _ & Hok'
          & Hfind); [apply lookup_lt_Some in Hset; lia | done |].
    eexists x, _, _. split_and!; [exact Hfind | | | done |].
    + apply lookup_lt_Some in Hlx. lia.
    + intros a la Ha Hinv. rewrite (Hall _ _ Ha) in Hinv. done.
    + intros line _. destruct Hp as (Hok & Hsmp & Hsampled).
      destruct s; [| by split_and!].
      split_and!; cbn [brain samplers is_sampled]; try done.
      by rewrite length_insert.
Qed.

#[global] Instance COALESCE_PolicyLaws : PolicyLaws COALESCE_Policy := {|
  policy_inv := COALESCE_inv;
  policy_hit_ok := COALESCE_hit_ok;
  policy_miss_ok := λ fuel, COALESCE_miss_ok fuel
|}.

(** ** The simulator *)

Lemma set_index_range addr : 0 ≤ set_index addr < NUM_SETS.
Proof. unfold set_index. apply Z.mod_pos_bound. done. Qed.

Section SimulatorFacts.
Context {P : Type} `{ReplacementPolicy P}.

Lemma check_hit_from (sim : Simulator P) (i : nat) set tg n : ∀ k : nat,
  cache sim !! i = Some set → (k + n ≤ length set)%nat →
  (∃ (w : nat) line, (k ≤ w < k + n)%nat ∧ set !! w = Some line ∧
     is_hit tg line = true ∧
     (∀ y ly, (k ≤ y < w)%nat → set !! y = Some ly → is_hit tg ly = false) ∧
     check_hit n (Z.of_nat k) sim (Z.of_nat i) tg =
       (p' ← update_on_hit (policy sim) (Z.of_nat i) (Z.of_nat w) line;
        Ret (Some (hit_state sim line p')))) ∨
  ((∀ y ly, (k ≤ y < k + n)%nat → set !! y = Some ly → is_hit tg ly = false) ∧
   check_hit n (Z.of_nat k) sim (Z.of_nat i) tg = Ret None).
Proof.
  induction n as [| n IH]; intros k Hset Hlen; simpl.
  - right. split; [intros; lia | done].
  - destruct (lookup_lt_is_Some_2 set k) as [line Hline]; [lia |].
    rewrite (at2_Some _ _ _ _ _ Hset Hline). obind.
    fold (is_hit tg line). destruct (is_hit tg line) eqn:Hhit.
    + left. exists k, line. split_and!; [lia | lia | done | done | | done].
      intros; lia.
    + replace (Z.of_nat k + 1) with (Z.of_nat (S k)) by lia.
      destruct (IH (S k) Hset) as
        [(w & lw & Hw & Hlw & Hhw & Hbefore & ->) | [Hnone ->]]; [lia | |].
      * left. exists w, lw. split_and!; [lia | lia | done | done | | done].
        intros y ly Hy Hly. destruct (decide (y = k)) as [-> | ?];
          [congruence |]. eapply Hbefore; [| done]. lia.
      * right. split; [| done]. intros y ly Hy Hly.
        destruct (decide (y = k)) as [-> | ?]; [congruence |].
        eapply Hnone; [| done]. lia.
Qed.

(** [access] on a hit, as one equation: the incoming [pc], [sharers] and
    [state] (and the fuel) do not occur on the right. *)
Lemma access_hit_equation (sim : Simulator P) addr (i : nat) set :
  set_index addr = Z.of_nat i →
  cache sim !! i = Some set → length set = Z.to_nat WAYS →
  (∃ w line, set !! w = Some line ∧ is_hit addr line = true) →
  ∃ (w : nat) line, set !! w = Some line ∧ is_hit addr line = true ∧
    (∀ y ly, (y < w)%nat → set !! y = Some ly → is_hit addr ly = false) ∧
    ∀ fuel cpc csh cst,
      access fuel sim addr cpc csh cst =
        (p' ← update_on_hit (policy sim) (Z.of_nat i) (Z.of_nat w) line;
         Ret (hit_state sim line p')).
Proof.
  intros Hidx Hset Hlen (w0 & l0 & Hl0 & Hhit0).
  destruct (check_hit_from sim i set addr (Z.to_nat WAYS) 0 Hset) as
    [(w & lw & Hw & Hlw & Hhw & Hbefore & Hrun) | [Hnone _]]; [lia | |].
  - exists w, lw. split_and!; [done | done | |].
    + intros y ly Hy. apply Hbefore. lia.
    + intros fuel cpc csh cst. unfold access. fold (set_index addr).
      rewrite Hidx. change 0 with (Z.of_nat 0). rewrite Hrun.
      by destruct (update_on_hit (policy sim) (Z.of_nat i) (Z.of_nat w) lw).
  - rewrite (Hnone w0 l0) in Hhit0; [done | | done].
    apply lookup_lt_Some in Hl0. lia.
Qed.

Lemma access_miss_equation (sim : Simulator P) addr (i : nat) set :
  set_index addr = Z.of_nat i →
  cache sim !! i = Some set → length set = Z.to_nat WAYS →
  (∀ w line, set !! w = Some line → is_hit addr line = false) →
  ∀ fuel cpc csh cst,
    access fuel sim addr cpc csh cst =
      ('(victim_way, p1) ←
         find_victim fuel (policy sim) (Z.of_nat i) set cpc csh cst;
       cache' ← set_at2 (cache sim) (Z.of_nat i) victim_way
                  (fresh_line addr cpc csh cst);
       p2 ← update_on_miss p1 (Z.of_nat i) victim_way;
       Ret (mkSim p2 cache' (hits sim) (misses sim + 1)
              (coherence_traffic_saved sim))).
Proof.
  intros Hidx Hset Hlen Hmiss fuel cpc csh cst.
  destruct (check_hit_from sim i set addr (Z.to_nat WAYS) 0 Hset) as
    [(w & lw & Hw & Hlw & Hhw & _) | [_ Hrun]]; [lia | |].
  - by rewrite (Hmiss _ _ Hlw) in Hhw.
  - unfold access. fold (set_index addr).
    rewrite Hidx. change 0 with (Z.of_nat 0). rewrite Hrun. obind.
    by rewrite (at_Some _ _ _ Hset).
Qed.

End SimulatorFacts.

(** ** Every access returns and keeps the invariants *)

Lemma is_hit_inv tg line :
  is_hit tg line = true → valid line = true ∧ tag line = tg.
Proof. unfold is_hit. intros [? ?%Z.eqb_eq]%andb_true_iff. done. Qed.

Lemma hit_or_miss tg (set : list CacheLine) :
  (∃ w line, set !! w = Some line ∧ is_hit tg line = true) ∨
  (∀ w line, set !! w = Some line → is_hit tg line = false).
Proof.
  induction set as [| l set IH].
  - right. intros w line. by rewrite lookup_nil.
  - destruct (is_hit tg l) eqn:E.
    + left. by exists 0%nat, l.
    + destruct IH as [(w & line & Hw & Hh) | Hnone].
      * left. by exists (S w), line.
      * right. intros [| w] line Hw.
        -- by injection Hw as <-.
        -- by eapply Hnone.
Qed.

Lemma install_set_inv set (v : nat) line :
  tags_unique set → valid_prefix set → valid line = true →
  (∀ w lw, set !! w = Some lw → is_hit (tag line) lw = false) →
  (∀ a la, set !! a = Some la → valid la = false → (v ≤ a)%nat) →
  tags_unique (<[v := line]> set) ∧ valid_prefix (<[v := line]> set).
Proof.
  intros Huniq Hpre Hline Hmiss Hfirst.
  assert (Hnew : ∀ w lw, set !! w = Some lw → valid lw = true →
                   tag lw ≠ tag line).
  { intros w lw Hw Hv Heq. specialize (Hmiss _ _ Hw). unfold is_hit in Hmiss.
    rewrite Hv, Heq, Z.eqb_refl in Hmiss. done. }
  split.
  - intros a b la lb Ha Hb Hva Hvb Htag.
    apply list_lookup_insert_Some in Ha as [(-> & <- & _) | [Hav Ha]];
      apply list_lookup_insert_Some in Hb as [(-> & <- & _) | [Hbv Hb]];
      try done.
    + exfalso. by eapply (Hnew b lb).
    + exfalso. by eapply (Hnew a la).
    + by eapply Huniq.
  - intros a b la lb Ha Hb Hab Hvb.
    apply list_lookup_insert_Some in Ha as [(-> & <- & _) | [Hav Ha]];
      [done |].
    apply list_lookup_insert_Some in Hb as [(-> & <- & _) | [Hbv Hb]].
    + destruct (valid la) eqn:E; [done |].
      specialize (Hfirst _ _ Ha E). lia.
    + by eapply (Hpre a b).
Qed.

Section SimulatorInvariant.
Context {P : Type} `{PolicyLaws P}.

Lemma access_inv (fuel : nat) (sim : Simulator P) addr cpc csh cst :
  sim_inv sim → (4 ≤ fuel)%nat →
  ∃ sim', access fuel sim addr cpc csh cst = Ret sim' ∧ sim_inv sim'.
Proof.
  intros [Hc Hp] Hfuel.
  pose proof (set_index_range addr) as Hr.
  assert (Hidx : set_index addr = Z.of_nat (Z.to_nat (set_index addr)))
    by lia.
  set (i := Z.to_nat (set_index addr)) in *.
  pose proof Hc as [Hclen Hsets].
  destruct (lookup_lt_is_Some_2 (cache sim) i) as [set Hset]; [lia |].
  destruct (Hsets _ _ Hset) as (Hslen & Huniq & Hpre).
  destruct (hit_or_miss addr set) as [Hhit | Hnone].
  - destruct (access_hit_equation sim addr i set Hidx Hset Hslen Hhit)
      as (w & line & Hline & Hh & _ & Heq).
    rewrite Heq. apply is_hit_inv in Hh as [Hv _].
    destruct (policy_hit_ok (policy sim) (cache sim) i w set line
                Hc Hp Hset Hline Hv) as (p' & -> & Hp').
    obind. eexists. split; [done |]. by split.
  - rewrite (access_miss_equation sim addr i set Hidx Hset Hslen Hnone).
    destruct (policy_miss_ok fuel (policy sim) (cache sim) i set cpc csh cst
                Hc Hp Hset Hfuel)
      as (v & p1 & p2 & -> & Hv & Hfirst & Hmiss' & Hp2).
    obind. rewrite (set_at2_Some _ _ _ _ _ Hset) by lia. obind.
    rewrite Hmiss'. obind.
    eexists. split; [done |].
    split; cbn [cache policy]; [| by apply Hp2].
    split; [by rewrite length_insert |].
    intros i' set' [(-> & <- & _) | [_ Hset']]%list_lookup_insert_Some;
      [| by eapply Hsets].
    rewrite length_insert. split; [done |].
    apply install_set_inv; try done.
    intros a la Ha Hinv. by destruct (Hfirst _ _ Ha Hinv).
Qed.

Lemma run_inv (fuel : nat) (trace : list request) : ∀ sim : Simulator P,
  sim_inv sim → (4 ≤ fuel)%nat →
  ∃ sim', run fuel sim trace = Ret sim' ∧ sim_inv sim'.
Proof.
  induction trace as [| r trace IH]; intros sim Hinv Hfuel; simpl.
  - eauto.
  - destruct (access_inv fuel sim (r_addr r) (r_pc r) (r_sharers r)
                (r_state r) Hinv Hfuel) as (sim1 & -> & Hinv1).
    obind. by apply IH.
Qed.

End SimulatorInvariant.

(** ** The initial states *)

Lemma cache_inv_init {P} (p : P) : cache_inv (cache (Simulator_init p)).
Proof.
  unfold Simulator_init. cbn [cache]. split.
  - apply length_replicate.
  - intros i set [-> _]%lookup_replicate. split_and!.
    + apply length_replicate.
    + by intros a b la lb [-> _]%lookup_replicate _ Hv.
    + by intros a b la lb _ [-> _]%lookup_replicate _ Hv.
Qed.

Lemma init_set_all_invalid {P} (p : P) (i b : nat) set lb :
  cache (Simulator_init p) !! i = Some set → set !! b = Some lb →
  lb = CacheLine_default ∧ (b < Z.to_nat WAYS)%nat.
Proof.
  unfold Simulator_init. cbn [cache].
  intros [-> _]%lookup_replicate [-> ?]%lookup_replicate. done.
Qed.

Lemma LRU_inv_init :
  LRU_inv LRU_Policy_init (cache (Simulator_init LRU_Policy_init)).
Proof.
  split; unfold LRU_Policy_init; cbn [lru_stacks].
  - apply length_replicate.
  - intros i set ranks Hset [-> _]%lookup_replicate. split_and!.
    + rewrite length_seqZ.
      destruct (proj2 (cache_inv_init LRU_Policy_init) _ _ Hset) as [-> _].
      done.
    + intros a b la lb ra Ha Hva.
      destruct (init_set_all_invalid _ _ _ _ _ Hset Ha) as [-> _]. done.
    + intros b lb Hb _.
      destruct (init_set_all_invalid _ _ _ _ _ Hset Hb) as [_ Hlt].
      rewrite lookup_seqZ_lt by lia. done.
Qed.

Lemma SRRIP_inv_init :
  SRRIP_inv SRRIP_Policy_init (cache (Simulator_init SRRIP_Policy_init)).
Proof.
  split; unfold SRRIP_Policy_init; cbn [rrpv_bits].
  - apply length_replicate.
  - intros i set row Hset [-> _]%lookup_replicate. split_and!.
    + rewrite length_replicate.
      destruct (proj2 (cache_inv_init SRRIP_Policy_init) _ _ Hset) as [-> _].
      done.
    + intros w r [-> _]%lookup_replicate. lia.
    + intros a b la lb ra Ha Hva.
      destruct (init_set_all_invalid _ _ _ _ _ Hset Ha) as [-> _]. done.
Qed.

Lemma COALESCE_ok_init b : brain_ok b → COALESCE_ok (COALESCE_Policy_init b).
Proof.
  intros Hok. unfold COALESCE_Policy_init. split_and!;
    cbn [brain samplers is_sampled].
  - done.
  - apply length_replicate.
  - by rewrite length_fmap, length_seqZ.
Qed.

Lemma sim_inv_init_LRU : sim_inv (Simulator_init LRU_Policy_init).
Proof. split; [apply cache_inv_init | apply LRU_inv_init]. Qed.

Lemma sim_inv_init_SRRIP : sim_inv (Simulator_init SRRIP_Policy_init).
Proof. split; [apply cache_inv_init | apply SRRIP_inv_init]. Qed.

Lemma sim_inv_init_COALESCE b :
  brain_ok b → sim_inv (Simulator_init (COALESCE_Policy_init b)).
Proof.
  intros Hok. split; [apply cache_inv_init | by apply COALESCE_ok_init].
Qed.

Section Always.
Context {P : Type} `{PolicyLaws P}.

Lemma always_from_inv (fuel : nat) (init : Simulator P)
    (Q : Simulator P → Prop) :
  sim_inv init → (4 ≤ fuel)%nat → (∀ sim, sim_inv sim → Q sim) →
  always fuel init Q.
Proof.
  intros Hinit Hfuel HQ trace.
  destruct (run_inv fuel trace init Hinit Hfuel) as (sim & Hrun & Hinv).
  exists sim. split; [done | by apply HQ].
Qed.

Lemma inv_empty_slot_priority (fuel : nat) (sim : Simulator P) :
  (4 ≤ fuel)%nat → sim_inv sim → empty_slot_priority fuel sim.
Proof.
  intros Hfuel [Hc Hp] i set cpc csh cst Hset (a & la & Ha & Hinv).
  destruct (policy_miss_ok fuel (policy sim) (cache sim) i set cpc csh cst
              Hc Hp Hset Hfuel) as (v & p1 & _ & Hfind & _ & Hfirst & _).
  destruct (Hfirst _ _ Ha Hinv) as (_ & lv & Hlv & Hvv).
  by exists v, lv, p1.
Qed.


End Always.

(** ** Claims about the simulator *)

(** C3. For each of the three policies, after every trace of accesses from
    the initial simulator (the run itself returns, given fuel for four
    scans), on every set of the cache that still holds an invalid line
    [find_victim] returns a way holding an invalid line. *)
Theorem empty_slot_priority_all_policies (fuel : nat) :
  (4 ≤ fuel)%nat →
  always fuel (Simulator_init LRU_Policy_init) (empty_slot_priority fuel) ∧
  always fuel (Simulator_init SRRIP_Policy_init) (empty_slot_priority fuel) ∧
  ∀ b, brain_ok b →
    always fuel (Simulator_init (COALESCE_Policy_init b))
      (empty_slot_priority fuel).
Proof.
  intros Hfuel. split_and!; [| | intros b Hb].
  - apply always_from_inv; [apply sim_inv_init_LRU | done |].
    intros sim. by apply inv_empty_slot_priority.
  - apply always_from_inv; [apply sim_inv_init_SRRIP | done |].
    intros sim. by apply inv_empty_slot_priority.
  - apply always_from_inv; [by apply sim_inv_init_COALESCE | done |].
    intros sim. by apply inv_empty_slot_priority.
Qed.

Lemma empty_slot_priority_all_policies_witness :
  always 4 (Simulator_init LRU_Policy_init) (empty_slot_priority 4) ∧
  always 4 (Simulator_init SRRIP_Policy_init) (empty_slot_priority 4) ∧
  ∀ b, brain_ok b →
    always 4 (Simulator_init (COALESCE_Policy_init b))
      (empty_slot_priority 4).
Proof. apply (empty_slot_priority_all_policies 4). lia. Defined.




(** C7. For each of the three policies, after every trace of accesses from
    the all-invalid cache, the run returns and within every set no two
    distinct ways hold valid lines with the same tag. *)
Theorem one_valid_line_per_tag (fuel : nat) :
  (4 ≤ fuel)%nat →
  always fuel (Simulator_init LRU_Policy_init) one_line_per_tag ∧
  always fuel (Simulator_init SRRIP_Policy_init) one_line_per_tag ∧
  ∀ b, brain_ok b →
    always fuel (Simulator_init (COALESCE_Policy_init b)) one_line_per_tag.
Proof.
  assert (Hgen : ∀ P `{PolicyLaws P} (sim : Simulator P),
            sim_inv sim → one_line_per_tag sim).
  { intros P ? ? sim [[_ Hsets] _] i set Hset.
    by destruct (Hsets _ _ Hset) as (_ & ? & _). }
  intros Hfuel. split_and!; [| | intros b Hb].
  - apply always_from_inv; [apply sim_inv_init_LRU | done | apply Hgen].
  - apply always_from_inv; [apply sim_inv_init_SRRIP | done | apply Hgen].
  - apply always_from_inv; [by apply sim_inv_init_COALESCE | done | apply Hgen].
Qed.

Lemma one_valid_line_per_tag_witness :
  always 4 (Simulator_init LRU_Policy_init) one_line_per_tag ∧
  always 4 (Simulator_init SRRIP_Policy_init) one_line_per_tag ∧
  ∀ b, brain_ok b →
    always 4 (Simulator_init (COALESCE_Policy_init b)) one_line_per_tag.
Proof. apply (one_valid_line_per_tag 4). lia. Defined.

(** C10. When the set of [addr] holds a valid line with tag [addr], then
    for whatever policy is plugged in, [access] is the call of
    [update_on_hit] on the first such line followed by a return in the
    state that has the same cache array and miss count, one more hit, and
    the coherence-win counter bumped by the test on the stored line's state
    and sharers.  The incoming [pc], [sharers] and [state] (and the fuel)
    do not occur in that result. *)
Theorem access_hit_frame {P} `{ReplacementPolicy P} (sim : Simulator P)
    (addr : Z) (set : list CacheLine) :
  cache sim !! Z.to_nat (set_index addr) = Some set →
  length set = Z.to_nat WAYS →
  (∃ w line, set !! w = Some line ∧ valid line = true ∧ tag line = addr) →
  ∃ (w : nat) line,
    set !! w = Some line ∧ valid line = true ∧ tag line = addr ∧
    (∀ fuel cpc csh cst,
       access fuel sim addr cpc csh cst =
         (p' ← update_on_hit (policy sim) (set_index addr) (Z.of_nat w) line;
          Ret (mkSim p' (cache sim) (hits sim + 1) (misses sim)
                 (if is_MODIFIED (state line) || (sharers line >? 1)
                  then coherence_traffic_saved sim + 1
                  else coherence_traffic_saved sim)))) ∧
    (∀ fuel cpc csh cst sim',
       access fuel sim addr cpc csh cst = Ret sim' →
       cache sim' = cache sim ∧ misses sim' = misses sim ∧
       hits sim' = hits sim + 1 ∧
       coherence_traffic_saved sim' =
         if is_MODIFIED (state line) || (sharers line >? 1)
         then coherence_traffic_saved sim + 1
         else coherence_traffic_saved sim).
Proof.
  intros Hset Hlen (w0 & l0 & Hl0 & Hv0 & Ht0).
  pose proof (set_index_range addr) as Hr.
  assert (Hidx : set_index addr = Z.of_nat (Z.to_nat (set_index addr)))
    by lia.
  destruct (access_hit_equation sim addr _ set Hidx Hset Hlen)
    as (w & line & Hline & Hh & _ & Heq).
  { exists w0, l0. split; [done |]. unfold is_hit.
    by rewrite Hv0, Ht0, Z.eqb_refl. }
  apply is_hit_inv in Hh as [Hv Ht]. rewrite <- Hidx in Heq.
  exists w, line. split_and!; try done.
  intros fuel cpc csh cst sim'. rewrite Heq.
  intros (p' & _ & [= <-])%bind_Ret_inv. done.
Qed.

Lemma access_hit_frame_witness :
  ∃ (w : nat) line,
    (<[0%nat := fresh_line 5 7 4 MODIFIED]>
       (replicate 8 CacheLine_default)) !! w = Some line ∧
    valid line = true ∧ tag line = 5 ∧
    (∀ fuel cpc csh cst,
       access fuel sim_after_one_access 5 cpc csh cst =
         (p' ← update_on_hit (policy sim_after_one_access) (set_index 5)
                 (Z.of_nat w) line;
          Ret (mkSim p' (cache sim_after_one_access)
                 (hits sim_after_one_access + 1)
                 (misses sim_after_one_access)
                 (if is_MODIFIED (state line) || (sharers line >? 1)
                  then coherence_traffic_saved sim_after_one_access + 1
                  else coherence_traffic_saved sim_after_one_access)))) ∧
    (∀ fuel cpc csh cst sim',
       access fuel sim_after_one_access 5 cpc csh cst = Ret sim' →
       cache sim' = cache sim_after_one_access ∧
       misses sim' = misses sim_after_one_access ∧
       hits sim' = hits sim_after_one_access + 1 ∧
       coherence_traffic_saved sim' =
         if is_MODIFIED (state line) || (sharers line >? 1)
         then coherence_traffic_saved sim_after_one_access + 1
         else coherence_traffic_saved sim_after_one_access).
Proof.
  apply (access_hit_frame sim_after_one_access 5
           (<[0%nat := fresh_line 5 7 4 MODIFIED]>
              (replicate 8 CacheLine_default))).
  - vm_compute. reflexivity.
  - vm_compute. reflexivity.
  - exists 0%nat, (fresh_line 5 7 4 MODIFIED). vm_compute. by split_and!.
Defined.

(** ** The simulator only makes the calls that [LRU_reachable] counts *)

Lemma LRU_access_reachable (fuel : nat) (sim sim' : Simulator LRU_Policy)
    addr cpc csh cst :
  sim_inv sim → (4 ≤ fuel)%nat → LRU_reachable (policy sim) →
  access fuel sim addr cpc csh cst = Ret sim' → LRU_reachable (policy sim').
Proof.
  intros [Hc Hp] Hfuel Hreach Hacc.
  pose proof (set_index_range addr) as Hr.
  assert (Hidx : set_index addr = Z.of_nat (Z.to_nat (set_index addr)))
    by lia.
  set (i := Z.to_nat (set_index addr)) in *.
  pose proof Hc as [Hclen Hsets].
  destruct (lookup_lt_is_Some_2 (cache sim) i) as [set Hset]; [lia |].
  destruct (Hsets _ _ Hset) as (Hslen & _ & _).
  destruct (hit_or_miss addr set) as [Hhit | Hnone].
  - destruct (access_hit_equation sim addr i set Hidx Hset Hslen Hhit)
      as (w & line & Hline & _ & _ & Heq).
    rewrite Heq in Hacc. apply bind_Ret_inv in Hacc as (p' & Hupd & [= <-]).
    cbn [policy hit_state]. apply lookup_lt_Some in Hline.
    apply (LRU_reach_hit (policy sim) (Z.of_nat i) (Z.of_nat w) line p');
      [done | lia | lia | done].
  - rewrite (access_miss_equation sim addr i set Hidx Hset Hslen Hnone) in Hacc.
    destruct (LRU_find_victim_first (policy sim) (cache sim) i set cpc csh cst
                Hc Hp Hset) as (v & Hfind & Hv & _).
    cbn [find_victim LRU_ReplacementPolicy] in Hacc.
    rewrite Hfind in Hacc. obind_in Hacc.
    apply bind_Ret_inv in Hacc as (c' & _ & Hacc).
    apply bind_Ret_inv in Hacc as (p2 & Hupd & [= <-]).
    cbn [policy].
    apply (LRU_reach_miss (policy sim) (Z.of_nat i) (Z.of_nat v) p2);
      [done | lia | lia | done].
Qed.

Lemma LRU_run_reachable (fuel : nat) (trace : list request) :
  (4 ≤ fuel)%nat →
  ∃ sim, run fuel (Simulator_init LRU_Policy_init) trace = Ret sim ∧
         LRU_reachable (policy sim).
Proof.
  intros Hfuel.
  assert (Hgen : ∀ sim0 : Simulator LRU_Policy,
            sim_inv sim0 → LRU_reachable (policy sim0) →
            ∃ sim, run fuel sim0 trace = Ret sim ∧ LRU_reachable (policy sim)).
  { induction trace as [| r trace IH]; intros sim0 Hinv Hreach; simpl.
    - eauto.
    - destruct (access_inv fuel sim0 (r_addr r) (r_pc r) (r_sharers r)
                  (r_state r) Hinv Hfuel) as (sim1 & Hacc & Hinv1).
      rewrite Hacc. obind. apply IH; [done |].
      exact (LRU_access_reachable fuel sim0 sim1 _ _ _ _
               Hinv Hfuel Hreach Hacc). }
  apply Hgen; [apply sim_inv_init_LRU | apply LRU_reach_init].
Qed.

(** ** Claims about the policies *)

Lemma lru_perm_touch p (i j : nat) line :
  lru_perm p → (i < Z.to_nat NUM_SETS)%nat → (j < Z.to_nat WAYS)%nat →
  ∃ ranks,
    lru_stacks p !! i = Some ranks ∧
    LRU_update_on_hit p (Z.of_nat i) (Z.of_nat j) line =
      Ret (mkLRU (<[i := lru_touched j ranks]> (lru_stacks p))) ∧
    LRU_update_on_miss p (Z.of_nat i) (Z.of_nat j) =
      Ret (mkLRU (<[i := lru_touched j ranks]> (lru_stacks p))) ∧
    lru_perm (mkLRU (<[i := lru_touched j ranks]> (lru_stacks p))).
Proof.
  intros [Hlen Hperm] Hi Hj.
  destruct (lookup_lt_is_Some_2 (lru_stacks p) i) as [ranks Hranks]; [lia |].
  pose proof (Hperm _ _ Hranks) as Hp.
  pose proof Hp as (_ & Hrlen & _)%perm_seqZ_facts.
  exists ranks. split_and!; [done | | |].
  - apply LRU_update_on_hit_touch; [done | done | lia].
  - apply LRU_update_on_miss_touch; [done | done | lia].
  - split; cbn [lru_stacks]; [by rewrite length_insert |].
    intros i' ranks' [(-> & <- & _) | [_ Hr]]%list_lookup_insert_Some.
    + apply lru_touched_perm; [done | lia].
    + by eapply Hperm.
Qed.

Lemma lru_perm_init : lru_perm LRU_Policy_init.
Proof.
  split; unfold LRU_Policy_init; cbn [lru_stacks].
  - apply length_replicate.
  - by intros i ranks [-> _]%lookup_replicate.
Qed.

Lemma LRU_reachable_perm p : LRU_reachable p → lru_perm p.
Proof.
  induction 1 as [| p set_idx way line p' _ IH Hs Hw Hrun
                  | p set_idx way p' _ IH Hs Hw Hrun].
  - apply lru_perm_init.
  - destruct (lru_perm_touch p (Z.to_nat set_idx) (Z.to_nat way) line IH)
      as (ranks & _ & Hhit & _ & Hperm); [lia | lia |].
    rewrite !Z2Nat.id in Hhit by lia. congruence.
  - destruct (lru_perm_touch p (Z.to_nat set_idx) (Z.to_nat way)
                CacheLine_default IH)
      as (ranks & _ & _ & Hmiss & Hperm); [lia | lia |].
    rewrite !Z2Nat.id in Hmiss by lia. congruence.
Qed.

(** C8. On every LRU policy object that calls of [update_on_hit] and
    [update_on_miss] can produce, the ranks of every set are a permutation
    of 0 .. WAYS-1; a call of either method on way [way] of a set returns,
    and then that way has rank 0, every other way whose rank was below the
    old rank of [way] has its rank raised by one, every remaining way keeps
    its rank, the other sets are untouched, and the ranks are again a
    permutation. *)
Theorem lru_ranks_permutation (p : LRU_Policy) (set_idx way : Z)
    (line : CacheLine) :
  LRU_reachable p → 0 ≤ set_idx < NUM_SETS → 0 ≤ way < WAYS →
  ∃ ranks old_pos p' ranks',
    lru_stacks p !! Z.to_nat set_idx = Some ranks ∧
    ranks ≡ₚ seqZ 0 WAYS ∧
    ranks !! Z.to_nat way = Some old_pos ∧
    LRU_update_on_hit p set_idx way line = Ret p' ∧
    LRU_update_on_miss p set_idx way = Ret p' ∧
    lru_stacks p' !! Z.to_nat set_idx = Some ranks' ∧
    ranks' ≡ₚ seqZ 0 WAYS ∧
    ranks' !! Z.to_nat way = Some 0 ∧
    (∀ w r, w ≠ Z.to_nat way → ranks !! w = Some r →
       ranks' !! w = Some (if r <? old_pos then r + 1 else r)) ∧
    (∀ j, j ≠ Z.to_nat set_idx → lru_stacks p' !! j = lru_stacks p !! j).
Proof.
  intros Hreach Hs Hw.
  pose proof (LRU_reachable_perm p Hreach) as Hperm.
  destruct (lru_perm_touch p (Z.to_nat set_idx) (Z.to_nat way) line Hperm)
    as (ranks & Hranks & Hhit & Hmiss & [Hlen' Hperm']); [lia | lia |].
  rewrite !Z2Nat.id in Hhit, Hmiss by lia.
  pose proof (proj2 Hperm _ _ Hranks) as Hp.
  pose proof Hp as (_ & Hrlen & _)%perm_seqZ_facts.
  destruct (lookup_lt_is_Some_2 ranks (Z.to_nat way)) as [old_pos Hold];
    [lia |].
  assert (Hnew : <[Z.to_nat set_idx := lru_touched (Z.to_nat way) ranks]>
                   (lru_stacks p) !! Z.to_nat set_idx =
                 Some (lru_touched (Z.to_nat way) ranks))
    by (apply list_lookup_insert_eq; by eapply lookup_lt_Some).
  exists ranks, old_pos,
    (mkLRU (<[Z.to_nat set_idx := lru_touched (Z.to_nat way) ranks]>
              (lru_stacks p))),
    (lru_touched (Z.to_nat way) ranks).
  split_and!; try done.
  - by eapply Hperm'.
  - rewrite (lru_touched_lookup _ _ _ _ Hold). by rewrite decide_True.
  - intros w r Hne Hr.
    rewrite (lru_touched_lookup _ _ _ _ Hold), decide_False by done.
    by rewrite Hr.
  - intros j Hj. cbn [lru_stacks]. by rewrite list_lookup_insert_ne.
Qed.

Lemma lru_ranks_permutation_witness :
  ∃ ranks old_pos p' ranks',
    lru_stacks LRU_Policy_init !! Z.to_nat 0 = Some ranks ∧
    ranks ≡ₚ seqZ 0 WAYS ∧
    ranks !! Z.to_nat 3 = Some old_pos ∧
    LRU_update_on_hit LRU_Policy_init 0 3 CacheLine_default = Ret p' ∧
    LRU_update_on_miss LRU_Policy_init 0 3 = Ret p' ∧
    lru_stacks p' !! Z.to_nat 0 = Some ranks' ∧
    ranks' ≡ₚ seqZ 0 WAYS ∧
    ranks' !! Z.to_nat 3 = Some 0 ∧
    (∀ w r, w ≠ Z.to_nat 3 → ranks !! w = Some r →
       ranks' !! w = Some (if r <? old_pos then r + 1 else r)) ∧
    (∀ j, j ≠ Z.to_nat 0 →
       lru_stacks p' !! j = lru_stacks LRU_Policy_init !! j).
Proof.
  apply (lru_ranks_permutation LRU_Policy_init 0 3 CacheLine_default).
  - exact LRU_reach_init.
  - unfold NUM_SETS. lia.
  - unfold WAYS. lia.
Defined.

(** C4. On a COALESCE policy object with a well-formed brain, for a set
    whose ways are all valid: when way [A] holds a Modified line, way [B]
    holds a line that is not Modified, and the brain predicts the same raw
    score for both, [find_victim] returns a way of the set other than
    [A]. *)
Theorem coalesce_modified_not_evicted (p : COALESCE_Policy) (set_idx : Z)
    (set : list CacheLine) (cpc csh : Z) (cst : MESI_State)
    (A B : nat) (lA lB : CacheLine) :
  COALESCE_ok p → 0 ≤ set_idx < NUM_SETS →
  length set = Z.to_nat WAYS →
  (∀ y ly, set !! y = Some ly → valid ly = true) →
  set !! A = Some lA → set !! B = Some lB →
  state lA = MODIFIED → state lB ≠ MODIFIED →
  predict (brain p) (pc lA) (sharers lA) (state lA) =
    predict (brain p) (pc lB) (sharers lB) (state lB) →
  ∃ (v : nat) p',
    COALESCE_find_victim p set_idx set cpc csh cst = Ret (Z.of_nat v, p') ∧
    (v < Z.to_nat WAYS)%nat ∧ v ≠ A.
Proof.
  intros Hok Hs Hlen Hall HA HB HmA HmB Hraw.
  destruct (COALESCE_find_victim_full p (Z.to_nat set_idx) set cpc csh cst
              Hok Hlen ltac:(lia) Hall)
    as (x & lx & mv & s & ring & b' & Hlx & Hmv & Hmin & _ & _ & _ & _ & Hfind).
  rewrite Z2Nat.id in Hfind by lia.
  eexists x, _. split_and!; [exact Hfind | |].
  - apply lookup_lt_Some in Hlx. lia.
  - intros ->. assert (lx = lA) as -> by congruence.
    destruct Hok as (Hbrain & _).
    destruct (adjusted_vote_total (brain p) lA Hbrain) as (rA & HpA & HvA & _).
    destruct (adjusted_vote_total (brain p) lB Hbrain) as (rB & HpB & HvB & _).
    assert (rA = rB) as -> by congruence.
    destruct (Hmin _ _ HB) as (vote & Hvote & Hle & _).
    rewrite HvA in Hmv. rewrite HvB in Hvote.
    injection Hmv as <-. injection Hvote as <-.
    rewrite HmA in Hle. cbn [is_MODIFIED] in Hle.
    destruct (state lB); try done; cbn [is_MODIFIED] in Hle;
      destruct (sharers lA >? 2), (sharers lB >? 2); lia.
Qed.

Lemma coalesce_modified_not_evicted_witness :
  ∃ (v : nat) p',
    COALESCE_find_victim (COALESCE_Policy_init PerceptronBrain_init) 0
      example_full_set 0xBAD 0 EXCLUSIVE = Ret (Z.of_nat v, p') ∧
    (v < Z.to_nat WAYS)%nat ∧ v ≠ 0%nat.
Proof.
  apply (coalesce_modified_not_evicted
           (COALESCE_Policy_init PerceptronBrain_init) 0 example_full_set
           0xBAD 0 EXCLUSIVE 0 1
           (fresh_line 100 1 0 MODIFIED) (fresh_line 101 2 0 SHARED)).
  - apply COALESCE_ok_init, PerceptronBrain_init_ok.
  - unfold NUM_SETS. lia.
  - reflexivity.
  - apply Forall_lookup. unfold example_full_set. by repeat constructor.
  - reflexivity.
  - reflexivity.
  - reflexivity.
  - discriminate.
  - vm_compute. reflexivity.
Defined.

(** ** The sampler's records *)

Lemma forallb_valid_lookup (set : list CacheLine) :
  forallb valid set = true ↔ ∀ y ly, set !! y = Some ly → valid ly = true.
Proof.
  rewrite forallb_forall. split.
  - intros Hall y ly Hly. apply Hall, list_elem_of_In.
    by eapply list_elem_of_lookup_2.
  - intros Hall l [y Hy]%list_elem_of_In%list_elem_of_lookup_1. by eapply Hall.
Qed.

Lemma existsb_hit_lookup tg (set : list CacheLine) :
  existsb (is_hit tg) set = true ↔
  ∃ w line, set !! w = Some line ∧ is_hit tg line = true.
Proof.
  rewrite existsb_exists. split.
  - intros (l & [w Hw]%list_elem_of_In%list_elem_of_lookup_1 & Hh). eauto.
  - intros (w & l & Hw & Hh). exists l. split; [| done].
    apply list_elem_of_In. by eapply list_elem_of_lookup_2.
Qed.

Lemma COALESCE_update_on_hit_samplers p set_idx way line p' :
  COALESCE_update_on_hit p set_idx way line = Ret p' →
  samplers p' = samplers p.
Proof.
  unfold COALESCE_update_on_hit.
  intros (s & _ & Hrest)%bind_Ret_inv. destruct s.
  - apply bind_Ret_inv in Hrest as (b & _ & [= <-]). done.
  - by injection Hrest as <-.
Qed.

Lemma inv_ring_only_grows (fuel : nat) (s : Simulator COALESCE_Policy) :
  (4 ≤ fuel)%nat → sim_inv s → ring_only_grows fuel s.
Proof.
  intros Hfuel Hinv addr cpc csh cst.
  destruct (access_inv fuel s addr cpc csh cst Hinv Hfuel) as (s' & Hacc & _).
  exists s'. split; [done |].
  destruct Hinv as [Hc Hp].
  pose proof (set_index_range addr) as Hr.
  assert (Hidx : set_index addr = Z.of_nat (Z.to_nat (set_index addr)))
    by lia.
  set (i := Z.to_nat (set_index addr)) in *.
  pose proof Hc as [Hclen Hsets].
  destruct (lookup_lt_is_Some_2 (cache s) i) as [set Hset]; [lia |].
  destruct (Hsets _ _ Hset) as (Hslen & _ & _).
  assert (Hother : ∀ j : nat, j ≠ i → evicts_sampled s addr j = false).
  { intros j Hne. unfold evicts_sampled.
    destruct (cache s !! j); [| done].
    destruct (is_sampled (policy s) !! j) as [[|] |]; try done.
    destruct (Z.eqb_spec (Z.of_nat j) (set_index addr)); [lia | done]. }
  assert (Hsame : samplers (policy s') = samplers (policy s) →
            evicts_sampled s addr i = false →
            ∀ (j : nat) ring, samplers (policy s) !! j = Some ring →
              if evicts_sampled s addr j then
                ∃ set (v : nat) victim_line min_vote,
                  cache s !! j = Some set ∧ set !! v = Some victim_line ∧
                  cache s' =
                    <[j := <[v := fresh_line addr cpc csh cst]> set]>
                      (cache s) ∧
                  adjusted_vote (brain (policy s)) victim_line
                    = Ret min_vote ∧
                  (∀ y ly, set !! y = Some ly →
                     ∃ vote, adjusted_vote (brain (policy s)) ly = Ret vote ∧
                             min_vote ≤ vote) ∧
                  samplers (policy s') !! j =
                    Some (ring ++
                          [mkSamplerEntry true (tag victim_line)
                             (pc victim_line) (sharers victim_line)
                             (state victim_line) min_vote])
              else samplers (policy s') !! j = Some ring).
  { intros -> Hno j ring Hring.
    destruct (decide (j = i)) as [-> | Hne];
      [by rewrite Hno | by rewrite (Hother j Hne)]. }
  destruct (hit_or_miss addr set) as [Hhit | Hnone].
  - destruct (access_hit_equation s addr i set Hidx Hset Hslen Hhit)
      as (w & line & _ & _ & _ & Heq).
    rewrite Heq in Hacc.
    apply bind_Ret_inv in Hacc as (p' & Hupd & [= <-]).
    apply Hsame.
    + cbn [policy hit_state]. by eapply COALESCE_update_on_hit_samplers.
    + unfold evicts_sampled. rewrite Hset.
      destruct (is_sampled (policy s) !! i) as [[|] |]; try done.
      rewrite (proj2 (existsb_hit_lookup addr set) Hhit).
      by rewrite andb_false_r.
  - rewrite (access_miss_equation s addr i set Hidx Hset Hslen Hnone) in Hacc.
    destruct (some_invalid_or_all_valid set) as [Hex | Hall].
    + destruct (COALESCE_find_victim_empty (policy s) i set cpc csh cst
                  Hp Hslen Hex) as (v & Hfind & Hv & _).
      cbn [find_victim COALESCE_ReplacementPolicy update_on_miss] in Hacc.
      rewrite Hfind in Hacc. obind_in Hacc.
      rewrite (set_at2_Some _ _ _ _ _ Hset) in Hacc by lia. obind_in Hacc.
      injection Hacc as <-. apply Hsame; [done |].
      unfold evicts_sampled. rewrite Hset.
      destruct (is_sampled (policy s) !! i) as [[|] |]; try done.
      destruct (forallb valid set) eqn:E; [| by rewrite andb_false_r].
      exfalso. destruct Hex as (a & la & Ha & Hinv).
      rewrite (proj1 (forallb_valid_lookup set) E _ _ Ha) in Hinv. done.
    + destruct (COALESCE_find_victim_full (policy s) i set cpc csh cst
                  Hp Hslen ltac:(lia) Hall)
        as (x & lx & mv & smp & ring0 & b' & Hlx & Hmv & Hmin & Hs & Hring0
            & _ & _ & Hfind).
      cbn [find_victim COALESCE_ReplacementPolicy update_on_miss] in Hacc.
      rewrite Hfind in Hacc. obind_in Hacc.
      rewrite (set_at2_Some _ _ _ _ _ Hset) in Hacc
        by (apply lookup_lt_Some in Hlx; lia).
      obind_in Hacc. injection Hacc as <-. cbn [policy cache].
      destruct smp.
      * intros j ring Hring. cbn [samplers].
        destruct (decide (j = i)) as [-> | Hne].
        -- assert (ring = ring0) as -> by congruence.
           assert (Hev : evicts_sampled s addr i = true).
           { unfold evicts_sampled. rewrite Hset, Hs.
             destruct (Z.eqb_spec (Z.of_nat i) (set_index addr)); [| lia].
             rewrite (proj2 (forallb_valid_lookup set) Hall).
             destruct (existsb (is_hit addr) set) eqn:E; [| done].
             apply existsb_hit_lookup in E as (w & l & Hw & Hh).
             by rewrite (Hnone _ _ Hw) in Hh. }
           rewrite Hev. exists set, x, lx, mv.
           split_and!; [done | done | done | done | |].
           ++ intros y ly Hly.
              destruct (Hmin y ly Hly) as (vote & Hvote & Hle & _).
              by exists vote.
           ++ by rewrite list_lookup_insert_eq by (by eapply lookup_lt_Some).
        -- rewrite (Hother j Hne).
           by rewrite list_lookup_insert_ne by done.
      * apply Hsame; [done |].
        unfold evicts_sampled. by rewrite Hset, Hs.
Qed.

(** C2, as the claim states it, fails: set 0 is sampled, and after nine
    accesses with nine different tags in set 0 (eight installs and one
    eviction) its list of records holds nine entries, more than
    SAMPLER_SIZE = 8; the eight entries it started with are all still
    there, in front of the record of the eviction.  After seventeen such
    accesses it holds seventeen entries, nine of them records of
    evictions. *)
Lemma sampler_exceeds_capacity :
  is_sampled (COALESCE_Policy_init PerceptronBrain_init) !! 0%nat = Some true ∧
  (s ← run 4 (Simulator_init (COALESCE_Policy_init PerceptronBrain_init))
         nine_lines_in_set_0;
   at_ (samplers (policy s)) 0) =
    Ret (replicate 8 SamplerEntry_default ++
         [mkSamplerEntry true 0 0xBAD 0 EXCLUSIVE 0]) ∧
  (s ← run 4 (Simulator_init (COALESCE_Policy_init PerceptronBrain_init))
         nine_lines_in_set_0;
   sampler_length (policy s) 0) = Ret 9%nat ∧
  ¬ (Z.of_nat 9 ≤ SAMPLER_SIZE) ∧
  (s ← run 4 (Simulator_init (COALESCE_Policy_init PerceptronBrain_init))
         seventeen_lines_in_set_0;
   ring ← at_ (samplers (policy s)) 0;
   Ret (length ring, length (filter (λ e, se_valid e = true) ring)))
    = Ret (17%nat, 9%nat).
Proof.
  split_and!; [reflexivity | vm_compute; reflexivity | vm_compute; reflexivity
              | unfold SAMPLER_SIZE; lia | vm_compute; reflexivity].
Qed.

(** C2, as the code has it. Under COALESCE every set's list of records
    starts as SAMPLER_SIZE default entries; after every trace, the next
    access returns and leaves each list as it was with nothing dropped,
    plus exactly one record at the end when the access is a miss in that
    set, the set is sampled and all its ways are valid: the record of the
    line that the access replaces (its tag, pc, sharers and state) with
    its adjusted vote, the minimum over the set. *)
Theorem sampler_ring_only_grows (fuel : nat) (b : PerceptronBrain) :
  (4 ≤ fuel)%nat → brain_ok b →
  (∀ j, (j < Z.to_nat NUM_SETS)%nat →
     samplers (COALESCE_Policy_init b) !! j =
       Some (replicate (Z.to_nat SAMPLER_SIZE) SamplerEntry_default)) ∧
  always fuel (Simulator_init (COALESCE_Policy_init b)) (ring_only_grows fuel).
Proof.
  intros Hfuel Hb. split.
  - intros j Hj. unfold COALESCE_Policy_init. cbn [samplers].
    by apply lookup_replicate_2.
  - apply always_from_inv; [by apply sim_inv_init_COALESCE | done |].
    intros sim. by apply inv_ring_only_grows.
Qed.

Lemma sampler_ring_only_grows_witness :
  (∀ j, (j < Z.to_nat NUM_SETS)%nat →
     samplers (COALESCE_Policy_init PerceptronBrain_init) !! j =
       Some (replicate (Z.to_nat SAMPLER_SIZE) SamplerEntry_default)) ∧
  always 4 (Simulator_init (COALESCE_Policy_init PerceptronBrain_init))
    (ring_only_grows 4).
Proof.
  apply (sampler_ring_only_grows 4 PerceptronBrain_init).
  - lia.
  - apply PerceptronBrain_init_ok.
Defined.

(** ** The counters behind the hit rate *)

Lemma int_add_small (a b : Z) :
  0 ≤ a + b ≤ INT_MAX → int_add a b = a + b.
Proof.
  unfold int_add, wrap_i32, INT_MAX. intros Hr.
  rewrite Z.mod_small; lia.
Qed.

Section Counters.
Context {P : Type} `{PolicyLaws P}.

Lemma access_counts (fuel : nat) (sim sim' : Simulator P) addr cpc csh cst :
  sim_inv sim → access fuel sim addr cpc csh cst = Ret sim' →
  (hits sim' = hits sim + 1 ∧ misses sim' = misses sim) ∨
  (hits sim' = hits sim ∧ misses sim' = misses sim + 1).
Proof.
  intros [[Hclen Hsets] _] Hacc.
  pose proof (set_index_range addr) as Hr.
  assert (Hidx : set_index addr = Z.of_nat (Z.to_nat (set_index addr)))
    by lia.
  set (i := Z.to_nat (set_index addr)) in *.
  destruct (lookup_lt_is_Some_2 (cache sim) i) as [set Hset]; [lia |].
  destruct (Hsets _ _ Hset) as (Hslen & _ & _).
  destruct (hit_or_miss addr set) as [Hhit | Hnone].
  - destruct (access_hit_equation sim addr i set Hidx Hset Hslen Hhit)
      as (w & line & _ & _ & _ & Heq).
    rewrite Heq in Hacc. apply bind_Ret_inv in Hacc as (p' & _ & [= <-]).
    by left.
  - rewrite (access_miss_equation sim addr i set Hidx Hset Hslen Hnone) in Hacc.
    apply bind_Ret_inv in Hacc as ([v p1] & _ & Hacc).
    apply bind_Ret_inv in Hacc as (c' & _ & Hacc).
    apply bind_Ret_inv in Hacc as (p2 & _ & [= <-]).
    by right.
Qed.

Lemma run_counts (fuel : nat) (trace : list request) :
  ∀ (sim : Simulator P) (n : nat),
  sim_inv sim → (4 ≤ fuel)%nat → counted n sim →
  ∃ sim', run fuel sim trace = Ret sim' ∧ counted (n + length trace) sim'.
Proof.
  induction trace as [| r trace IH]; intros sim n Hinv Hfuel Hn; simpl.
  - exists sim. split; [done |]. by rewrite Nat.add_0_r.
  - destruct (access_inv fuel sim (r_addr r) (r_pc r) (r_sharers r)
                (r_state r) Hinv Hfuel) as (sim1 & Hacc & Hinv1).
    rewrite Hacc. obind.
    destruct (IH sim1 (S n) Hinv1 Hfuel) as (sim' & Hrun & Hcount).
    + destruct Hn as (? & ? & ?).
      destruct (access_counts _ _ _ _ _ _ _ Hinv Hacc) as [[Hh Hm] | [Hh Hm]];
        unfold counted; lia.
    + exists sim'. split; [done |].
      by replace (n + S (length trace))%nat with (S n + length trace)%nat
        by lia.
Qed.

End Counters.

(** C1, as the code has it. [print_stats] has no zero-access case: the hit
    rate it prints is the quotient [100.0 * hits / (hits + misses)] whatever
    the counters are.  For each of the three policies, a run of [n]
    accesses, [n] at most [INT_MAX], returns with non-negative counters
    that add up to [n], and so does their [int] sum: the divisor is the
    number of accesses performed and is positive as soon as there was
    one. *)
Theorem hit_rate_divides_by_access_count (fuel : nat) (trace : list request) :
  (4 ≤ fuel)%nat → Z.of_nat (length trace) ≤ INT_MAX →
  (∃ sim, run fuel (Simulator_init LRU_Policy_init) trace = Ret sim ∧
     counted (length trace) sim ∧
     int_add (hits sim) (misses sim) = Z.of_nat (length trace) ∧
     st_hit_rate (print_stats sim) = hit_rate_of (hits sim) (misses sim)) ∧
  (∃ sim, run fuel (Simulator_init SRRIP_Policy_init) trace = Ret sim ∧
     counted (length trace) sim ∧
     int_add (hits sim) (misses sim) = Z.of_nat (length trace) ∧
     st_hit_rate (print_stats sim) = hit_rate_of (hits sim) (misses sim)) ∧
  (∀ b, brain_ok b →
     ∃ sim, run fuel (Simulator_init (COALESCE_Policy_init b)) trace = Ret sim ∧
       counted (length trace) sim ∧
       int_add (hits sim) (misses sim) = Z.of_nat (length trace) ∧
       st_hit_rate (print_stats sim) = hit_rate_of (hits sim) (misses sim)).
Proof.
  intros Hfuel Hbound.
  assert (Hzero : ∀ P (p : P), counted 0 (Simulator_init p))
    by (intros; unfold counted, Simulator_init; cbn [hits misses]; lia).
  assert (Hsum : ∀ P (sim : Simulator P), counted (length trace) sim →
            int_add (hits sim) (misses sim) = Z.of_nat (length trace)).
  { intros P sim (_ & _ & Hn). rewrite int_add_small; lia. }
  split_and!; [| | intros b Hb].
  - destruct (run_counts fuel trace _ 0%nat sim_inv_init_LRU Hfuel (Hzero _ _))
      as (sim & Hrun & Hcount).
    exists sim. split_and!; [done | done | by apply Hsum | done].
  - destruct (run_counts fuel trace _ 0%nat sim_inv_init_SRRIP Hfuel
                (Hzero _ _)) as (sim & Hrun & Hcount).
    exists sim. split_and!; [done | done | by apply Hsum | done].
  - destruct (run_counts fuel trace _ 0%nat (sim_inv_init_COALESCE b Hb) Hfuel
                (Hzero _ _)) as (sim & Hrun & Hcount).
    exists sim. split_and!; [done | done | by apply Hsum | done].
Qed.

Lemma hit_rate_divides_by_access_count_witness :
  (∃ sim, run 4 (Simulator_init LRU_Policy_init) nine_lines_in_set_0 = Ret sim ∧
     counted (length nine_lines_in_set_0) sim ∧
     int_add (hits sim) (misses sim) = Z.of_nat (length nine_lines_in_set_0) ∧
     st_hit_rate (print_stats sim) = hit_rate_of (hits sim) (misses sim)) ∧
  (∃ sim, run 4 (Simulator_init SRRIP_Policy_init) nine_lines_in_set_0
            = Ret sim ∧
     counted (length nine_lines_in_set_0) sim ∧
     int_add (hits sim) (misses sim) = Z.of_nat (length nine_lines_in_set_0) ∧
     st_hit_rate (print_stats sim) = hit_rate_of (hits sim) (misses sim)) ∧
  (∀ b, brain_ok b →
     ∃ sim, run 4 (Simulator_init (COALESCE_Policy_init b))
              nine_lines_in_set_0 = Ret sim ∧
       counted (length nine_lines_in_set_0) sim ∧
       int_add (hits sim) (misses sim)
         = Z.of_nat (length nine_lines_in_set_0) ∧
       st_hit_rate (print_stats sim) = hit_rate_of (hits sim) (misses sim)).
Proof.
  apply (hit_rate_divides_by_access_count 4 nine_lines_in_set_0).
  - lia.
  - vm_compute. discriminate.
Defined.

(** * Further properties of the code *)

(** ** The signature hash *)

Lemma low12_lxor a b : Z.lxor a b mod 4096 = Z.lxor (a mod 4096) (b mod 4096).
Proof.
  change 4096 with (2 ^ 12). rewrite <- !Z.land_ones by lia.
  apply Z.bits_inj'. intros n Hn.
  rewrite !Z.lxor_spec, !Z.land_spec, !Z.lxor_spec.
  by destruct (Z.testbit a n), (Z.testbit b n), (Z.testbit (Z.ones 12) n).
Qed.

Lemma low12_mod x k : 0 < k → (x mod (k * 4096)) mod 4096 = x mod 4096.
Proof.
  intros Hk. rewrite (Z.div_mod x (k * 4096)) at 2 by lia.
  rewrite Z.add_comm.
  replace (k * 4096 * (x / (k * 4096))) with (k * (x / (k * 4096)) * 4096)
    by lia.
  by rewrite Z.mod_add by lia.
Qed.

Lemma low12_to_u64 x : to_u64 x mod 4096 = x mod 4096.
Proof.
  unfold to_u64. change (2 ^ 64) with (2 ^ 52 * 4096).
  by apply low12_mod.
Qed.

Lemma low12_wrap_i32 x : wrap_i32 x mod 4096 = x mod 4096.
Proof.
  unfold wrap_i32. rewrite Zminus_mod.
  change (2 ^ 32) with (2 ^ 20 * 4096).
  rewrite (low12_mod (x + 2 ^ 31) (2 ^ 20) eq_refl).
  rewrite <- Zminus_mod. f_equal. lia.
Qed.

(** The hash without its width conversions: only the low 12 bits of [pc]
    and of [sharers << 4] take part. *)
Lemma get_hash_low_bits pc sh st :
  get_hash pc sh st =
  Z.lxor (Z.lxor (Z.lxor (pc mod 4096) ((sh * 16) mod 4096))
            (MESI_value st * 256)) 0x9b9.
Proof.
  unfold get_hash, PERCEPTRON_TABLE_SIZE.
  rewrite !low12_lxor, !low12_to_u64, !low12_wrap_i32.
  rewrite !Z.shiftl_mul_pow2 by lia.
  change (2 ^ 4) with 16. change (2 ^ 8) with 256.
  by destruct st.
Qed.

Lemma lxor_cancel_r a b c : Z.lxor a c = Z.lxor b c → a = b.
Proof.
  intros Heq. apply (f_equal (λ x, Z.lxor x c)) in Heq.
  by rewrite !Z.lxor_assoc, !Z.lxor_nilpotent, !Z.lxor_0_r in Heq.
Qed.

Lemma lxor_cancel_l a b c : Z.lxor c a = Z.lxor c b → a = b.
Proof. rewrite !(Z.lxor_comm c). apply lxor_cancel_r. Qed.

(** X1. When two signatures differ in one component only, their hashes
    collide exactly when the two instruction addresses agree modulo 4096,
    resp. the two sharer counts agree modulo 256; two different coherence
    states never collide. *)
Theorem get_hash_collisions pc1 sh1 st1 pc2 sh2 st2 :
  (get_hash pc1 sh1 st1 = get_hash pc2 sh1 st1 ↔ pc1 mod 4096 = pc2 mod 4096) ∧
  (get_hash pc1 sh1 st1 = get_hash pc1 sh2 st1 ↔ sh1 mod 256 = sh2 mod 256) ∧
  (get_hash pc1 sh1 st1 = get_hash pc1 sh1 st2 ↔ st1 = st2).
Proof.
  rewrite !get_hash_low_bits. split_and!; split.
  - by intros ?%lxor_cancel_r%lxor_cancel_r%lxor_cancel_r.
  - by intros ->.
  - intros Heq%lxor_cancel_r%lxor_cancel_r%lxor_cancel_l.
    change 4096 with (256 * 16) in Heq.
    rewrite !Z.mul_mod_distr_r in Heq by lia. lia.
  - intros Heq. change 4096 with (256 * 16).
    rewrite !Z.mul_mod_distr_r by lia. by rewrite Heq.
  - intros Heq%lxor_cancel_r%lxor_cancel_l.
    destruct st1, st2; simpl in Heq; done || lia.
  - by intros ->.
Qed.

(** ** Training and prediction *)

(** X2. On a well-formed brain, [train] returns; afterwards [predict] on
    the trained signature returns the old weight moved one step towards
    the bound (and left alone at the bound), on every signature that hashes
    elsewhere it returns what it returned before, and a signature that
    collides with the trained one sees the same new weight. *)
Theorem train_then_predict (b : PerceptronBrain) (tpc tsh : Z)
    (tst : MESI_State) (positive : bool) :
  brain_ok b →
  ∃ w b',
    predict b tpc tsh tst = Ret w ∧
    train b tpc tsh tst positive = Ret b' ∧
    brain_ok b' ∧
    predict b' tpc tsh tst =
      Ret (if positive then Z.min 127 (w + 1) else Z.max (-128) (w - 1)) ∧
    ∀ qpc qsh qst,
      predict b' qpc qsh qst =
        if decide (get_hash qpc qsh qst = get_hash tpc tsh tst)
        then predict b' tpc tsh tst
        else predict b qpc qsh qst.
Proof.
  intros Hok.
  destruct (train_step b tpc tsh tst positive Hok) as (w & Hw & Htrain).
  destruct (train_ok b tpc tsh tst positive Hok) as (b' & Htrain' & Hok').
  destruct (predict_total b tpc tsh tst Hok) as (w' & Hw' & Hr).
  assert (w' = w) as -> by congruence.
  exists w, b'. split_and!; try done.
  - rewrite Htrain in Htrain'. injection Htrain' as <-.
    unfold predict. cbn [weights].
    pose proof (get_hash_range tpc tsh tst) as Hh.
    rewrite at_in_range, list_lookup_insert_eq by (destruct Hok; lia).
    f_equal. unfold trained_weight.
    destruct positive;
      [destruct (Z.ltb_spec w 127) | destruct (Z.gtb_spec w (-128))]; lia.
  - intros qpc qsh qst. case_decide as Hq.
    + unfold predict. by rewrite Hq.
    + rewrite Htrain in Htrain'. injection Htrain' as <-.
      unfold predict. cbn [weights].
      pose proof (get_hash_range tpc tsh tst) as Hh.
      pose proof (get_hash_range qpc qsh qst) as Hh'.
      rewrite !at_in_range, list_lookup_insert_ne by lia. done.
Qed.

Lemma train_then_predict_witness :
  ∃ w b',
    predict PerceptronBrain_init 0xBAD 0 EXCLUSIVE = Ret w ∧
    train PerceptronBrain_init 0xBAD 0 EXCLUSIVE false = Ret b' ∧
    brain_ok b' ∧
    predict b' 0xBAD 0 EXCLUSIVE =
      Ret (if false then Z.min 127 (w + 1) else Z.max (-128) (w - 1)) ∧
    ∀ qpc qsh qst,
      predict b' qpc qsh qst =
        if decide (get_hash qpc qsh qst = get_hash 0xBAD 0 EXCLUSIVE)
        then predict b' 0xBAD 0 EXCLUSIVE
        else predict PerceptronBrain_init qpc qsh qst.
Proof.
  apply (train_then_predict PerceptronBrain_init 0xBAD 0 EXCLUSIVE false).
  apply PerceptronBrain_init_ok.
Defined.

(** X3. Reward then penalty (or penalty then reward) on the same signature
    gives back the very same brain as long as the first step is not cut
    off by saturation, that is when the weight is below 127 (resp. above
    -128). *)
Theorem train_up_down_restores (b : PerceptronBrain) (tpc tsh : Z)
    (tst : MESI_State) (w : Z) (first : bool) :
  brain_ok b → predict b tpc tsh tst = Ret w →
  (if first then w < 127 else -128 < w) →
  (b1 ← train b tpc tsh tst first; train b1 tpc tsh tst (negb first)) = Ret b.
Proof.
  intros Hok Hw Hroom.
  destruct (predict_total b tpc tsh tst Hok) as (w0 & Hw0 & Hrange).
  assert (w0 = w) as -> by congruence. clear Hw0.
  destruct (train_step b tpc tsh tst first Hok) as (w1 & Hw1 & ->).
  assert (w1 = w) as -> by congruence. obind.
  set (b1 := mkBrain _).
  assert (Hok1 : brain_ok b1).
  { destruct (train_ok b tpc tsh tst first Hok) as (b' & Hb' & Hok').
    destruct (train_step b tpc tsh tst first Hok) as (w' & Hw' & Heq).
    assert (w' = w) as -> by congruence.
    rewrite Heq in Hb'. injection Hb' as <-. exact Hok'. }
  pose proof (get_hash_range tpc tsh tst) as Hh.
  unfold predict in Hw. rewrite at_in_range in Hw by lia.
  destruct (weights b !! Z.to_nat (get_hash tpc tsh tst)) as [w0 |] eqn:Hlook;
    [| done].
  injection Hw as ->.
  destruct (train_step b1 tpc tsh tst (negb first) Hok1) as (w2 & Hw2 & ->).
  unfold predict, b1 in Hw2. cbn [weights] in Hw2.
  rewrite at_in_range, list_lookup_insert_eq in Hw2
    by (lia || by eapply lookup_lt_Some).
  injection Hw2 as <-. unfold b1. cbn [weights].
  rewrite list_insert_insert_eq. destruct b as [ws]. cbn [weights] in *.
  do 2 f_equal. apply list_insert_id. rewrite Hlook. f_equal.
  unfold trained_weight.
  destruct first; cbn [negb]; cbn beta iota in Hroom;
    repeat match goal with
           | |- context [?a <? ?c] => destruct (Z.ltb_spec a c)
           | |- context [?a >? ?c] => destruct (Z.gtb_spec a c)
           end; lia.
Qed.

Lemma train_up_down_restores_witness :
  (b1 ← train PerceptronBrain_init 0xF00D 4 MODIFIED true;
   train b1 0xF00D 4 MODIFIED (negb true)) = Ret PerceptronBrain_init.
Proof.
  apply (train_up_down_restores PerceptronBrain_init 0xF00D 4 MODIFIED 0 true).
  - apply PerceptronBrain_init_ok.
  - vm_compute. reflexivity.
  - cbn. lia.
Defined.

(** ** One access, case by case *)

Lemma for_each_policy_laws
    (Q : ∀ P, ReplacementPolicy P → Simulator P → Prop) :
  (∀ P (R : ReplacementPolicy P) (L : PolicyLaws P) (init : Simulator P),
     sim_inv init → Q P R init) →
  for_each_policy Q.
Proof.
  intros HQ. split_and!.
  - apply (HQ _ _ _ _ sim_inv_init_LRU).
  - apply (HQ _ _ _ _ sim_inv_init_SRRIP).
  - intros b Hb. apply (HQ _ _ _ _ (sim_inv_init_COALESCE b Hb)).
Qed.

Lemma for_each_policy_init
    (Q : ∀ P, ReplacementPolicy P → Simulator P → Prop) :
  (∀ P (R : ReplacementPolicy P) (L : PolicyLaws P) (p : P),
     sim_inv (Simulator_init p) → Q P R (Simulator_init p)) →
  for_each_policy Q.
Proof.
  intros HQ. split_and!.
  - apply (HQ _ _ _ _ sim_inv_init_LRU).
  - apply (HQ _ _ _ _ sim_inv_init_SRRIP).
  - intros b Hb. apply (HQ _ _ _ _ (sim_inv_init_COALESCE b Hb)).
Qed.

Lemma run_app {P} `{ReplacementPolicy P} (fuel : nat) (t1 t2 : list request) :
  ∀ sim : Simulator P,
    run fuel sim (t1 ++ t2) = (s ← run fuel sim t1; run fuel s t2).
Proof.
  induction t1 as [| r t1 IH]; intros sim; simpl; [done |].
  destruct (access fuel sim (r_addr r) (r_pc r) (r_sharers r) (r_state r));
    obind; [apply IH | done..].
Qed.

Section AccessCases.
Context {P : Type} `{PolicyLaws P}.

Lemma access_cases (fuel : nat) (sim : Simulator P) addr cpc csh cst :
  sim_inv sim → (4 ≤ fuel)%nat →
  ∃ (i : nat) set sim',
    set_index addr = Z.of_nat i ∧ cache sim !! i = Some set ∧
    length set = Z.to_nat WAYS ∧
    access fuel sim addr cpc csh cst = Ret sim' ∧ sim_inv sim' ∧
    (hit_step sim sim' addr i set ∨
     miss_step fuel sim sim' addr cpc csh cst i set).
Proof.
  intros Hinv Hfuel.
  destruct (access_inv fuel sim addr cpc csh cst Hinv Hfuel)
    as (sim' & Hacc & Hinv').
  destruct Hinv as [Hc Hp].
  pose proof (set_index_range addr) as Hr.
  assert (Hidx : set_index addr = Z.of_nat (Z.to_nat (set_index addr)))
    by lia.
  set (i := Z.to_nat (set_index addr)) in *.
  pose proof Hc as [Hclen Hsets].
  destruct (lookup_lt_is_Some_2 (cache sim) i) as [set Hset]; [lia |].
  destruct (Hsets _ _ Hset) as (Hslen & _ & _).
  exists i, set, sim'. split_and!; try done.
  destruct (hit_or_miss addr set) as [Hhit | Hnone].
  - left.
    destruct (access_hit_equation sim addr i set Hidx Hset Hslen Hhit)
      as (w & line & Hline & Hh & _ & Heq).
    rewrite Heq in Hacc. apply bind_Ret_inv in Hacc as (p' & Hupd & [= <-]).
    apply is_hit_inv in Hh as [Hv Ht].
    exists w, line. by split_and!.
  - right. split; [done |].
    rewrite (access_miss_equation sim addr i set Hidx Hset Hslen Hnone) in Hacc.
    destruct (policy_miss_ok fuel (policy sim) (cache sim) i set cpc csh cst
                Hc Hp Hset Hfuel)
      as (v & p1 & p2 & Hfind & Hv & Hfirst & Hmiss & _).
    rewrite Hfind in Hacc. obind_in Hacc.
    rewrite (set_at2_Some _ _ _ _ _ Hset) in Hacc by lia. obind_in Hacc.
    rewrite Hmiss in Hacc. obind_in Hacc. injection Hacc as <-.
    exists v, p1. by split_and!.
Qed.

(** An invariant that may mention the accesses made so far is kept by
    [run] when every single access keeps it. *)
Lemma run_ghost (fuel : nat) (Q : list request → Simulator P → Prop)
    (trace : list request) :
  (4 ≤ fuel)%nat →
  (∀ done sim r sim', sim_inv sim → Q done sim →
     access fuel sim (r_addr r) (r_pc r) (r_sharers r) (r_state r) = Ret sim' →
     Q (done ++ [r]) sim') →
  ∀ done sim, sim_inv sim → Q done sim →
    ∃ sim', run fuel sim trace = Ret sim' ∧ sim_inv sim' ∧
            Q (done ++ trace) sim'.
Proof.
  intros Hfuel Hstep.
  induction trace as [| r trace IH]; intros done sim Hinv HQ; simpl.
  - exists sim. by rewrite app_nil_r.
  - destruct (access_inv fuel sim (r_addr r) (r_pc r) (r_sharers r)
                (r_state r) Hinv Hfuel) as (sim1 & Hacc & Hinv1).
    rewrite Hacc. obind.
    destruct (IH (done ++ [r]) sim1 Hinv1) as (sim' & Hrun & Hinv' & HQ').
    { exact (Hstep done sim r sim1 Hinv HQ Hacc). }
    exists sim'. by rewrite <- app_assoc in HQ'.
Qed.

End AccessCases.

(** ** What one access does to the cache and the counters *)

Section AccessFacts.
Context {P : Type} `{PolicyLaws P}.

Lemma access_then_hit (fuel : nat) (sim : Simulator P)
    addr cpc csh cst cpc' csh' cst' :
  sim_inv sim → (4 ≤ fuel)%nat →
  ∃ s1 s2,
    access fuel sim addr cpc csh cst = Ret s1 ∧ sim_inv s1 ∧
    access fuel s1 addr cpc' csh' cst' = Ret s2 ∧
    cache s2 = cache s1 ∧ hits s2 = hits s1 + 1 ∧ misses s2 = misses s1.
Proof.
  intros Hinv Hfuel.
  destruct (access_cases fuel sim addr cpc csh cst Hinv Hfuel)
    as (i & set & s1 & Hidx & Hset & Hslen & Hacc & Hinv1 & Hcase).
  assert (Hin : ∃ set1 w line, cache s1 !! i = Some set1 ∧
            set1 !! w = Some line ∧ is_hit addr line = true).
  { destruct Hcase as [(w & line & Hline & Hv & Ht & _ & ->) |
                       (_ & v & p1 & _ & Hv & _ & _ & ->)].
    - exists set, w, line. split_and!; [done | done |].
      unfold is_hit. by rewrite Hv, Ht, Z.eqb_refl.
    - exists (<[v := fresh_line addr cpc csh cst]> set), v,
        (fresh_line addr cpc csh cst). cbn [cache]. split_and!.
      + apply list_lookup_insert_eq. by eapply lookup_lt_Some.
      + apply list_lookup_insert_eq. lia.
      + unfold is_hit, fresh_line. cbn. by rewrite Z.eqb_refl. }
  destruct Hin as (set1 & w & line & Hset1 & Hline & Hhit).
  destruct (access_cases fuel s1 addr cpc' csh' cst' Hinv1 Hfuel)
    as (i' & set' & s2 & Hidx' & Hset' & _ & Hacc' & _ & Hcase').
  assert (i' = i) as -> by lia.
  assert (set' = set1) as -> by congruence.
  exists s1, s2. split_and!; try done;
    destruct Hcase' as [(w' & line' & _ & _ & _ & _ & ->) | (Hnone & _)];
    try done; by rewrite (Hnone _ _ Hline) in Hhit.
Qed.

Lemma lines_from_step (fuel : nat) (done : list request)
    (sim sim' : Simulator P) (r : request) :
  (4 ≤ fuel)%nat → sim_inv sim → lines_from done sim →
  access fuel sim (r_addr r) (r_pc r) (r_sharers r) (r_state r) = Ret sim' →
  lines_from (done ++ [r]) sim'.
Proof.
  intros Hfuel Hinv Hfrom Hacc.
  destruct (access_cases fuel sim (r_addr r) (r_pc r) (r_sharers r)
              (r_state r) Hinv Hfuel)
    as (i & set & s1 & Hidx & Hset & Hslen & Hacc1 & _ & Hcase).
  assert (s1 = sim') as -> by congruence.
  assert (Hold : ∀ (j w : nat) setj line,
            cache sim !! j = Some setj → setj !! w = Some line →
            valid line = true →
            set_index (tag line) = Z.of_nat j ∧
            ∃ r0, r0 ∈ done ++ [r] ∧
              line = fresh_line (r_addr r0) (r_pc r0) (r_sharers r0)
                       (r_state r0)).
  { intros j w setj line Hj Hw Hv.
    destruct (Hfrom j w setj line Hj Hw Hv) as (Hs & r0 & Hr0 & Hl).
    split; [done |]. exists r0. split; [| done].
    apply elem_of_app. by left. }
  destruct Hcase as [(w & line & _ & _ & _ & _ & ->) |
                     (_ & v & p1 & _ & Hv & _ & _ & ->)].
  - exact Hold.
  - intros j w setj line. cbn [cache].
    intros [(-> & <- & _) | [_ Hj]]%list_lookup_insert_Some;
      [| by apply Hold].
    intros [(-> & <- & _) | [_ Hw]]%list_lookup_insert_Some;
      [| by eapply Hold].
    intros _. split; [done |]. exists r. split; [| done].
    apply elem_of_app. right. by apply list_elem_of_singleton.
Qed.

Lemma lines_from_init (p : P) : lines_from [] (Simulator_init p).
Proof.
  intros i w set line Hset Hline Hv.
  destruct (init_set_all_invalid p i w set line Hset Hline) as [-> _]. done.
Qed.

Lemma run_lines_from (fuel : nat) (trace : list request) (sim : Simulator P) :
  (4 ≤ fuel)%nat → sim_inv sim → lines_from [] sim →
  ∃ sim', run fuel sim trace = Ret sim' ∧ sim_inv sim' ∧ lines_from trace sim'.
Proof.
  intros Hfuel Hinv Hfrom.
  apply (run_ghost fuel lines_from trace Hfuel) with (done := []); try done.
  intros done s r s' Hs HQ Hacc. by eapply lines_from_step.
Qed.

Lemma cold_access_misses (fuel : nat) (done : list request)
    (sim : Simulator P) addr cpc csh cst :
  (4 ≤ fuel)%nat → sim_inv sim → lines_from done sim →
  addr ∉ r_addr <$> done →
  ∃ sim', access fuel sim addr cpc csh cst = Ret sim' ∧
          hits sim' = hits sim ∧ misses sim' = misses sim + 1.
Proof.
  intros Hfuel Hinv Hfrom Hnew.
  destruct (access_cases fuel sim addr cpc csh cst Hinv Hfuel)
    as (i & set & s1 & Hidx & Hset & Hslen & Hacc & _ & Hcase).
  exists s1. split; [done |].
  destruct Hcase as [(w & line & Hline & Hv & Ht & _) |
                     (_ & v & p1 & _ & _ & _ & _ & ->)]; [| done].
  exfalso. apply Hnew.
  destruct (Hfrom i w set line Hset Hline Hv) as (_ & r0 & Hr0 & ->).
  cbn in Ht. subst addr. by apply list_elem_of_fmap_2.
Qed.

End AccessFacts.

(** X4. For each of the three policies: after any trace, the address of
    the last access is resident, so accessing it again, with whatever pc,
    sharers and state, is a hit that leaves the cache array as it is. *)
Theorem access_again_hits (fuel : nat) (trace : list request) (r : request)
    (cpc' csh' : Z) (cst' : MESI_State) :
  (4 ≤ fuel)%nat →
  for_each_policy (λ P _ init,
    ∃ s s', run fuel init (trace ++ [r]) = Ret s ∧
      access fuel s (r_addr r) cpc' csh' cst' = Ret s' ∧
      cache s' = cache s ∧ hits s' = hits s + 1 ∧ misses s' = misses s).
Proof.
  intros Hfuel. apply for_each_policy_laws. intros P R L init Hinit.
  destruct (run_inv fuel trace init Hinit Hfuel) as (s0 & Hrun & Hinv0).
  destruct (access_then_hit fuel s0 (r_addr r) (r_pc r) (r_sharers r)
              (r_state r) cpc' csh' cst' Hinv0 Hfuel)
    as (s1 & s2 & Hacc1 & _ & Hacc2 & Hc & Hh & Hm).
  exists s1, s2. split_and!; try done.
  rewrite run_app, Hrun. obind. simpl. by rewrite Hacc1.
Qed.

Lemma access_again_hits_witness :
  for_each_policy (λ P _ init,
    ∃ s s', run 4 init (nine_lines_in_set_0 ++ [mkReq 77 1 2 SHARED]) = Ret s ∧
      access 4 s (r_addr (mkReq 77 1 2 SHARED)) 5 6 MODIFIED = Ret s' ∧
      cache s' = cache s ∧ hits s' = hits s + 1 ∧ misses s' = misses s).
Proof.
  apply (access_again_hits 4 nine_lines_in_set_0 (mkReq 77 1 2 SHARED)
           5 6 MODIFIED).
  lia.
Defined.

(** X5. For each of the three policies, after any trace: an access whose
    address is not resident in its set returns, counts one miss and no hit,
    and changes the cache array in exactly one way of that one set, which
    now holds the valid line made of the incoming tag, pc, sharers and
    state; as long as the set has an invalid way, the way taken is an
    invalid one, so nothing is evicted. *)
Theorem miss_installs_one_line (fuel : nat) (trace : list request)
    (addr cpc csh : Z) (cst : MESI_State) :
  (4 ≤ fuel)%nat →
  for_each_policy (λ P _ init,
    ∃ s, run fuel init trace = Ret s ∧
      ∀ set,
        cache s !! Z.to_nat (set_index addr) = Some set →
        (∀ w line, set !! w = Some line → valid line = true →
           tag line ≠ addr) →
        ∃ (v : nat) s',
          (v < Z.to_nat WAYS)%nat ∧
          access fuel s addr cpc csh cst = Ret s' ∧
          cache s' =
            <[Z.to_nat (set_index addr) :=
                <[v := mkCacheLine true addr cpc csh cst 0 3]> set]>
              (cache s) ∧
          hits s' = hits s ∧ misses s' = misses s + 1 ∧
          coherence_traffic_saved s' = coherence_traffic_saved s ∧
          (∀ a la, set !! a = Some la → valid la = false →
             ∃ lv, set !! v = Some lv ∧ valid lv = false)).
Proof.
  intros Hfuel. apply for_each_policy_laws. intros P R L init Hinit.
  destruct (run_inv fuel trace init Hinit Hfuel) as (s & Hrun & Hinv).
  exists s. split; [done |]. intros set Hset Hnone.
  destruct (access_cases fuel s addr cpc csh cst Hinv Hfuel)
    as (i & set' & s' & Hidx & Hset' & Hslen & Hacc & _ & Hcase).
  rewrite Hidx, Nat2Z.id in *.
  assert (set' = set) as -> by congruence.
  destruct Hcase as [(w & line & Hline & Hv & Ht & _) |
                     (_ & v & p1 & _ & Hv & Hfirst & _ & Heq)].
  - by destruct (Hnone _ _ Hline Hv).
  - exists v, s'. split_and!; try done; try (by rewrite Heq).
    intros a la Ha Hinva. by destruct (Hfirst _ _ Ha Hinva).
Qed.

Lemma miss_installs_one_line_witness :
  for_each_policy (λ P _ init,
    ∃ s, run 4 init nine_lines_in_set_0 = Ret s ∧
      ∀ set,
        cache s !! Z.to_nat (set_index 4242) = Some set →
        (∀ w line, set !! w = Some line → valid line = true →
           tag line ≠ 4242) →
        ∃ (v : nat) s',
          (v < Z.to_nat WAYS)%nat ∧
          access 4 s 4242 1 2 SHARED = Ret s' ∧
          cache s' =
            <[Z.to_nat (set_index 4242) :=
                <[v := mkCacheLine true 4242 1 2 SHARED 0 3]> set]>
              (cache s) ∧
          hits s' = hits s ∧ misses s' = misses s + 1 ∧
          coherence_traffic_saved s' = coherence_traffic_saved s ∧
          (∀ a la, set !! a = Some la → valid la = false →
             ∃ lv, set !! v = Some lv ∧ valid lv = false)).
Proof. apply (miss_installs_one_line 4 nine_lines_in_set_0 4242 1 2 SHARED). lia. Defined.

(** X6. For each of the three policies, after a trace of at most
    [INT_MAX] accesses the coherence-win counter is between 0 and the hit
    counter, which is at most the number of accesses and so at most
    [INT_MAX]: none of the two [int] counters has overflowed. *)
Theorem coherence_wins_at_most_hits (fuel : nat) (trace : list request) :
  (4 ≤ fuel)%nat → Z.of_nat (length trace) ≤ INT_MAX →
  for_each_policy (λ P _ init,
    ∃ s, run fuel init trace = Ret s ∧
         0 ≤ coherence_traffic_saved s ≤ hits s ∧
         hits s ≤ Z.of_nat (length trace) ∧ hits s ≤ INT_MAX).
Proof.
  intros Hfuel Hbound. apply for_each_policy_init. intros P R L p Hinit.
  destruct (run_ghost fuel
              (λ done s, 0 ≤ coherence_traffic_saved s ≤ hits s ∧
                         hits s ≤ Z.of_nat (length done))
              trace Hfuel) with (done := @nil request)
                                (sim := Simulator_init p)
    as (s & Hrun & _ & HQ).
  - intros done s r s' Hinv HQ Hacc.
    destruct (access_cases fuel s (r_addr r) (r_pc r) (r_sharers r)
                (r_state r) Hinv Hfuel)
      as (i & set & s1 & _ & _ & _ & Hacc1 & _ & Hcase).
    assert (s1 = s') as -> by congruence.
    rewrite length_app. cbn [length].
    destruct Hcase as [(w & line & _ & _ & _ & _ & Heq) |
                       (_ & v & p1 & _ & _ & _ & _ & Heq)];
      rewrite Heq; cbn [hit_state hits coherence_traffic_saved];
      [destruct (is_MODIFIED (state line) || (sharers line >? 1)) |]; lia.
  - done.
  - unfold Simulator_init. cbn [hits coherence_traffic_saved length]. lia.
  - rewrite app_nil_l in HQ. exists s. split; [done |]. lia.
Qed.

Lemma coherence_wins_at_most_hits_witness :
  for_each_policy (λ P _ init,
    ∃ s, run 4 init nine_lines_in_set_0 = Ret s ∧
         0 ≤ coherence_traffic_saved s ≤ hits s ∧
         hits s ≤ Z.of_nat (length nine_lines_in_set_0) ∧ hits s ≤ INT_MAX).
Proof.
  apply (coherence_wins_at_most_hits 4 nine_lines_in_set_0).
  - lia.
  - vm_compute. discriminate.
Defined.

Lemma snoc_split {A} (later l1 l2 : list A) (x : A) :
  later ++ [x] = l1 ++ l2 →
  (l2 = [] ∧ l1 = later ++ [x]) ∨
  (∃ l2', l2 = l2' ++ [x] ∧ later = l1 ++ l2').
Proof.
  destruct l2 as [| y l2 _] using rev_ind.
  - rewrite app_nil_r. intros <-. by left.
  - rewrite app_assoc. intros [-> ->]%app_inj_tail. right. by exists l2.
Qed.

Section Installed.
Context {P : Type} `{PolicyLaws P}.

Lemma lines_installed_step (fuel : nat) (init : Simulator P)
    (done : list request) (sim sim' : Simulator P) (r : request) :
  (4 ≤ fuel)%nat → sim_inv sim →
  run fuel init done = Ret sim → lines_installed fuel init done sim →
  access fuel sim (r_addr r) (r_pc r) (r_sharers r) (r_state r) = Ret sim' →
  run fuel init (done ++ [r]) = Ret sim' ∧
  lines_installed fuel init (done ++ [r]) sim'.
Proof.
  intros Hfuel Hinv Hrun Hfrom Hacc.
  assert (Hrun' : run fuel init (done ++ [r]) = Ret sim').
  { rewrite run_app, Hrun. obind. simpl. rewrite Hacc. done. }
  split; [done |].
  destruct (access_cases fuel sim (r_addr r) (r_pc r) (r_sharers r)
              (r_state r) Hinv Hfuel)
    as (i0 & set0 & s1 & Hidx & Hset0 & Hslen & Hacc1 & _ & Hcase).
  assert (s1 = sim') as -> by congruence. clear Hacc1.
  (* a line that was there before the access and is still there *)
  assert (Hold : ∀ (i w : nat) set set' line,
            cache sim !! i = Some set → set !! w = Some line →
            valid line = true →
            cache sim' !! i = Some set' → set' !! w = Some line →
            set_index (tag line) = Z.of_nat i ∧
            ∃ before r0 later,
              done ++ [r] = before ++ r0 :: later ∧
              line = fresh_line (r_addr r0) (r_pc r0) (r_sharers r0)
                       (r_state r0) ∧
              (∃ s0 s1,
                 run fuel init before = Ret s0 ∧
                 access fuel s0 (r_addr r0) (r_pc r0) (r_sharers r0)
                   (r_state r0) = Ret s1 ∧
                 hits s1 = hits s0 ∧ misses s1 = misses s0 + 1) ∧
              ∀ l1 l2, later = l1 ++ l2 →
                ∃ s1 set1,
                  run fuel init (before ++ r0 :: l1) = Ret s1 ∧
                  cache s1 !! i = Some set1 ∧ set1 !! w = Some line).
  { intros i w set set' line Hset Hline Hvalid Hset' Hline'.
    destruct (Hfrom i w set line Hset Hline Hvalid)
      as (Hs & before & r0 & later & Hdone & Hl & Hmiss & Hsince).
    split; [done |].
    exists before, r0, (later ++ [r]). split_and!; [| done | done |].
    - rewrite Hdone, <- app_assoc. done.
    - intros l1 l2 [[-> ->] | (l2' & -> & Hlater)]%snoc_split.
      + exists sim', set'. split_and!; [| done | done].
        rewrite <- Hrun', Hdone, <- app_assoc. done.
      + by apply (Hsince l1 l2'). }
  destruct Hcase as [(w0 & line0 & _ & _ & _ & _ & Heq) |
                     (Hnone & v & p1 & _ & Hv & _ & _ & Heq)].
  - intros i w set line Hset Hline Hvalid.
    assert (Hc : cache sim' = cache sim) by (by rewrite Heq).
    pose proof Hset as Hset'. rewrite Hc in Hset.
    exact (Hold i w set set line Hset Hline Hvalid Hset' Hline).
  - intros i w set line Hset Hline Hvalid.
    assert (Hc : cache sim' =
                 <[i0 := <[v := fresh_line (r_addr r) (r_pc r) (r_sharers r)
                                  (r_state r)]> set0]> (cache sim))
      by (by rewrite Heq).
    pose proof Hset as Hset'. rewrite Hc in Hset.
    apply list_lookup_insert_Some in Hset as [(-> & <- & _) | [Hne Hset]].
    + pose proof Hline as Hline'.
      apply list_lookup_insert_Some in Hline as [(-> & <- & _) | [Hnw Hline]].
      * split; [done |].
        exists done, r, []. split_and!; [done | done | |].
        -- exists sim, sim'. split_and!; [done | done | |]; by rewrite Heq.
        -- intros l1 l2 Hnil. symmetry in Hnil.
           apply app_eq_nil in Hnil as [-> ->].
           eexists sim', _. split_and!; [done | done | done].
      * exact (Hold i w set0 _ line Hset0 Hline Hvalid Hset' Hline').
    + exact (Hold i w set set line Hset Hline Hvalid Hset' Hline).
Qed.

Lemma run_lines_installed (fuel : nat) (trace : list request) (p : P) :
  (4 ≤ fuel)%nat → sim_inv (Simulator_init p) →
  ∃ sim, run fuel (Simulator_init p) trace = Ret sim ∧
         lines_installed fuel (Simulator_init p) trace sim.
Proof.
  intros Hfuel Hinit.
  destruct (run_ghost fuel
              (λ done s, run fuel (Simulator_init p) done = Ret s ∧
                         lines_installed fuel (Simulator_init p) done s)
              trace Hfuel) with (done := @nil request)
                                (sim := Simulator_init p)
    as (s & Hrun & _ & _ & HQ).
  - intros done s r s' Hinv [Hrun Hfrom] Hacc.
    by eapply lines_installed_step.
  - done.
  - split; [done |]. intros i w set line Hset Hline Hv.
    destruct (init_set_all_invalid p i w set line Hset Hline) as [-> _]. done.
  - by exists s.
Qed.

End Installed.

(** X7. For each of the three policies, after any trace every valid line
    of the cache sits in the set its tag maps to and is exactly the line
    that some access of the trace installed: that access was a miss, the
    line is the one built from its address, pc, sharers and state, and it
    has been in the same way, unchanged, in every state since, so no later
    hit has refreshed it. *)
Theorem resident_lines_come_from_trace (fuel : nat) (trace : list request) :
  (4 ≤ fuel)%nat →
  for_each_policy (λ P _ init,
    ∃ s, run fuel init trace = Ret s ∧
      ∀ (i w : nat) set line,
        cache s !! i = Some set → set !! w = Some line → valid line = true →
        set_index (tag line) = Z.of_nat i ∧
        ∃ before r later,
          trace = before ++ r :: later ∧
          line = mkCacheLine true (r_addr r) (r_pc r) (r_sharers r)
                   (r_state r) 0 3 ∧
          (∃ s0 s1,
             run fuel init before = Ret s0 ∧
             access fuel s0 (r_addr r) (r_pc r) (r_sharers r) (r_state r)
               = Ret s1 ∧
             hits s1 = hits s0 ∧ misses s1 = misses s0 + 1) ∧
          ∀ l1 l2, later = l1 ++ l2 →
            ∃ s1 set1,
              run fuel init (before ++ r :: l1) = Ret s1 ∧
              cache s1 !! i = Some set1 ∧ set1 !! w = Some line).
Proof.
  intros Hfuel. apply for_each_policy_init. intros P R L p Hinit.
  destruct (run_lines_installed fuel trace p Hfuel Hinit)
    as (s & Hrun & Hfrom).
  by exists s.
Qed.

Lemma resident_lines_come_from_trace_witness :
  for_each_policy (λ P _ init,
    ∃ s, run 4 init nine_lines_in_set_0 = Ret s ∧
      ∀ (i w : nat) set line,
        cache s !! i = Some set → set !! w = Some line → valid line = true →
        set_index (tag line) = Z.of_nat i ∧
        ∃ before r later,
          nine_lines_in_set_0 = before ++ r :: later ∧
          line = mkCacheLine true (r_addr r) (r_pc r) (r_sharers r)
                   (r_state r) 0 3 ∧
          (∃ s0 s1,
             run 4 init before = Ret s0 ∧
             access 4 s0 (r_addr r) (r_pc r) (r_sharers r) (r_state r)
               = Ret s1 ∧
             hits s1 = hits s0 ∧ misses s1 = misses s0 + 1) ∧
          ∀ l1 l2, later = l1 ++ l2 →
            ∃ s1 set1,
              run 4 init (before ++ r :: l1) = Ret s1 ∧
              cache s1 !! i = Some set1 ∧ set1 !! w = Some line).
Proof. apply (resident_lines_come_from_trace 4 nine_lines_in_set_0). lia. Defined.

(** X8. For each of the three policies: the first access to an address
    that no access of the trace so far has used is a miss. *)
Theorem first_access_misses (fuel : nat) (trace : list request)
    (addr cpc csh : Z) (cst : MESI_State) :
  (4 ≤ fuel)%nat → addr ∉ r_addr <$> trace →
  for_each_policy (λ P _ init,
    ∃ s s', run fuel init trace = Ret s ∧
      access fuel s addr cpc csh cst = Ret s' ∧
      hits s' = hits s ∧ misses s' = misses s + 1).
Proof.
  intros Hfuel Hnew. apply for_each_policy_init. intros P R L p Hinit.
  destruct (run_lines_from fuel trace (Simulator_init p) Hfuel Hinit
              (lines_from_init p)) as (s & Hrun & Hinv & Hfrom).
  destruct (cold_access_misses fuel trace s addr cpc csh cst Hfuel Hinv
              Hfrom Hnew) as (s' & Hacc & Hh & Hm).
  by exists s, s'.
Qed.

Lemma first_access_misses_witness :
  for_each_policy (λ P _ init,
    ∃ s s', run 4 init nine_lines_in_set_0 = Ret s ∧
      access 4 s 9 1 2 SHARED = Ret s' ∧
      hits s' = hits s ∧ misses s' = misses s + 1).
Proof.
  apply (first_access_misses 4 nine_lines_in_set_0 9 1 2 SHARED).
  - lia.
  - vm_compute. intros Hin.
    repeat (apply elem_of_cons in Hin as [Hin | Hin]; [discriminate |]).
    by apply elem_of_nil in Hin.
Defined.

(** X9. For each of the three policies: a trace of at most [INT_MAX]
    accesses that never uses an address twice (a pure scan) has no hit at
    all, every access is a miss (and the miss counter, an [int], holds
    their number). *)
Theorem scan_never_hits (fuel : nat) (trace : list request) :
  (4 ≤ fuel)%nat → Z.of_nat (length trace) ≤ INT_MAX →
  NoDup (r_addr <$> trace) →
  for_each_policy (λ P _ init,
    ∃ s, run fuel init trace = Ret s ∧
         hits s = 0 ∧ misses s = Z.of_nat (length trace) ∧
         misses s ≤ INT_MAX).
Proof.
  intros Hfuel Hbound Hnd. apply for_each_policy_init. intros P R L p Hinit.
  destruct (run_ghost fuel
              (λ done s, lines_from done s ∧
                 (NoDup (r_addr <$> done) →
                  hits s = 0 ∧ misses s = Z.of_nat (length done)))
              trace Hfuel) with (done := @nil request)
                                (sim := Simulator_init p)
    as (s & Hrun & _ & _ & HQ).
  - intros done s r s' Hinv [Hfrom Hzero] Hacc.
    split; [by eapply lines_from_step |].
    rewrite fmap_app, length_app. cbn [fmap list_fmap length].
    intros [Hnd' [Hnew _]]%list.NoDup_app.
    destruct (Hzero Hnd') as [Hh Hm].
    destruct (cold_access_misses fuel done s (r_addr r) (r_pc r)
                (r_sharers r) (r_state r) Hfuel Hinv Hfrom)
      as (s1 & Hacc1 & Hh1 & Hm1).
    { intros Hin. apply (Hnew _ Hin). by apply list_elem_of_singleton. }
    assert (s1 = s') as -> by congruence. lia.
  - done.
  - split; [apply lines_from_init | by intros _].
  - rewrite app_nil_l in HQ. destruct (HQ Hnd) as [Hh Hm].
    exists s. split_and!; [done | done | done | lia].
Qed.

Lemma scan_never_hits_witness :
  for_each_policy (λ P _ init,
    ∃ s, run 4 init nine_lines_in_set_0 = Ret s ∧
         hits s = 0 ∧ misses s = Z.of_nat (length nine_lines_in_set_0) ∧
         misses s ≤ INT_MAX).
Proof.
  apply (scan_never_hits 4 nine_lines_in_set_0).
  - lia.
  - vm_compute. discriminate.
  - change (NoDup (seqZ 0 9)). apply NoDup_seqZ.
Defined.

(** ** LRU on a full set *)

(** X10. Under LRU, after any trace: on a set whose ways are all valid
    [find_victim] returns the one way whose rank is WAYS-1 and does not
    touch the policy object; the [return 0] after the loop is never what
    decides. *)
Theorem lru_evicts_the_last_rank (fuel : nat) (trace : list request) :
  (4 ≤ fuel)%nat →
  ∃ s, run fuel (Simulator_init LRU_Policy_init) trace = Ret s ∧
    ∀ (i : nat) set cpc csh cst,
      cache s !! i = Some set →
      (∀ w line, set !! w = Some line → valid line = true) →
      ∃ (v : nat) ranks,
        lru_stacks (policy s) !! i = Some ranks ∧
        LRU_find_victim (policy s) (Z.of_nat i) set cpc csh cst
          = Ret (Z.of_nat v, policy s) ∧
        ranks !! v = Some (WAYS - 1) ∧
        ∀ w, ranks !! w = Some (WAYS - 1) → w = v.
Proof.
  intros Hfuel.
  destruct (LRU_run_reachable fuel trace Hfuel) as (s & Hrun & Hreach).
  destruct (run_inv fuel trace _ sim_inv_init_LRU Hfuel)
    as (s' & Hrun' & [[Hclen Hsets] _]).
  assert (s' = s) as -> by congruence.
  exists s. split; [done |]. intros i set cpc csh cst Hset Hall.
  destruct (LRU_reachable_perm _ Hreach) as [Hplen Hperm].
  destruct (Hsets _ _ Hset) as (Hslen & _ & _).
  destruct (lookup_lt_is_Some_2 (lru_stacks (policy s)) i) as [ranks Hranks].
  { apply lookup_lt_Some in Hset. lia. }
  pose proof (Hperm _ _ Hranks) as Hp.
  pose proof Hp as (Hnd & Hrlen & _)%perm_seqZ_facts.
  assert (Hlast : ∃ w0, ranks !! w0 = Some (WAYS - 1)).
  { apply list_elem_of_lookup_1. rewrite Hp. apply elem_of_seqZ.
    unfold WAYS. lia. }
  destruct Hlast as [w0 Hw0].
  assert (Hstops : ∀ w, stops (WAYS - 1) set ranks w = true ↔
                        ranks !! w = Some (WAYS - 1)).
  { intros w. unfold stops. split.
    - destruct (set !! w) as [line |] eqn:Hl; [| done].
      destruct (ranks !! w) as [r |]; [| done].
      rewrite (Hall _ _ Hl). cbn. intros ?%Z.eqb_eq. by subst.
    - intros Hr. rewrite Hr.
      destruct (lookup_lt_is_Some_2 set w) as [line Hl].
      { apply lookup_lt_Some in Hr. lia. }
      rewrite Hl, (Hall _ _ Hl). cbn. apply Z.eqb_refl. }
  unfold LRU_find_victim, lru_scan.
  destruct (scan_for_row (WAYS - 1) (lru_stacks (policy s)) i ranks set
              (Z.to_nat WAYS) Hranks) as (res & -> & Hres); [lia | lia |].
  obind. destruct res as [w |].
  - destruct Hres as (x & -> & Hx & Hstop & _).
    apply Hstops in Hstop.
    exists x, ranks. split_and!; try done.
    intros w Hw. by eapply (proj1 (NoDup_alt ranks) Hnd).
  - exfalso. apply Hstops in Hw0 as Hs0.
    rewrite Hres in Hs0; [done |]. apply lookup_lt_Some in Hw0. lia.
Qed.

Lemma lru_evicts_the_last_rank_witness :
  ∃ s, run 4 (Simulator_init LRU_Policy_init) nine_lines_in_set_0 = Ret s ∧
    ∀ (i : nat) set cpc csh cst,
      cache s !! i = Some set →
      (∀ w line, set !! w = Some line → valid line = true) →
      ∃ (v : nat) ranks,
        lru_stacks (policy s) !! i = Some ranks ∧
        LRU_find_victim (policy s) (Z.of_nat i) set cpc csh cst
          = Ret (Z.of_nat v, policy s) ∧
        ranks !! v = Some (WAYS - 1) ∧
        ∀ w, ranks !! w = Some (WAYS - 1) → w = v.
Proof. apply (lru_evicts_the_last_rank 4 nine_lines_in_set_0). lia. Defined.

(** ** LRU keeps what was used last *)

Lemma LRU_victim_stops p (i : nat) set ranks cpc csh cst :
  lru_perm p → lru_stacks p !! i = Some ranks →
  length set = Z.to_nat WAYS →
  ∃ v : nat,
    LRU_find_victim p (Z.of_nat i) set cpc csh cst = Ret (Z.of_nat v, p) ∧
    stops (WAYS - 1) set ranks v = true.
Proof.
  intros [_ Hperm] Hranks Hslen.
  pose proof (Hperm _ _ Hranks) as Hp.
  pose proof Hp as (Hnd & Hrlen & _)%perm_seqZ_facts.
  assert (Hlast : ∃ w0, ranks !! w0 = Some (WAYS - 1)).
  { apply list_elem_of_lookup_1. rewrite Hp. apply elem_of_seqZ.
    unfold WAYS. lia. }
  destruct Hlast as [w0 Hw0].
  unfold LRU_find_victim, lru_scan.
  destruct (scan_for_row (WAYS - 1) (lru_stacks p) i ranks set
              (Z.to_nat WAYS) Hranks) as (res & -> & Hres); [lia | lia |].
  obind. destruct res as [w |].
  - destruct Hres as (x & -> & Hx & Hstop & _). by exists x.
  - exfalso.
    assert (Hs0 : stops (WAYS - 1) set ranks w0 = true).
    { unfold stops. rewrite Hw0.
      destruct (lookup_lt_is_Some_2 set w0) as [line ->].
      { apply lookup_lt_Some in Hw0. lia. }
      rewrite Z.eqb_refl. apply orb_true_r. }
    rewrite Hres in Hs0; [done |]. apply lookup_lt_Some in Hw0. lia.
Qed.

Lemma lru_touched_rank way row (w : nat) rank :
  (way < length row)%nat → row !! w = Some rank →
  ∃ rank', lru_touched way row !! w = Some rank' ∧
           (w = way → rank' = 0) ∧ (w ≠ way → rank' ≤ rank + 1).
Proof.
  intros Hway Hw.
  destruct (lookup_lt_is_Some_2 row way Hway) as [old_pos Hold].
  rewrite (lru_touched_lookup _ _ _ _ Hold), Hw.
  destruct (decide (w = way)) as [-> | Hne].
  - exists 0. by split_and!.
  - simpl. destruct (Z.ltb_spec rank old_pos); eexists; split_and!;
      try done; lia.
Qed.

(** One access: a line of rank at most [k] stays resident, with rank at
    most [k + 1] after an access to its set and with its rank untouched
    after an access to another set; the accessed line itself has rank 0
    afterwards. *)
Lemma lru_access_ages_by_one (fuel : nat) (sim sim' : Simulator LRU_Policy)
    (k : nat) (addr : Z) (q : request) :
  sim_inv sim → (4 ≤ fuel)%nat → LRU_reachable (policy sim) →
  access fuel sim (r_addr q) (r_pc q) (r_sharers q) (r_state q) = Ret sim' →
  lru_resident_within 0 (r_addr q) sim' ∧
  (lru_resident_within (Z.of_nat k) addr sim →
   (set_index (r_addr q) = set_index addr → Z.of_nat k < WAYS - 1) →
   lru_resident_within
     (if decide (set_index (r_addr q) = set_index addr)
      then Z.of_nat k + 1 else Z.of_nat k) addr sim').
Proof.
  intros Hinv Hfuel Hreach Hacc.
  destruct (access_cases fuel sim (r_addr q) (r_pc q) (r_sharers q)
              (r_state q) Hinv Hfuel)
    as (i & set & s1 & Hidx & Hset & Hslen & Hacc1 & Hinv1 & Hcase).
  assert (s1 = sim') as -> by congruence. clear Hacc1.
  pose proof (LRU_reachable_perm _ Hreach) as Hperm.
  pose proof Hperm as [Hplen Hrows].
  destruct (lookup_lt_is_Some_2 (lru_stacks (policy sim)) i) as [ranks Hranks].
  { apply lookup_lt_Some in Hset. destruct Hinv as [[Hclen _] _]. lia. }
  pose proof (Hrows _ _ Hranks) as (_ & Hrlen & _)%perm_seqZ_facts.
  assert (Hi : Z.to_nat (set_index (r_addr q)) = i) by lia.
  (* what the access did: it touched way [t] of set [i], whose line is now
     valid with the tag of [q], and left the other ways of the set alone *)
  assert (Hdid : ∃ (t : nat) set',
            (t < Z.to_nat WAYS)%nat ∧
            cache sim' = <[i := set']> (cache sim) ∧
            lru_stacks (policy sim') =
              <[i := lru_touched t ranks]> (lru_stacks (policy sim)) ∧
            (∃ line, set' !! t = Some line ∧ valid line = true ∧
                     tag line = r_addr q) ∧
            ∀ w line rank, set !! w = Some line →
              valid line = true → ranks !! w = Some rank →
              rank < WAYS - 1 → set' !! w = Some line).
  { destruct Hcase as [(w & line & Hline & Hv & Ht & Hupd & Heq) |
                       (_ & v & p1 & Hfind & Hv & Hfirst & Hupd & Heq)].
    - pose proof (lookup_lt_Some _ _ _ Hline) as Hw.
      cbn [update_on_hit LRU_ReplacementPolicy] in Hupd.
      rewrite (LRU_update_on_hit_touch _ i w ranks line Hranks) in Hupd
        by lia.
      injection Hupd as Hpol.
      exists w, set. split_and!.
      + lia.
      + rewrite Heq. cbn [cache hit_state]. by rewrite list_insert_id.
      + by rewrite <- Hpol.
      + by exists line.
      + done.
    - cbn [find_victim LRU_ReplacementPolicy] in Hfind.
      destruct (LRU_victim_stops (policy sim) i set ranks (r_pc q)
                  (r_sharers q) (r_state q) Hperm Hranks Hslen)
        as (v' & Hfind' & Hstop).
      rewrite Hfind' in Hfind. injection Hfind as Hvv <-.
      assert (v' = v) as -> by lia.
      cbn [update_on_miss LRU_ReplacementPolicy] in Hupd.
      rewrite (LRU_update_on_miss_touch _ i v ranks Hranks) in Hupd by lia.
      injection Hupd as Hpol.
      exists v, (<[v := fresh_line (r_addr q) (r_pc q) (r_sharers q)
                          (r_state q)]> set).
      split_and!.
      + done.
      + rewrite Heq. done.
      + by rewrite <- Hpol.
      + eexists. split; [apply list_lookup_insert_eq; lia | done].
      + intros w line rank Hline Hvalid Hrank Hlow.
        rewrite list_lookup_insert_ne; [done |]. intros <-.
        apply stops_inv in Hstop as (lv & rv & Hlv & Hrv & [Hc | [_ Hc]]);
          [congruence |].
        rewrite Hrank in Hrv. injection Hrv as <-. lia. }
  destruct Hdid as (t & set' & Ht & Hcache & Hstacks & (lt & Hlt & Hvt & Htt)
                    & Hkeep).
  assert (Hset' : cache sim' !! i = Some set').
  { rewrite Hcache. apply list_lookup_insert_eq. by eapply lookup_lt_Some. }
  assert (Hranks' : lru_stacks (policy sim') !! i = Some (lru_touched t ranks)).
  { rewrite Hstacks. apply list_lookup_insert_eq. by eapply lookup_lt_Some. }
  split.
  - destruct (lookup_lt_is_Some_2 ranks t) as [r0 Hr0]; [lia |].
    destruct (lru_touched_rank t ranks t r0) as (r' & Hr' & Hz & _);
      [lia | done |].
    exists t, set', (lru_touched t ranks), lt, r'. rewrite Hi.
    split_and!; try done. rewrite Hz; [lia | done].
  - intros (w & set0 & ranks0 & line & rank & Hs0 & Hline & Hvalid & Htag
            & Hr0 & Hrank & Hle) Hk.
    pose proof (set_index_range (r_addr q)) as Hq.
    pose proof (set_index_range addr) as Ha.
    destruct (decide (set_index (r_addr q) = set_index addr)) as [Heq | Hne].
    + specialize (Hk Heq). rewrite <- Heq, Hi in Hs0, Hr0.
      assert (set0 = set) as -> by congruence.
      assert (ranks0 = ranks) as -> by congruence.
      destruct (lru_touched_rank t ranks w rank) as (r' & Hr' & Hz & Hs);
        [lia | done |].
      exists w, set', (lru_touched t ranks), line, r'. rewrite <- Heq, Hi.
      split_and!; try done.
      * eapply Hkeep; [done | done | done | lia].
      * destruct (decide (w = t)) as [-> | Hwt];
          [rewrite Hz by done | specialize (Hs Hwt)]; lia.
    + exists w, set0, ranks0, line, rank.
      split_and!; try done.
      * rewrite Hcache, list_lookup_insert_ne; [done | lia].
      * rewrite Hstacks, list_lookup_insert_ne; [done | lia].
Qed.

Lemma lru_run_ages (fuel : nat) (addr : Z) (later : list request) :
  (4 ≤ fuel)%nat →
  ∀ (k : nat) (sim : Simulator LRU_Policy),
    sim_inv sim → LRU_reachable (policy sim) →
    lru_resident_within (Z.of_nat k) addr sim →
    Z.of_nat k + Z.of_nat (length (same_set_accesses addr later)) ≤ WAYS - 1 →
    ∃ sim', run fuel sim later = Ret sim' ∧ sim_inv sim' ∧
            lru_resident_within (WAYS - 1) addr sim'.
Proof.
  intros Hfuel. induction later as [| q later IH];
    intros k sim Hinv Hreach Hres Hcount; simpl.
  - exists sim. split_and!; [done | done |].
    destruct Hres as (w & set & ranks & line & rank & ? & ? & ? & ? & ? & ?
                      & Hle).
    exists w, set, ranks, line, rank. split_and!; try done.
    unfold same_set_accesses in Hcount. simpl in Hcount. lia.
  - destruct (access_inv fuel sim (r_addr q) (r_pc q) (r_sharers q)
                (r_state q) Hinv Hfuel) as (sim1 & Hacc & Hinv1).
    rewrite Hacc. obind.
    pose proof (LRU_access_reachable fuel sim sim1 _ _ _ _ Hinv Hfuel Hreach
                  Hacc) as Hreach1.
    destruct (lru_access_ages_by_one fuel sim sim1 k addr q Hinv Hfuel Hreach
                Hacc) as [_ Hstep].
    unfold same_set_accesses in Hcount. rewrite filter_cons in Hcount.
    fold (same_set_accesses addr later) in Hcount.
    destruct (decide (set_index (r_addr q) = set_index addr)) as [Heq | Hne].
    + cbn [length] in Hcount.
      apply (IH (S k) sim1 Hinv1 Hreach1).
      * replace (Z.of_nat (S k)) with (Z.of_nat k + 1) by lia.
        apply Hstep; [done | lia].
      * lia.
    + apply (IH k sim1 Hinv1 Hreach1); [by apply Hstep | lia].
Qed.

(** X18. Under LRU a line survives the next WAYS-1 accesses to its set:
    after any trace, once an address has been accessed, and whatever is
    accessed next, as long as fewer than WAYS of the later accesses fall in
    its set (accesses to other sets do not count), the address is still
    resident, so accessing it again is a hit that leaves the cache array
    as it is. *)
Theorem lru_keeps_recent_lines (fuel : nat) (trace later : list request)
    (r : request) (cpc' csh' : Z) (cst' : MESI_State) :
  (4 ≤ fuel)%nat →
  (length (same_set_accesses (r_addr r) later) < Z.to_nat WAYS)%nat →
  ∃ s s',
    run fuel (Simulator_init LRU_Policy_init) (trace ++ r :: later) = Ret s ∧
    access fuel s (r_addr r) cpc' csh' cst' = Ret s' ∧
    cache s' = cache s ∧ hits s' = hits s + 1 ∧ misses s' = misses s.
Proof.
  intros Hfuel Hcount.
  destruct (LRU_run_reachable fuel trace Hfuel) as (s0 & Hrun0 & Hreach0).
  destruct (run_inv fuel trace _ sim_inv_init_LRU Hfuel)
    as (s0' & Hrun0' & Hinv0).
  assert (s0' = s0) as -> by congruence. clear Hrun0'.
  destruct (access_inv fuel s0 (r_addr r) (r_pc r) (r_sharers r) (r_state r)
              Hinv0 Hfuel) as (s1 & Hacc1 & Hinv1).
  pose proof (LRU_access_reachable fuel s0 s1 _ _ _ _ Hinv0 Hfuel Hreach0
                Hacc1) as Hreach1.
  destruct (lru_access_ages_by_one fuel s0 s1 0 (r_addr r) r Hinv0 Hfuel
              Hreach0 Hacc1) as [Hres1 _].
  destruct (lru_run_ages fuel (r_addr r) later Hfuel 0 s1 Hinv1 Hreach1 Hres1)
    as (s & Hrun & Hinv & Hres); [unfold WAYS in *; lia |].
  destruct Hres as (w & set & ranks & line & rank & Hset & Hline & Hvalid
                    & Htag & _).
  destruct (access_cases fuel s (r_addr r) cpc' csh' cst' Hinv Hfuel)
    as (i & set' & s' & Hidx & Hset' & _ & Hacc & _ & Hcase).
  assert (Z.to_nat (set_index (r_addr r)) = i) as Hi by lia.
  rewrite Hi in Hset. assert (set' = set) as -> by congruence.
  exists s, s'. split_and!.
  - rewrite run_app, Hrun0. obind. simpl. rewrite Hacc1. obind. done.
  - done.
  - destruct Hcase as [(w' & line' & _ & _ & _ & _ & ->) | (Hnone & _)];
      [done |].
    specialize (Hnone _ _ Hline). unfold is_hit in Hnone.
    rewrite Hvalid, Htag, Z.eqb_refl in Hnone. done.
  - destruct Hcase as [(w' & line' & _ & _ & _ & _ & ->) | (Hnone & _)];
      [done |].
    specialize (Hnone _ _ Hline). unfold is_hit in Hnone.
    rewrite Hvalid, Htag, Z.eqb_refl in Hnone. done.
  - destruct Hcase as [(w' & line' & _ & _ & _ & _ & ->) | (Hnone & _)];
      [done |].
    specialize (Hnone _ _ Hline). unfold is_hit in Hnone.
    rewrite Hvalid, Htag, Z.eqb_refl in Hnone. done.
Qed.

Lemma lru_keeps_recent_lines_witness :
  ∃ s s',
    run 4 (Simulator_init LRU_Policy_init)
      ([] ++ mkReq 0 1 0 SHARED ::
         ((λ k, mkReq (4096 * k) 2 0 SHARED) <$> seqZ 1 7)) = Ret s ∧
    access 4 s 0 7 0 MODIFIED = Ret s' ∧
    cache s' = cache s ∧ hits s' = hits s + 1 ∧ misses s' = misses s.
Proof.
  apply (lru_keeps_recent_lines 4 [] _ (mkReq 0 1 0 SHARED) 7 0 MODIFIED).
  - lia.
  - vm_compute. lia.
Defined.

(** ** SRRIP on a full set *)

Lemma bumped_below_3 (row : list Z) :
  (∀ w r, row !! w = Some r → r < 3) → bumped 3 row = (λ r, r + 1) <$> row.
Proof.
  intros Hlt. apply list_eq. intros w.
  rewrite bumped_lookup, list_lookup_fmap.
  destruct (row !! w) as [r |] eqn:Hr; [| done]. cbn.
  specialize (Hlt _ _ Hr). by destruct (Z.ltb_spec r 3); [| lia].
Qed.

Lemma srrip_loop_full (i : nat) (set : list CacheLine) (n : nat) :
  (∀ w line, set !! w = Some line → valid line = true) →
  ∀ (fuel : nat) (bits : list (list Z)) (row : list Z),
    (n < fuel)%nat →
    bits !! i = Some row → length row = length set →
    (∀ w r, row !! w = Some r → r ≤ 3 - Z.of_nat n) →
    (∃ w, row !! w = Some (3 - Z.of_nat n)) →
    ∃ v : nat,
      srrip_loop (length set) fuel bits (Z.of_nat i) set =
        Ret (Z.of_nat v, <[i := (λ r, r + Z.of_nat n) <$> row]> bits) ∧
      row !! v = Some (3 - Z.of_nat n) ∧
      ∀ w, (w < v)%nat → row !! w ≠ Some (3 - Z.of_nat n).
Proof.
  intros Hall.
  assert (Hstops : ∀ row w, length row = length set →
            (stops 3 set row w = true ↔ row !! w = Some 3)).
  { intros row w Hlen. unfold stops. split.
    - destruct (set !! w) as [line |] eqn:Hl; [| done].
      destruct (row !! w) as [r |]; [| done].
      rewrite (Hall _ _ Hl). cbn. intros ?%Z.eqb_eq. by subst.
    - intros Hr. rewrite Hr.
      destruct (lookup_lt_is_Some_2 set w) as [line Hl].
      { apply lookup_lt_Some in Hr. lia. }
      by rewrite Hl, (Hall _ _ Hl). }
  induction n as [| n IH]; intros fuel bits row Hfuel Hi Hrow Hle [w0 Hw0];
    (destruct fuel as [| fuel]; [lia |]); simpl srrip_loop; unfold srrip_scan;
    destruct (scan_for_row 3 bits i row set (length set) Hi)
      as (res & -> & Hres); try lia; obind.
  - destruct res as [w |].
    + destruct Hres as (x & -> & Hx & Hstop & Hbefore).
      exists x. split_and!.
      * assert (Hid : (λ r, r + Z.of_nat 0) <$> row = row).
        { apply list_eq. intros w. rewrite list_lookup_fmap.
          destruct (row !! w); [| done]. cbn. f_equal. lia. }
        by rewrite Hid, list_insert_id.
      * by apply Hstops in Hstop.
      * intros w Hw Hr. rewrite <- (Hstops row w Hrow) in Hr.
        by rewrite Hbefore in Hr.
    + exfalso. apply (Hstops row w0 Hrow) in Hw0 as Hs0.
      rewrite Hres in Hs0; [done |]. apply lookup_lt_Some in Hw0. lia.
  - destruct res as [w |].
    + exfalso. destruct Hres as (x & _ & _ & Hstop & _).
      apply (Hstops row x Hrow) in Hstop. specialize (Hle _ _ Hstop). lia.
    + unfold srrip_age. rewrite <- Hrow.
      rewrite (bump_below_row 3 bits i row Hi). obind. rewrite Hrow.
      rewrite bumped_below_3 by (intros w r Hr; specialize (Hle _ _ Hr); lia).
      destruct (IH fuel (<[i := (λ r, r + 1) <$> row]> bits)
                  ((λ r, r + 1) <$> row)) as (v & Hrun & Hv & Hfirst).
      * lia.
      * apply list_lookup_insert_eq. by eapply lookup_lt_Some.
      * by rewrite length_fmap.
      * intros w r. rewrite list_lookup_fmap.
        destruct (row !! w) as [r0 |] eqn:Hr0; [| done]. cbn.
        intros [= <-]. specialize (Hle _ _ Hr0). lia.
      * exists w0. rewrite list_lookup_fmap, Hw0. cbn. f_equal. lia.
      * exists v. rewrite Hrun, list_insert_insert_eq.
        rewrite list_lookup_fmap in Hv.
        destruct (row !! v) as [rv |] eqn:Hrv; [| done].
        cbn in Hv. injection Hv as Hv.
        split_and!.
        -- do 3 f_equal. rewrite <- list_fmap_compose. apply list_fmap_ext.
           intros _ r _. cbn. lia.
        -- f_equal. lia.
        -- intros w Hw Hr. apply (Hfirst w Hw).
           rewrite list_lookup_fmap, Hr. cbn. f_equal. lia.
Qed.

(** X11. SRRIP on a set whose ways are all valid and whose values are at
    most 3, with maximum [M]: the search returns, given fuel for
    [3 - M + 1] scans, the first way that holds [M], and it has added
    [3 - M] to the value of every way of that set (so the victim now has
    value 3 and the order of the values is kept); the other sets are
    untouched. *)
Theorem srrip_evicts_first_maximum (fuel : nat) (bits : list (list Z))
    (i : nat) (set : list CacheLine) (row : list Z) (M : Z) :
  bits !! i = Some row → length row = length set →
  (∀ w line, set !! w = Some line → valid line = true) →
  (∀ w r, row !! w = Some r → r ≤ M) → M ∈ row → M ≤ 3 →
  (Z.to_nat (3 - M) < fuel)%nat →
  ∃ v : nat,
    srrip_loop (length set) fuel bits (Z.of_nat i) set =
      Ret (Z.of_nat v, <[i := (λ r, r + (3 - M)) <$> row]> bits) ∧
    row !! v = Some M ∧
    ∀ w, (w < v)%nat → row !! w ≠ Some M.
Proof.
  intros Hi Hrow Hall Hle [w0 Hw0]%list_elem_of_lookup_1 HM Hfuel.
  destruct (srrip_loop_full i set (Z.to_nat (3 - M)) Hall fuel bits row)
    as (v & Hrun & Hv & Hfirst); try done.
  - intros w r Hr. specialize (Hle _ _ Hr). lia.
  - exists w0. rewrite Hw0. f_equal. lia.
  - rewrite Z2Nat.id in * by lia.
    replace (3 - (3 - M)) with M in * by lia.
    by exists v.
Qed.

Lemma srrip_evicts_first_maximum_witness :
  ∃ v : nat,
    srrip_loop (length example_full_set) 4
      [[0; 2; 1; 2; 0; 0; 1; 2]] (Z.of_nat 0) example_full_set =
      Ret (Z.of_nat v,
           <[0%nat := (λ r, r + (3 - 2)) <$> [0; 2; 1; 2; 0; 0; 1; 2]]>
             [[0; 2; 1; 2; 0; 0; 1; 2]]) ∧
    [0; 2; 1; 2; 0; 0; 1; 2] !! v = Some 2 ∧
    ∀ w, (w < v)%nat → [0; 2; 1; 2; 0; 0; 1; 2] !! w ≠ Some 2.
Proof.
  apply (srrip_evicts_first_maximum 4 [[0; 2; 1; 2; 0; 0; 1; 2]] 0
           example_full_set [0; 2; 1; 2; 0; 0; 1; 2] 2).
  - reflexivity.
  - reflexivity.
  - apply Forall_lookup. unfold example_full_set. by repeat constructor.
  - apply Forall_lookup. repeat constructor; lia.
  - apply elem_of_cons. right. apply elem_of_cons. by left.
  - lia.
  - cbn. lia.
Defined.

(** X12. Under SRRIP, after any trace every set has its WAYS
    re-reference values and each of them is one of 0, 1, 2, 3. *)
Theorem srrip_values_stay_two_bit (fuel : nat) (trace : list request) :
  (4 ≤ fuel)%nat →
  ∃ s, run fuel (Simulator_init SRRIP_Policy_init) trace = Ret s ∧
    length (rrpv_bits (policy s)) = Z.to_nat NUM_SETS ∧
    ∀ (i w : nat) row r,
      rrpv_bits (policy s) !! i = Some row → row !! w = Some r →
      length row = Z.to_nat WAYS ∧ 0 ≤ r ≤ 3.
Proof.
  intros Hfuel.
  destruct (run_inv fuel trace _ sim_inv_init_SRRIP Hfuel)
    as (s & Hrun & [[Hclen Hsets] [Hplen Hp]]).
  exists s. split_and!; [done | done |].
  intros i w row r Hrow Hr.
  destruct (lookup_lt_is_Some_2 (cache s) i) as [set Hset].
  { apply lookup_lt_Some in Hrow. lia. }
  destruct (Hsets _ _ Hset) as (Hslen & _ & _).
  destruct (Hp _ _ _ Hset Hrow) as (Hrlen & Hrange & _).
  split; [lia | by eapply Hrange].
Qed.

Lemma srrip_values_stay_two_bit_witness :
  ∃ s, run 4 (Simulator_init SRRIP_Policy_init) nine_lines_in_set_0 = Ret s ∧
    length (rrpv_bits (policy s)) = Z.to_nat NUM_SETS ∧
    ∀ (i w : nat) row r,
      rrpv_bits (policy s) !! i = Some row → row !! w = Some r →
      length row = Z.to_nat WAYS ∧ 0 ≤ r ≤ 3.
Proof. apply (srrip_values_stay_two_bit 4 nine_lines_in_set_0). lia. Defined.

(** ** COALESCE: the victim and the training it triggers *)

(** X13. COALESCE on a set whose ways are all valid, with a well-formed
    policy object: [find_victim] returns the lowest-numbered way among
    those of minimum adjusted vote (never the initial -1).  In a sampled
    set it appends the victim's record with that vote and trains the brain
    negatively on the victim's stored signature; in any other set it
    leaves the policy object as it is. *)
Theorem coalesce_evicts_first_minimum (p : COALESCE_Policy) (i : nat)
    (set : list CacheLine) (cpc csh : Z) (cst : MESI_State) :
  COALESCE_ok p → (i < Z.to_nat NUM_SETS)%nat →
  length set = Z.to_nat WAYS →
  (∀ y ly, set !! y = Some ly → valid ly = true) →
  ∃ (x : nat) lx mv (s : bool) ring b',
    set !! x = Some lx ∧
    adjusted_vote (brain p) lx = Ret mv ∧
    (∀ y ly, set !! y = Some ly →
       ∃ vote, adjusted_vote (brain p) ly = Ret vote ∧ mv ≤ vote ∧
               ((y < x)%nat → mv < vote)) ∧
    is_sampled p !! i = Some s ∧ samplers p !! i = Some ring ∧
    train (brain p) (pc lx) (sharers lx) (state lx) false = Ret b' ∧
    COALESCE_find_victim p (Z.of_nat i) set cpc csh cst =
      Ret (Z.of_nat x,
           if s then
             mkCOALESCE b'
               (<[i := ring ++ [mkSamplerEntry true (tag lx) (pc lx)
                                  (sharers lx) (state lx) mv]]> (samplers p))
               (is_sampled p)
           else p).
Proof.
  intros Hok Hi Hlen Hall.
  destruct (COALESCE_find_victim_full p i set cpc csh cst Hok Hlen Hi Hall)
    as (x & lx & mv & s & ring & b' & ? & ? & ? & ? & ? & ? & _ & ?).
  by exists x, lx, mv, s, ring, b'.
Qed.

Lemma coalesce_evicts_first_minimum_witness :
  ∃ (x : nat) lx mv (s : bool) ring b',
    example_full_set !! x = Some lx ∧
    adjusted_vote (brain (COALESCE_Policy_init PerceptronBrain_init)) lx
      = Ret mv ∧
    (∀ y ly, example_full_set !! y = Some ly →
       ∃ vote,
         adjusted_vote (brain (COALESCE_Policy_init PerceptronBrain_init)) ly
           = Ret vote ∧ mv ≤ vote ∧ ((y < x)%nat → mv < vote)) ∧
    is_sampled (COALESCE_Policy_init PerceptronBrain_init) !! 32%nat = Some s ∧
    samplers (COALESCE_Policy_init PerceptronBrain_init) !! 32%nat
      = Some ring ∧
    train (brain (COALESCE_Policy_init PerceptronBrain_init))
      (pc lx) (sharers lx) (state lx) false = Ret b' ∧
    COALESCE_find_victim (COALESCE_Policy_init PerceptronBrain_init)
      (Z.of_nat 32) example_full_set 1 2 SHARED =
      Ret (Z.of_nat x,
           if s then
             mkCOALESCE b'
               (<[32%nat := ring ++ [mkSamplerEntry true (tag lx) (pc lx)
                                       (sharers lx) (state lx) mv]]>
                  (samplers (COALESCE_Policy_init PerceptronBrain_init)))
               (is_sampled (COALESCE_Policy_init PerceptronBrain_init))
           else COALESCE_Policy_init PerceptronBrain_init).
Proof.
  apply (coalesce_evicts_first_minimum
           (COALESCE_Policy_init PerceptronBrain_init) 32 example_full_set
           1 2 SHARED).
  - apply COALESCE_ok_init, PerceptronBrain_init_ok.
  - unfold NUM_SETS. lia.
  - reflexivity.
  - apply Forall_lookup. unfold example_full_set. by repeat constructor.
Defined.

Lemma COALESCE_update_on_hit_is_sampled p set_idx way line p' :
  COALESCE_update_on_hit p set_idx way line = Ret p' →
  is_sampled p' = is_sampled p.
Proof.
  unfold COALESCE_update_on_hit.
  intros (s & _ & Hrest)%bind_Ret_inv. destruct s.
  - apply bind_Ret_inv in Hrest as (b & _ & [= <-]). done.
  - by injection Hrest as <-.
Qed.

Lemma COALESCE_find_victim_is_sampled p set_idx set cpc csh cst v p' :
  COALESCE_find_victim p set_idx set cpc csh cst = Ret (v, p') →
  is_sampled p' = is_sampled p.
Proof.
  unfold COALESCE_find_victim.
  intros (res & _ & Hrest)%bind_Ret_inv. destruct res as [w | vic mv].
  - by injection Hrest as _ <-.
  - apply bind_Ret_inv in Hrest as (s & _ & Hrest). destruct s.
    + apply bind_Ret_inv in Hrest as (vl & _ & Hrest).
      apply bind_Ret_inv in Hrest as (ring & _ & Hrest).
      apply bind_Ret_inv in Hrest as (smp & _ & Hrest).
      apply bind_Ret_inv in Hrest as (b & _ & [= _ <-]). done.
    + by injection Hrest as _ <-.
Qed.

Lemma COALESCE_is_sampled_init b (i : nat) :
  (i < Z.to_nat NUM_SETS)%nat →
  is_sampled (COALESCE_Policy_init b) !! i
    = Some (Z.of_nat i mod SAMPLING_RATE =? 0).
Proof.
  intros Hi. unfold COALESCE_Policy_init. cbn [is_sampled].
  rewrite list_lookup_fmap, lookup_seqZ_lt by lia. done.
Qed.

Lemma COALESCE_unsampled_step (fuel : nat) (s : Simulator COALESCE_Policy)
    addr cpc csh cst :
  (4 ≤ fuel)%nat → sim_inv s →
  is_sampled (policy s) !! Z.to_nat (set_index addr) = Some false →
  ∃ s', access fuel s addr cpc csh cst = Ret s' ∧ policy s' = policy s.
Proof.
  intros Hfuel Hinv Hs.
  destruct (access_cases fuel s addr cpc csh cst Hinv Hfuel)
    as (i & set & s' & Hidx & Hset & Hslen & Hacc & _ & Hcase).
  rewrite Hidx, Nat2Z.id in Hs.
  exists s'. split; [done |]. destruct Hinv as [Hc Hp].
  destruct Hcase as [(w & line & _ & _ & _ & Hupd & _) |
                     (_ & v & p1 & Hfind & Hv & _ & Hupd & _)].
  - cbn [update_on_hit COALESCE_ReplacementPolicy] in Hupd.
    unfold COALESCE_update_on_hit in Hupd.
    rewrite (at_Some _ _ _ Hs) in Hupd. obind_in Hupd. congruence.
  - cbn [update_on_miss find_victim COALESCE_ReplacementPolicy] in Hupd, Hfind.
    unfold COALESCE_update_on_miss in Hupd. injection Hupd as <-.
    destruct (some_invalid_or_all_valid set) as [Hex | Hall].
    + destruct (COALESCE_find_victim_empty (policy s) i set cpc csh cst
                  Hp Hslen Hex) as (v' & Hfind' & _). congruence.
    + destruct (COALESCE_find_victim_full (policy s) i set cpc csh cst
                  Hp Hslen) as (x & lx & mv & smp & ring & b' & _ & _ & _ &
                                Hs' & _ & _ & _ & Hfind'); [| done |].
      * apply lookup_lt_Some in Hs. destruct Hp as (_ & _ & ?). lia.
      * assert (smp = false) as -> by congruence. congruence.
Qed.

(** X14. Under COALESCE, after any trace: the sets that train are exactly
    those whose index is a multiple of SAMPLING_RATE, and an access to an
    address of any other set, hit or miss, returns with the whole policy
    object (brain weights and records) unchanged. *)
Theorem coalesce_unsampled_sets_never_train (fuel : nat)
    (trace : list request) (b : PerceptronBrain)
    (addr cpc csh : Z) (cst : MESI_State) :
  (4 ≤ fuel)%nat → brain_ok b → set_index addr mod SAMPLING_RATE ≠ 0 →
  ∃ s s',
    run fuel (Simulator_init (COALESCE_Policy_init b)) trace = Ret s ∧
    (∀ i : nat, (i < Z.to_nat NUM_SETS)%nat →
       is_sampled (policy s) !! i = Some (Z.of_nat i mod SAMPLING_RATE =? 0)) ∧
    access fuel s addr cpc csh cst = Ret s' ∧
    policy s' = policy s.
Proof.
  intros Hfuel Hb Hns.
  destruct (run_ghost fuel
              (λ _ s, is_sampled (policy s) =
                      is_sampled (COALESCE_Policy_init b))
              trace Hfuel) with (done := @nil request)
                                (sim := Simulator_init (COALESCE_Policy_init b))
    as (s & Hrun & Hinv & HQ).
  - intros done s r s' Hinv HQ Hacc.
    destruct (access_cases fuel s (r_addr r) (r_pc r) (r_sharers r)
                (r_state r) Hinv Hfuel)
      as (i & set & s1 & _ & _ & _ & Hacc1 & _ & Hcase).
    assert (s1 = s') as -> by congruence. rewrite <- HQ.
    destruct Hcase as [(w & line & _ & _ & _ & Hupd & _) |
                       (_ & v & p1 & Hfind & _ & _ & Hupd & _)].
    + by eapply COALESCE_update_on_hit_is_sampled.
    + cbn [update_on_miss COALESCE_ReplacementPolicy] in Hupd.
      unfold COALESCE_update_on_miss in Hupd. injection Hupd as <-.
      by eapply COALESCE_find_victim_is_sampled.
  - by apply sim_inv_init_COALESCE.
  - done.
  - cbn beta in HQ.
    pose proof (set_index_range addr) as Hr.
    assert (Hs : is_sampled (policy s) !! Z.to_nat (set_index addr)
                 = Some false).
    { rewrite HQ, COALESCE_is_sampled_init by lia.
      rewrite Z2Nat.id by lia. f_equal. by apply Z.eqb_neq. }
    destruct (COALESCE_unsampled_step fuel s addr cpc csh cst Hfuel Hinv Hs)
      as (s' & Hacc & Hpol).
    exists s, s'. split_and!; try done.
    intros i Hi. rewrite HQ. by apply COALESCE_is_sampled_init.
Qed.

Lemma coalesce_unsampled_sets_never_train_witness :
  ∃ s s',
    run 4 (Simulator_init (COALESCE_Policy_init PerceptronBrain_init))
      nine_lines_in_set_0 = Ret s ∧
    (∀ i : nat, (i < Z.to_nat NUM_SETS)%nat →
       is_sampled (policy s) !! i = Some (Z.of_nat i mod SAMPLING_RATE =? 0)) ∧
    access 4 s 1000 0xBAD 0 EXCLUSIVE = Ret s' ∧
    policy s' = policy s.
Proof.
  apply (coalesce_unsampled_sets_never_train 4 nine_lines_in_set_0
           PerceptronBrain_init 1000 0xBAD 0 EXCLUSIVE).
  - lia.
  - apply PerceptronBrain_init_ok.
  - vm_compute. discriminate.
Defined.

(** X15. Under COALESCE started on a well-formed brain, after any trace
    the brain still has its 4096 weights, all within [-128, 127], and every
    set still has its flag and its list of records. *)
Theorem coalesce_brain_stays_well_formed (fuel : nat) (trace : list request)
    (b : PerceptronBrain) :
  (4 ≤ fuel)%nat → brain_ok b →
  ∃ s, run fuel (Simulator_init (COALESCE_Policy_init b)) trace = Ret s ∧
    length (weights (brain (policy s))) = Z.to_nat PERCEPTRON_TABLE_SIZE ∧
    (∀ i w, weights (brain (policy s)) !! i = Some w → -128 ≤ w ≤ 127) ∧
    length (samplers (policy s)) = Z.to_nat NUM_SETS ∧
    length (is_sampled (policy s)) = Z.to_nat NUM_SETS.
Proof.
  intros Hfuel Hb.
  destruct (run_inv fuel trace _ (sim_inv_init_COALESCE b Hb) Hfuel)
    as (s & Hrun & [_ ([Hlen Hall] & Hsmp & Hsampled)]).
  exists s. split_and!; try done.
  intros i w Hw. by eapply (proj1 (Forall_lookup _ _) Hall).
Qed.

Lemma coalesce_brain_stays_well_formed_witness :
  ∃ s, run 4 (Simulator_init (COALESCE_Policy_init PerceptronBrain_init))
         nine_lines_in_set_0 = Ret s ∧
    length (weights (brain (policy s))) = Z.to_nat PERCEPTRON_TABLE_SIZE ∧
    (∀ i w, weights (brain (policy s)) !! i = Some w → -128 ≤ w ≤ 127) ∧
    length (samplers (policy s)) = Z.to_nat NUM_SETS ∧
    length (is_sampled (policy s)) = Z.to_nat NUM_SETS.
Proof.
  apply (coalesce_brain_stays_well_formed 4 nine_lines_in_set_0
           PerceptronBrain_init).
  - lia.
  - apply PerceptronBrain_init_ok.
Defined.

Lemma COALESCE_run_flags (fuel : nat) (trace : list request)
    (b : PerceptronBrain) :
  (4 ≤ fuel)%nat → brain_ok b →
  ∃ s, run fuel (Simulator_init (COALESCE_Policy_init b)) trace = Ret s ∧
       sim_inv s ∧
       is_sampled (policy s) = is_sampled (COALESCE_Policy_init b).
Proof.
  intros Hfuel Hb.
  destruct (run_ghost fuel
              (λ _ s, is_sampled (policy s) =
                      is_sampled (COALESCE_Policy_init b))
              trace Hfuel) with (done := @nil request)
                                (sim := Simulator_init (COALESCE_Policy_init b))
    as (s & Hrun & Hinv & HQ).
  - intros done s r s' Hinv HQ Hacc.
    destruct (access_cases fuel s (r_addr r) (r_pc r) (r_sharers r)
                (r_state r) Hinv Hfuel)
      as (i & set & s1 & _ & _ & _ & Hacc1 & _ & Hcase).
    assert (s1 = s') as -> by congruence. rewrite <- HQ.
    destruct Hcase as [(w & line & _ & _ & _ & Hupd & _) |
                       (_ & v & p1 & Hfind & _ & _ & Hupd & _)].
    + by eapply COALESCE_update_on_hit_is_sampled.
    + cbn [update_on_miss COALESCE_ReplacementPolicy] in Hupd.
      unfold COALESCE_update_on_miss in Hupd. injection Hupd as <-.
      by eapply COALESCE_find_victim_is_sampled.
  - by apply sim_inv_init_COALESCE.
  - done.
  - by exists s.
Qed.

(** X20. Under COALESCE a hit in a sampled set rewards the signature that
    was stored with the line when it was installed, not the signature of
    the request that hits: after any trace, an access to an address that
    is resident in a sampled set returns with the brain that one positive
    [train] on the stored pc, sharers and state gives, whatever pc, sharers
    and state the request carries; the records, the flags and the cache
    array are unchanged. *)
Theorem coalesce_hit_rewards_stored_signature (fuel : nat)
    (trace : list request) (b : PerceptronBrain)
    (addr cpc csh : Z) (cst : MESI_State) :
  (4 ≤ fuel)%nat → brain_ok b → set_index addr mod SAMPLING_RATE = 0 →
  ∃ s, run fuel (Simulator_init (COALESCE_Policy_init b)) trace = Ret s ∧
    ∀ set (w : nat) line,
      cache s !! Z.to_nat (set_index addr) = Some set →
      set !! w = Some line → valid line = true → tag line = addr →
      ∃ s' b',
        access fuel s addr cpc csh cst = Ret s' ∧
        train (brain (policy s)) (pc line) (sharers line) (state line) true
          = Ret b' ∧
        policy s' =
          mkCOALESCE b' (samplers (policy s)) (is_sampled (policy s)) ∧
        cache s' = cache s ∧ hits s' = hits s + 1.
Proof.
  intros Hfuel Hb Hsampled.
  destruct (COALESCE_run_flags fuel trace b Hfuel Hb)
    as (s & Hrun & Hinv & Hflags).
  exists s. split; [done |]. intros set w line Hset Hline Hvalid Htag.
  pose proof (set_index_range addr) as Hr.
  assert (Hs : is_sampled (policy s) !! Z.to_nat (set_index addr)
               = Some true).
  { rewrite Hflags, COALESCE_is_sampled_init by lia.
    rewrite Z2Nat.id by lia. f_equal. by apply Z.eqb_eq. }
  destruct (access_cases fuel s addr cpc csh cst Hinv Hfuel)
    as (i & set' & s' & Hidx & Hset' & _ & Hacc & _ & Hcase).
  assert (Hi : Z.to_nat (set_index addr) = i) by lia.
  rewrite Hi in Hset, Hs. assert (set' = set) as -> by congruence.
  pose proof Hinv as [[_ Hsets] _].
  destruct (Hsets _ _ Hset) as (_ & Huniq & _).
  destruct Hcase as [(w' & line' & Hline' & Hv' & Ht' & Hupd & Heq) |
                     (Hnone & _)].
  - assert (w' = w) as ->.
    { apply (Huniq w' w line' line); try done. congruence. }
    assert (line' = line) as -> by congruence.
    cbn [update_on_hit COALESCE_ReplacementPolicy] in Hupd.
    unfold COALESCE_update_on_hit in Hupd.
    rewrite (at_Some _ _ _ Hs) in Hupd. obind_in Hupd.
    apply bind_Ret_inv in Hupd as (b' & Htrain & [= Hpol]).
    exists s', b'. split_and!; [done | done | done | |];
      rewrite Heq; done.
  - exfalso. specialize (Hnone _ _ Hline). unfold is_hit in Hnone.
    rewrite Hvalid, Htag, Z.eqb_refl in Hnone. done.
Qed.

Lemma coalesce_hit_rewards_stored_signature_witness :
  ∃ s, run 4 (Simulator_init (COALESCE_Policy_init PerceptronBrain_init))
         nine_lines_in_set_0 = Ret s ∧
    ∀ set (w : nat) line,
      cache s !! Z.to_nat (set_index 8) = Some set →
      set !! w = Some line → valid line = true → tag line = 8 →
      ∃ s' b',
        access 4 s 8 0xF00D 4 MODIFIED = Ret s' ∧
        train (brain (policy s)) (pc line) (sharers line) (state line) true
          = Ret b' ∧
        policy s' =
          mkCOALESCE b' (samplers (policy s)) (is_sampled (policy s)) ∧
        cache s' = cache s ∧ hits s' = hits s + 1.
Proof.
  apply (coalesce_hit_rewards_stored_signature 4 nine_lines_in_set_0
           PerceptronBrain_init 8 0xF00D 4 MODIFIED).
  - lia.
  - apply PerceptronBrain_init_ok.
  - reflexivity.
Defined.

(** ** Runs that differ in the request metadata only *)

Lemma outcome_rel_bind {A1 A2 B1 B2} (R : A1 → A2 → Prop) (S : B1 → B2 → Prop)
    (m1 : outcome A1) (m2 : outcome A2) k1 k2 :
  outcome_rel R m1 m2 →
  (∀ a b, R a b → outcome_rel S (k1 a) (k2 b)) →
  outcome_rel S (m1 ≫= k1) (m2 ≫= k2).
Proof. destruct m1, m2; cbn; try done. intros HR Hk. by apply Hk. Qed.

Lemma outcome_rel_eq {A} (R : A → A → Prop) (m : outcome A) :
  (∀ a, R a a) → outcome_rel R m m.
Proof. destruct m; cbn; done. Qed.

Lemma at_rel {A B} (R : A → B → Prop) (v1 : list A) (v2 : list B) i :
  Forall2 R v1 v2 → outcome_rel R (at_ v1 i) (at_ v2 i).
Proof.
  intros HF. unfold at_. destruct (0 <=? i); [| done].
  pose proof (proj1 (Forall2_lookup R v1 v2) HF (Z.to_nat i)) as Hi.
  destruct Hi; cbn; done.
Qed.

Lemma set_at_rel {A B} (R : A → B → Prop) (v1 : list A) (v2 : list B) i a b :
  Forall2 R v1 v2 → R a b →
  outcome_rel (Forall2 R) (set_at v1 i a) (set_at v2 i b).
Proof.
  intros HF Hab. unfold set_at. rewrite <- (Forall2_length HF).
  destruct ((0 <=? i) && (i <? Z.of_nat (length v1))); [| done].
  cbn. by apply Forall2_insert.
Qed.

Lemma at2_rel {A B} (R : A → B → Prop) (m1 : list (list A)) m2 i j :
  Forall2 (Forall2 R) m1 m2 → outcome_rel R (at2 m1 i j) (at2 m2 i j).
Proof.
  intros HF. unfold at2.
  apply (outcome_rel_bind (Forall2 R)); [by apply at_rel |].
  intros r1 r2 Hr. by apply at_rel.
Qed.

Lemma set_at2_rel {A B} (R : A → B → Prop) (m1 : list (list A)) m2 i j a b :
  Forall2 (Forall2 R) m1 m2 → R a b →
  outcome_rel (Forall2 (Forall2 R)) (set_at2 m1 i j a) (set_at2 m2 i j b).
Proof.
  intros HF Hab. unfold set_at2.
  apply (outcome_rel_bind (Forall2 R)); [by apply at_rel |].
  intros r1 r2 Hr.
  apply (outcome_rel_bind (Forall2 R)); [by apply set_at_rel |].
  intros r1' r2' Hr'. by apply set_at_rel.
Qed.

Lemma scan_for_blind target n : ∀ w v i set1 set2,
  Forall2 same_tag set1 set2 →
  scan_for target n w v i set1 = scan_for target n w v i set2.
Proof.
  induction n as [| n IH]; intros w v i set1 set2 HF; simpl; [done |].
  pose proof (at_rel same_tag set1 set2 w HF) as Hat.
  destruct (at_ set1 w) as [l1 | | |], (at_ set2 w) as [l2 | | |];
    cbn in Hat; try done.
  obind. destruct Hat as [-> _].
  destruct (valid l2); simpl; [| done].
  destruct (at2 v i w); obind; [| done..].
  destruct (_ =? _); [done |]. by apply IH.
Qed.

Lemma srrip_loop_blind ways fuel : ∀ bits i set1 set2,
  Forall2 same_tag set1 set2 →
  srrip_loop ways fuel bits i set1 = srrip_loop ways fuel bits i set2.
Proof.
  induction fuel as [| fuel IH]; intros bits i set1 set2 HF; simpl; [done |].
  unfold srrip_scan. rewrite (scan_for_blind 3 ways 0 bits i set1 set2 HF).
  destruct (scan_for 3 ways 0 bits i set2) as [[w |] | | |]; obind; try done.
  destruct (srrip_age ways 0 bits i); obind; [| done..]. by apply IH.
Qed.

Lemma LRU_blind_victim (fuel : nat) (p : LRU_Policy) i set1 set2
    pc1 sh1 st1 pc2 sh2 st2 :
  Forall2 same_tag set1 set2 →
  find_victim fuel p i set1 pc1 sh1 st1 =
  find_victim fuel p i set2 pc2 sh2 st2.
Proof.
  intros HF. cbn [find_victim LRU_ReplacementPolicy].
  unfold LRU_find_victim, lru_scan.
  by rewrite (scan_for_blind _ _ _ _ _ set1 set2 HF).
Qed.

Lemma SRRIP_blind_victim (fuel : nat) (p : SRRIP_Policy) i set1 set2
    pc1 sh1 st1 pc2 sh2 st2 :
  Forall2 same_tag set1 set2 →
  find_victim fuel p i set1 pc1 sh1 st1 =
  find_victim fuel p i set2 pc2 sh2 st2.
Proof.
  intros HF. cbn [find_victim SRRIP_ReplacementPolicy].
  unfold SRRIP_find_victim.
  by rewrite (srrip_loop_blind _ _ _ _ set1 set2 HF).
Qed.

#[global] Instance LRU_MetadataBlind : MetadataBlind LRU_Policy :=
  Build_MetadataBlind LRU_Policy LRU_ReplacementPolicy
    (λ p i w l1 l2, eq_refl) LRU_blind_victim.

#[global] Instance SRRIP_MetadataBlind : MetadataBlind SRRIP_Policy :=
  Build_MetadataBlind SRRIP_Policy SRRIP_ReplacementPolicy
    (λ p i w l1 l2, eq_refl) SRRIP_blind_victim.

Section Blind.
Context {P : Type} `{MetadataBlind P}.

Lemma check_hit_blind n : ∀ w (s1 s2 : Simulator P) i tg,
  same_residency s1 s2 →
  outcome_rel (option_Forall2 same_residency)
    (check_hit n w s1 i tg) (check_hit n w s2 i tg).
Proof.
  induction n as [| n IH]; intros w s1 s2 i tg Hs; simpl.
  - constructor.
  - pose proof Hs as (Hp & Hh & Hm & Hc).
    apply (outcome_rel_bind same_tag); [by apply at2_rel |].
    intros l1 l2 [Hv Ht]. rewrite Hv, Ht.
    destruct (valid l2 && (tag l2 =? tg)); [| by apply IH].
    rewrite Hp, (blind_hit (policy s2) i w l1 l2).
    apply (outcome_rel_bind eq); [by apply outcome_rel_eq |].
    intros p' ? <-. cbn. constructor.
    unfold same_residency. cbn. split_and!; [done | lia | done | done].
Qed.

Lemma access_blind (fuel : nat) (s1 s2 : Simulator P) addr
    pc1 sh1 st1 pc2 sh2 st2 :
  same_residency s1 s2 →
  outcome_rel same_residency
    (access fuel s1 addr pc1 sh1 st1) (access fuel s2 addr pc2 sh2 st2).
Proof.
  intros Hs. pose proof Hs as (Hp & Hh & Hm & Hc). unfold access.
  apply (outcome_rel_bind (option_Forall2 same_residency));
    [by apply check_hit_blind |].
  intros h1 h2 [s1' s2' Hs' |]; [done |].
  apply (outcome_rel_bind (Forall2 same_tag)); [by apply at_rel |].
  intros set1 set2 Hset. rewrite Hp.
  rewrite (blind_victim fuel (policy s2) _ set1 set2 pc1 sh1 st1 pc2 sh2 st2
             Hset).
  apply (outcome_rel_bind eq); [by apply outcome_rel_eq |].
  intros [v p1] ? <-.
  apply (outcome_rel_bind same_tags).
  { apply set_at2_rel; [done |]. by split. }
  intros c1 c2 Hc'.
  apply (outcome_rel_bind eq); [by apply outcome_rel_eq |].
  intros p2 ? <-. cbn. unfold same_residency. cbn.
  split_and!; [done | done | lia | done].
Qed.

Lemma run_blind (fuel : nat) (t1 t2 : list request) :
  r_addr <$> t1 = r_addr <$> t2 →
  ∀ s1 s2 : Simulator P, same_residency s1 s2 →
    outcome_rel same_residency (run fuel s1 t1) (run fuel s2 t2).
Proof.
  revert t2. induction t1 as [| q1 t1 IH]; intros [| q2 t2] Haddr s1 s2 Hs;
    try done.
  simpl in Haddr. injection Haddr as Ha Haddr. simpl. rewrite Ha.
  apply (outcome_rel_bind same_residency); [by apply access_blind |].
  intros s1' s2' Hs'. by apply IH.
Qed.

End Blind.

(** X19. LRU and SRRIP look at nothing but addresses and valid bits: two
    traces that access the same addresses in the same order, with whatever
    pc, sharers and state, both return and end with the same policy
    object, the same hits and misses, and the same tags valid in the same
    ways.  (COALESCE reads the stored pc, sharers and state when it trains
    and votes, and is not covered.) *)
Theorem baselines_ignore_request_metadata (fuel : nat)
    (t1 t2 : list request) :
  (4 ≤ fuel)%nat → r_addr <$> t1 = r_addr <$> t2 →
  (∃ s1 s2, run fuel (Simulator_init LRU_Policy_init) t1 = Ret s1 ∧
            run fuel (Simulator_init LRU_Policy_init) t2 = Ret s2 ∧
            same_residency s1 s2) ∧
  (∃ s1 s2, run fuel (Simulator_init SRRIP_Policy_init) t1 = Ret s1 ∧
            run fuel (Simulator_init SRRIP_Policy_init) t2 = Ret s2 ∧
            same_residency s1 s2).
Proof.
  intros Hfuel Haddr.
  assert (Hgen : ∀ P (R : ReplacementPolicy P) (L : PolicyLaws P)
                   (B : MetadataBlind P) (p : P),
            sim_inv (Simulator_init p) →
            ∃ s1 s2, run fuel (Simulator_init p) t1 = Ret s1 ∧
                     run fuel (Simulator_init p) t2 = Ret s2 ∧
                     same_residency s1 s2).
  { intros P R L B p Hinit.
    destruct (run_inv fuel t1 _ Hinit Hfuel) as (s1 & Hrun1 & _).
    destruct (run_inv fuel t2 _ Hinit Hfuel) as (s2 & Hrun2 & _).
    exists s1, s2. split_and!; [done | done |].
    assert (Hsame : same_residency (Simulator_init p) (Simulator_init p)).
    { unfold same_residency, same_tags. split_and!; try done.
      apply Forall2_same_length_lookup. split; [done |].
      intros i x y Hx Hy. assert (x = y) as <- by congruence.
      clear. induction x; constructor; done. }
    pose proof (run_blind fuel t1 t2 Haddr _ _ Hsame) as Hrel.
    rewrite Hrun1, Hrun2 in Hrel. exact Hrel. }
  split.
  - exact (Hgen _ _ _ _ _ sim_inv_init_LRU).
  - exact (Hgen _ _ _ _ _ sim_inv_init_SRRIP).
Qed.

Lemma baselines_ignore_request_metadata_witness :
  (∃ s1 s2,
     run 4 (Simulator_init LRU_Policy_init)
       [mkReq 0 1 0 SHARED; mkReq 4096 2 3 MODIFIED; mkReq 0 5 0 SHARED]
       = Ret s1 ∧
     run 4 (Simulator_init LRU_Policy_init)
       [mkReq 0 9 4 MODIFIED; mkReq 4096 7 0 EXCLUSIVE; mkReq 0 1 1 INVALID]
       = Ret s2 ∧
     same_residency s1 s2) ∧
  (∃ s1 s2,
     run 4 (Simulator_init SRRIP_Policy_init)
       [mkReq 0 1 0 SHARED; mkReq 4096 2 3 MODIFIED; mkReq 0 5 0 SHARED]
       = Ret s1 ∧
     run 4 (Simulator_init SRRIP_Policy_init)
       [mkReq 0 9 4 MODIFIED; mkReq 4096 7 0 EXCLUSIVE; mkReq 0 1 1 INVALID]
       = Ret s2 ∧
     same_residency s1 s2).
Proof.
  apply (baselines_ignore_request_metadata 4
           [mkReq 0 1 0 SHARED; mkReq 4096 2 3 MODIFIED; mkReq 0 5 0 SHARED]
           [mkReq 0 9 4 MODIFIED; mkReq 4096 7 0 EXCLUSIVE;
            mkReq 0 1 1 INVALID]).
  - lia.
  - reflexivity.
Defined.

(** ** main *)

Lemma bind_Ret_eq {A B} (m : outcome A) (k : A → outcome B) a :
  m = Ret a → m ≫= k = k a.
Proof. by intros ->. Qed.

(** X16. The workload that [main] plays has 10000 accesses, and its two
    phases never meet in a set: every scanner access (pc 0xBAD) falls in
    one of the sets 15..39, every ping-pong access (pc 0xF00D) has one of
    the 16 addresses 0..15, all of which map to set 0. *)
Theorem workload_phases_use_disjoint_sets :
  Z.of_nat (length workload) = 10000 ∧
  ∀ r, r ∈ workload →
    (r_pc r = 0xBAD ∧ r_sharers r = 0 ∧ 15 ≤ set_index (r_addr r) ≤ 39) ∨
    (r_pc r = 0xF00D ∧ r_sharers r = 4 ∧ 0 ≤ r_addr r < 16 ∧
     set_index (r_addr r) = 0).
Proof.
  split; [vm_compute; reflexivity |].
  assert (Hall : forallb (λ r, is_scanner_request r || is_pingpong_request r)
                   workload = true) by (vm_compute; reflexivity).
  intros r Hr%list_elem_of_In.
  pose proof (proj1 (forallb_forall _ _) Hall r Hr) as Hcase.
  clear Hall Hr.
  apply orb_true_iff in Hcase as [Hs | Hp].
  - left. unfold is_scanner_request in Hs.
    apply andb_true_iff in Hs as [[[?%Z.eqb_eq ?%Z.eqb_eq]%andb_true_iff
      ?%Z.leb_le]%andb_true_iff ?%Z.leb_le]. done.
  - right. unfold is_pingpong_request in Hp.
    apply andb_true_iff in Hp as [[[[?%Z.eqb_eq ?%Z.eqb_eq]%andb_true_iff
      ?%Z.leb_le]%andb_true_iff ?%Z.ltb_lt]%andb_true_iff ?%Z.eqb_eq]. done.
Qed.

(** X17. Each of the three runs of [main] returns (the SRRIP search needs
    fuel for at most four scans), and [print_stats] is reached with hits
    and misses that add up to the 10000 accesses of the workload: the
    divisor of the printed hit rate is 10000 in all three lines. *)
Theorem main_runs_count_every_access (fuel : nat) :
  (4 ≤ fuel)%nat →
  for_each_policy (λ P _ init,
    ∃ s, run fuel init workload = Ret s ∧
         0 ≤ hits s ∧ 0 ≤ misses s ∧ hits s + misses s = 10000) ∧
  ∃ lru srrip coalesce,
    main fuel = Ret (lru, srrip, coalesce) ∧
    st_name lru = "LRU"%string ∧ st_name srrip = "SRRIP"%string ∧
    st_name coalesce = "COALESCE"%string.
Proof.
  intros Hfuel.
  assert (Hzero : ∀ P (p : P), counted 0 (Simulator_init p))
    by (intros; unfold counted, Simulator_init; cbn [hits misses]; lia).
  assert (Hlen : Z.of_nat (length workload) = 10000)
    by (vm_compute; reflexivity).
  assert (Hrun : ∀ P (R : ReplacementPolicy P) (L : PolicyLaws P) (p : P),
            sim_inv (Simulator_init p) →
            ∃ s, run fuel (Simulator_init p) workload = Ret s ∧
                 0 ≤ hits s ∧ 0 ≤ misses s ∧ hits s + misses s = 10000).
  { intros P R L p Hinit.
    destruct (run_counts fuel workload _ 0%nat Hinit Hfuel (Hzero _ _))
      as (s & Hrun & Hh & Hm & Hsum).
    change (0 + length workload)%nat with (length workload) in Hsum.
    rewrite Hlen in Hsum.
    exact (ex_intro _ s (conj Hrun (conj Hh (conj Hm Hsum)))). }
  split; [apply for_each_policy_init; exact Hrun |].
  destruct (Hrun _ _ _ _ sim_inv_init_LRU) as (s1 & Hr1 & _).
  destruct (Hrun _ _ _ _ sim_inv_init_SRRIP) as (s2 & Hr2 & _).
  destruct (Hrun _ _ _ _ (sim_inv_init_COALESCE _ PerceptronBrain_init_ok))
    as (s3 & Hr3 & _).
  pose proof (bind_Ret_eq _ (λ sim, Ret (print_stats sim)) s1 Hr1) as Ht1.
  pose proof (bind_Ret_eq _ (λ sim, Ret (print_stats sim)) s2 Hr2) as Ht2.
  pose proof (bind_Ret_eq _ (λ sim, Ret (print_stats sim)) s3 Hr3) as Ht3.
  exists (print_stats s1), (print_stats s2), (print_stats s3).
  split; [| split_and!; reflexivity].
  unfold main.
  rewrite (bind_Ret_eq (run_test fuel LRU_Policy_init) _ (print_stats s1) Ht1).
  rewrite (bind_Ret_eq (run_test fuel SRRIP_Policy_init) _ (print_stats s2)
             Ht2).
  rewrite (bind_Ret_eq (run_test fuel _) _ (print_stats s3) Ht3).
  reflexivity.
Qed.

Lemma main_runs_count_every_access_witness :
  for_each_policy (λ P _ init,
    ∃ s, run 4 init workload = Ret s ∧
         0 ≤ hits s ∧ 0 ≤ misses s ∧ hits s + misses s = 10000) ∧
  ∃ lru srrip coalesce,
    main 4 = Ret (lru, srrip, coalesce) ∧
    st_name lru = "LRU"%string ∧ st_name srrip = "SRRIP"%string ∧
    st_name coalesce = "COALESCE"%string.
Proof. apply (main_runs_count_every_access 4). lia. Defined.
